(** * DiscreteFactor: a shallow embedding of [beliefs/factors/discrete_factor.py]

    The Python class [DiscreteFactor] keeps a list of variable names, a list
    of cardinalities, an optional numpy value buffer and an optional
    dictionary of state labels.  The embedding has three layers:

    - [np]: the numpy operations the class calls ([reshape], indexing with
      [np.newaxis], [moveaxis], broadcasting [*], [sum], integer indexing),
      on arrays given by their shape and their entries in C order;
    - the Python builtins it calls ([list.index], [sorted], iteration over a
      [set] difference, [copy.deepcopy]) and the object store;
    - the methods of the class, written in a state and exception monad over
      the object store.

    Buffer entries are exact integers: rounding and overflow of numpy's
    scalar types are outside the model. *)

From stdpp Require Import base gmap strings list sorting.

Local Open Scope nat_scope.

(** ** Exceptions and results *)

(** One constructor per place where the code, or a library function it
    calls, raises.  The comment gives the Python exception. *)
Inductive exn : Type :=
| ReshapeError      (* ValueError, ndarray.reshape: size and shape disagree *)
| ScopeAssertion    (* AssertionError, get_value_for_state_vector *)
| MulAssertion      (* AssertionError, product: other is no DiscreteFactor *)
| NotInList (x : string)   (* ValueError, list.index: x is not in list *)
| NotInScope (v : string)  (* ValueError('{} not in scope'), marginalize *)
| KeyError (k : string)    (* KeyError, dict[k] *)
| ListIndexError    (* IndexError, list[i] out of range *)
| ArrayIndexError   (* IndexError, ndarray[...]: too many or too large indices *)
| AxisError         (* numpy AxisError: axis out of bounds *)
| RepeatedAxis      (* ValueError, numpy: duplicate or repeated axis *)
| MoveaxisLength    (* ValueError, np.moveaxis: source and destination differ in length *)
| BroadcastError    (* ValueError, numpy: operands could not be broadcast together *)
| NoneTypeError     (* TypeError or AttributeError: an operation on None *)
| Dangling.         (* a reference to no object: never raised from a well-formed store *)

Inductive result (A : Type) : Type :=
| Ok (a : A)
| Raise (e : exn).
Arguments Ok {A} a.
Arguments Raise {A} e.

(** Sequencing of library calls that may raise. *)
Definition rbind {A B} (r : result A) (k : A → result B) : result B :=
  match r with Ok a => k a | Raise e => Raise e end.

(** ** Python lists *)

(** [l.index(x)]: the first position of [x]. *)
Fixpoint index_of {A} `{EqDecision A} (x : A) (l : list A) : option nat :=
  match l with
  | [] => None
  | y :: l' => if decide (x = y) then Some 0 else S <$> index_of x l'
  end.

(** [l.insert(i, x)]: before position [i], at the end when [i] is too large. *)
Definition list_insert_at {A} (i : nat) (x : A) (l : list A) : list A :=
  take i l ++ x :: drop i l.

(** ** numpy arrays *)

Module np.

(** An array is its shape and its entries in C order (last axis fastest). *)
Record ndarray : Type := mk { shape : list nat; data : list Z }.

(** The number of entries of a shape, the number of axes, and the arrays
    whose data fill their shape. *)
Definition size_of (s : list nat) : nat := foldr Nat.mul 1 s.
Definition ndim (a : ndarray) : nat := length (shape a).
Definition wf (a : ndarray) : Prop := length (data a) = size_of (shape a).

(** All index tuples of a shape, in C order. *)
Fixpoint indices (s : list nat) : list (list nat) :=
  match s with
  | [] => [[]]
  | n :: s' => i ← seq 0 n; (i ::.) <$> indices s'
  end.

(** Offset of an index tuple in C order. *)
Fixpoint ravel (s idx : list nat) : nat :=
  match s, idx with
  | _ :: s', i :: idx' => i * size_of s' + ravel s' idx'
  | _, _ => 0
  end.

(** An index tuple with one index per axis, each below the extent. *)
Definition in_range (s idx : list nat) : Prop := Forall2 (λ i n, i < n) idx s.

(** The entry at an index tuple (0 outside the buffer). *)
Definition get (a : ndarray) (idx : list nat) : Z :=
  nth (ravel (shape a) idx) (data a) 0%Z.

(** The array of a given shape whose entry at [idx] is [f idx]. *)
Definition tabulate (s : list nat) (f : list nat → Z) : ndarray :=
  mk s (f <$> indices s).

(** [np.array(l)] for a flat Python list. *)
Definition array (l : list Z) : ndarray := mk [length l] l.

(** [a.reshape(newshape)].  As in numpy's [_fix_unknown_dimension]: one
    negative entry stands for the dimension to infer, two are refused, and
    the entry count has to agree with the product of the others. *)
Definition reshape (a : ndarray) (newshape : list Z) : result ndarray :=
  let known := filter (λ d, 0 ≤ d)%Z newshape in
  let s_known := foldr Z.mul 1%Z known in
  let s_original := Z.of_nat (length (data a)) in
  match length newshape - length known with
  | 0 =>
      if decide (s_original = s_known)
      then Ok (mk (Z.to_nat <$> newshape) (data a))
      else Raise ReshapeError
  | 1 =>
      if decide (s_known = 0%Z ∨ (s_original mod s_known)%Z ≠ 0%Z)
      then Raise ReshapeError
      else Ok (mk ((λ d, if decide (0 ≤ d)%Z then Z.to_nat d
                         else Z.to_nat (s_original / s_known)) <$> newshape)
                  (data a))
  | _ => Raise ReshapeError
  end.

(** [a[[slice(None)] * n + [np.newaxis] * k]]: a list that holds slices is
    read as an index tuple (so numpy did until 1.22; later versions refuse
    it); [k] axes of extent 1 are put after the first [n]. *)
Definition index_newaxis (a : ndarray) (n k : nat) : result ndarray :=
  if decide (n ≤ ndim a)
  then Ok (mk (take n (shape a) ++ replicate k 1 ++ drop n (shape a)) (data a))
  else Raise ArrayIndexError.

(** The index tuple of [a] that has [idx[j]] at position [order[j]]. *)
Definition transpose_index (order idx : list nat) : list nat :=
  (λ k, default 0 (i ← index_of k order; idx !! i)) <$> seq 0 (length order).

(** [a.transpose(order)]: axis [j] of the result is axis [order[j]] of [a]. *)
Definition transpose (a : ndarray) (order : list nat) : ndarray :=
  tabulate ((λ j, default 0 (shape a !! j)) <$> order)
           (λ idx, get a (transpose_index order idx)).

(** [normalize_axis_tuple] on axes that are not negative. *)
Definition normalize_axis_tuple (axes : list nat) (n : nat) : result (list nat) :=
  if decide (Forall (λ x, x < n) axes)
  then if decide (NoDup axes) then Ok axes else Raise RepeatedAxis
  else Raise AxisError.

(** The order of [sorted(zip(destination, source))] on pairs of integers. *)
Definition pair_le (p q : nat * nat) : Prop :=
  p.1 < q.1 ∨ (p.1 = q.1 ∧ p.2 ≤ q.2).
Global Instance pair_le_dec p q : Decision (pair_le p q).
Proof. unfold pair_le. apply _. Defined.

(** [np.moveaxis(a, source, destination)], as numpy writes it:
    [order = [n for n in range(a.ndim) if n not in source]], then
    [order.insert(dest, src)] for the sorted pairs, then [transpose]. *)
Definition moveaxis_order (n : nat) (source destination : list nat) : list nat :=
  foldl (λ order p, list_insert_at p.1 p.2 order)
        (filter (λ k, k ∉ source) (seq 0 n))
        (merge_sort pair_le (zip destination source)).

(** Both axis tuples are normalized and have to be of one length. *)
Definition moveaxis (a : ndarray) (source destination : list nat) : result ndarray :=
  rbind (normalize_axis_tuple source (ndim a)) (λ source,
  rbind (normalize_axis_tuple destination (ndim a)) (λ destination,
  if decide (length source = length destination)
  then Ok (transpose a (moveaxis_order (ndim a) source destination))
  else Raise MoveaxisLength)).

(** Broadcasting of two shapes, aligned at the last axis. *)
Fixpoint broadcast_rev (s1 s2 : list nat) : result (list nat) :=
  match s1, s2 with
  | [], s | s, [] => Ok s
  | n1 :: s1', n2 :: s2' =>
      rbind (broadcast_rev s1' s2') (λ s,
      if decide (n1 = n2) then Ok (n1 :: s)
      else if decide (n1 = 1) then Ok (n2 :: s)
      else if decide (n2 = 1) then Ok (n1 :: s)
      else Raise BroadcastError)
  end.

(** Two extents agree when they are equal or one of them is 1. *)
Definition broadcast_shapes (s1 s2 : list nat) : result (list nat) :=
  rbind (broadcast_rev (reverse s1) (reverse s2)) (λ s, Ok (reverse s)).

(** The index into an operand of shape [s] for the result index [idx]:
    leading axes the operand lacks are dropped, axes of extent 1 read 0. *)
Definition broadcast_index (s idx : list nat) : list nat :=
  zip_with (λ n i, if decide (n = 1) then 0 else i)
           s (drop (length idx - length s) idx).

(** [a * b] on arrays. *)
Definition multiply (a b : ndarray) : result ndarray :=
  rbind (broadcast_shapes (shape a) (shape b)) (λ s,
  Ok (tabulate s (λ idx, (get a (broadcast_index (shape a) idx) *
                          get b (broadcast_index (shape b) idx))%Z))).

(** [a * c] for a Python number [c]. *)
Definition scale (a : ndarray) (c : Z) : ndarray :=
  mk (shape a) ((λ x, x * c)%Z <$> data a).

(** The positions of a list that are not in [axes], and the entries there. *)
Definition kept_axes (n : nat) (axes : list nat) : list nat :=
  filter (λ k, k ∉ axes) (seq 0 n).

(** The full index with [r] on the summed axes and [k] on the others. *)
Definition sum_index (n : nat) (axes k r : list nat) : list nat :=
  (λ p, match index_of p axes with
        | Some j => default 0 (r !! j)
        | None => default 0 (j ← index_of p (kept_axes n axes); k !! j)
        end) <$> seq 0 n.

(** The sum of a list of entries. *)
Definition Zsum (l : list Z) : Z := foldr Z.add 0%Z l.

(** [np.sum(a, axis=tuple(axes))]: the summed axes go away; an empty tuple
    sums over no axis. *)
Definition sum (a : ndarray) (axes : list nat) : result ndarray :=
  rbind (normalize_axis_tuple axes (ndim a)) (λ axes,
  let sel := λ ax, (λ p, default 0 (shape a !! p)) <$> ax in
  Ok (tabulate (sel (kept_axes (ndim a) axes))
        (λ k, Zsum ((λ r, get a (sum_index (ndim a) axes k r))
                      <$> indices (sel axes))))).

(** [a[tuple(coords)]] with integer coordinates: an entry when every axis is
    indexed, the sub-array of the leading coordinates otherwise. *)
Inductive item : Type :=
| Scalar (z : Z)
| SubArray (a : ndarray).

(** One coordinate selects one block of the data. *)
Fixpoint getitem_aux (s : list nat) (d : list Z) (coords : list nat)
  : result (list nat * list Z) :=
  match coords with
  | [] => Ok (s, d)
  | i :: coords' =>
      match s with
      | [] => Raise ArrayIndexError
      | n :: s' =>
          if decide (i < n)
          then getitem_aux s' (take (size_of s') (drop (i * size_of s') d)) coords'
          else Raise ArrayIndexError
      end
  end.

(** A result without axes is an entry. *)
Definition getitem (a : ndarray) (coords : list nat) : result item :=
  rbind (getitem_aux (shape a) (data a) coords) (λ '(s, d),
  match s with
  | [] => Ok (Scalar (nth 0 d 0%Z))
  | _ => Ok (SubArray (mk s d))
  end).

End np.


(** ** Python builtins *)

(** [sorted(l)] on strings: Python compares strings by code point, as
    [String.le] does on the characters of a Rocq string. *)
Definition sorted (l : list string) : list string := merge_sort String.le l.

(** [sorted(s)] on a set of integers. *)
Definition sorted_nat (l : list nat) : list nat := merge_sort le l.

(** Iterating over [set(a) - set(b)] yields every element of [a] that is not
    in [b] once, in an order Python leaves open: it comes from the hash values
    of the strings, which change from one interpreter run to the next.  A run
    is given by the enumeration it uses. *)
Record SetIteration : Type := mkSetIteration {
  iter_difference : list string → list string → list string;
  iter_difference_NoDup : ∀ a b, NoDup (iter_difference a b);
  iter_difference_elem :
    ∀ a b x, x ∈ iter_difference a b ↔ x ∈ a ∧ x ∉ b
}.

(** ** The object store *)

(** Addresses of objects. *)
Definition loc : Type := positive.

(** A [DiscreteFactor] instance.  Its two lists are made by [list(...)] in
    [__init__] and are referenced from this instance only; they are kept in
    the instance.  The value buffer and the dictionary of state labels are
    objects of their own, held by reference. *)
Record Factor : Type := mkFactor {
  variables : list string;
  cardinality : list Z;
  _values : option loc;
  state_names : option loc
}.

(** The objects of a run, by kind. *)
Record store : Type := mkStore {
  arrays : gmap loc np.ndarray;          (* ndarray objects *)
  label_lists : gmap loc (list string);  (* the lists of state labels *)
  dicts : gmap loc (gmap string loc);    (* state_names dictionaries *)
  factors : gmap loc Factor              (* DiscreteFactor instances *)
}.

(** The store of a run that has made no object yet. *)
Definition empty_store : store := mkStore ∅ ∅ ∅ ∅.

(** State and exception monad: an exception keeps the store as it is when
    it is raised. *)
Definition M (A : Type) : Type := store → result A * store.

(** Return, raise, sequencing, and a library call that may raise. *)
Definition ret {A} (a : A) : M A := λ σ, (Ok a, σ).
Definition raise {A} (e : exn) : M A := λ σ, (Raise e, σ).
Definition bind {A B} (m : M A) (k : A → M B) : M B :=
  λ σ, match m σ with
       | (Ok a, σ') => k a σ'
       | (Raise e, σ') => (Raise e, σ')
       end.
Definition lift {A} (r : result A) : M A := λ σ, (r, σ).

Notation "'let*' x ':=' m 'in' k" := (bind m (λ x, k))
  (at level 10, x name, m at level 100, k at level 200).
Notation "'let*' ( x , y ) ':=' m 'in' k" := (bind m (λ '(x, y), k))
  (at level 10, x name, y name, m at level 100, k at level 200).
Notation "m ';;' k" := (bind m (λ _, k))
  (at level 100, k at level 200, right associativity).

(** A list comprehension whose body may raise. *)
Fixpoint mapM {A B} (f : A → M B) (l : list A) : M (list B) :=
  match l with
  | [] => ret []
  | x :: l' => let* y := f x in let* ys := mapM f l' in ret (y :: ys)
  end.

(** A lookup that raises [e] when there is nothing. *)
Definition from_option {A} (e : exn) (o : option A) : M A :=
  match o with Some a => ret a | None => raise e end.

(** A new object gets an address that no object of its kind has. *)
Definition alloc_array (a : np.ndarray) : M loc := λ σ,
  let l := fresh (dom (arrays σ)) in
  (Ok l, mkStore (<[l:=a]> (arrays σ)) (label_lists σ) (dicts σ) (factors σ)).
Definition alloc_labels (xs : list string) : M loc := λ σ,
  let l := fresh (dom (label_lists σ)) in
  (Ok l, mkStore (arrays σ) (<[l:=xs]> (label_lists σ)) (dicts σ) (factors σ)).
Definition alloc_dict (d : gmap string loc) : M loc := λ σ,
  let l := fresh (dom (dicts σ)) in
  (Ok l, mkStore (arrays σ) (label_lists σ) (<[l:=d]> (dicts σ)) (factors σ)).
Definition alloc_factor (f : Factor) : M loc := λ σ,
  let l := fresh (dom (factors σ)) in
  (Ok l, mkStore (arrays σ) (label_lists σ) (dicts σ) (<[l:=f]> (factors σ))).

(** Following a reference. *)
Definition read_array (l : loc) : M np.ndarray := λ σ,
  from_option Dangling (arrays σ !! l) σ.
Definition read_labels (l : loc) : M (list string) := λ σ,
  from_option Dangling (label_lists σ !! l) σ.
Definition read_dict (l : loc) : M (gmap string loc) := λ σ,
  from_option Dangling (dicts σ !! l) σ.
Definition read_factor (l : loc) : M Factor := λ σ,
  from_option Dangling (factors σ !! l) σ.

(** Assignment to the attributes of an instance. *)
Definition modify_factor (l : loc) (g : Factor → Factor) : M () := λ σ,
  match factors σ !! l with
  | Some f =>
      (Ok (), mkStore (arrays σ) (label_lists σ) (dicts σ) (<[l:=g f]> (factors σ)))
  | None => (Raise Dangling, σ)
  end.

(** [self.variables = vs], [self.cardinality = cs] and [self._values = v]. *)
Definition set_variables (vs : list string) (f : Factor) : Factor :=
  mkFactor vs (cardinality f) (_values f) (state_names f).
Definition set_cardinality (cs : list Z) (f : Factor) : Factor :=
  mkFactor (variables f) cs (_values f) (state_names f).
Definition set_values (v : option loc) (f : Factor) : Factor :=
  mkFactor (variables f) (cardinality f) v (state_names f).

(** ** copy.deepcopy *)

(** [copy.deepcopy] of a list of labels: strings are shared, the list is new;
    the memo gives a list that was copied before its one copy. *)
Definition deepcopy_labels (memo : gmap loc loc) (l : loc) : M (loc * gmap loc loc) :=
  match memo !! l with
  | Some l' => ret (l', memo)
  | None =>
      let* xs := read_labels l in
      let* l' := alloc_labels xs in
      ret (l', <[l:=l']> memo)
  end.

(** The items of a dictionary, copied in turn with one memo. *)
Fixpoint deepcopy_items (items : list (string * loc)) (memo : gmap loc loc)
  : M (list (string * loc)) :=
  match items with
  | [] => ret []
  | (k, l) :: items' =>
      let* (l', memo') := deepcopy_labels memo l in
      let* rest := deepcopy_items items' memo' in
      ret ((k, l') :: rest)
  end.

(** [copy.deepcopy(d)] for a dictionary of label lists.  The items are visited
    in the order of [map_to_list]; the order only decides which new list gets
    which new address. *)
Definition deepcopy_dict (d : loc) : M loc :=
  let* m := read_dict d in
  let* items := deepcopy_items (map_to_list m) ∅ in
  alloc_dict (list_to_map items).

(** [copy.deepcopy] of the attributes [state_names] and [_values], which
    may be [None]; the copy of an array is a new array. *)
Definition deepcopy_state_names (sn : option loc) : M (option loc) :=
  match sn with
  | None => ret None
  | Some d => let* d' := deepcopy_dict d in ret (Some d')
  end.

Definition deepcopy_values (v : option loc) : M (option loc) :=
  match v with
  | None => ret None
  | Some l => let* a := read_array l in let* l' := alloc_array a in ret (Some l')
  end.

(** [copy.deepcopy(self)] for an instance: a new instance whose attributes are
    deep copies, in the order the attributes were set. *)
Definition deepcopy_factor (self : loc) : M loc :=
  let* f := read_factor self in
  let* v := deepcopy_values (_values f) in
  let* sn := deepcopy_state_names (state_names f) in
  alloc_factor (mkFactor (variables f) (cardinality f) v sn).

(** ** class DiscreteFactor *)

(** The [values] argument of [__init__]: a flat Python list, or an array. *)
Inductive values_arg : Type :=
| FromList (l : list Z)
| FromArray (l : loc).

(** [np.array(values)]: always a new array. *)
Definition np_array (v : values_arg) : M np.ndarray :=
  match v with
  | FromList l => ret (np.array l)
  | FromArray l => read_array l
  end.

(** [DiscreteFactor(variables, cardinality, values, state_names)].  The two
    lists are copied; [state_names] is kept by reference. *)
Definition __init__ (variables : list string) (cardinality : list Z)
    (values : option values_arg) (state_names : option loc) : M loc :=
  let* v := match values with
            | None => ret None
            | Some x =>
                let* a := np_array x in
                let* a' := lift (np.reshape a cardinality) in
                let* l := alloc_array a' in
                ret (Some l)
            end in
  alloc_factor (mkFactor variables cardinality v state_names).

(** [self.copy()]: the arguments are evaluated, [copy.deepcopy] among them,
    then the instance is made. *)
Definition copy (self : loc) : M loc :=
  let* f := read_factor self in
  let* sn := deepcopy_state_names (state_names f) in
  __init__ (variables f) (cardinality f) (FromArray <$> _values f) sn.

(** The property [values]. *)
Definition values (self : loc) : M (option loc) :=
  let* f := read_factor self in ret (_values f).

(** [self.values] where the code goes on to use it as an array.  On a factor
    without buffer the operation is taken to raise; what numpy does with
    [None] is not modelled further. *)
Definition values_array (self : loc) : M np.ndarray :=
  let* v := values self in
  let* l := from_option NoneTypeError v in
  read_array l.

(** [self.update_values(new_values)] binds [_values] to a new array. *)
Definition update_values (self : loc) (new_values : list Z) : M () :=
  let* f := read_factor self in
  let* a := lift (np.reshape (np.array new_values) (cardinality f)) in
  let* l := alloc_array a in
  modify_factor self (set_values (Some l)).

(** The loop of [get_value_for_state_vector]. *)
Fixpoint state_coordinates (self : loc) (dict_of_states : gmap string string)
    (vars : list string) : M (list nat) :=
  match vars with
  | [] => ret []
  | var :: vars' =>
      let* var_state := from_option (KeyError var) (dict_of_states !! var) in
      let* f := read_factor self in
      let* d := from_option NoneTypeError (state_names f) in
      let* names := read_dict d in
      let* labels_ref := from_option (KeyError var) (names !! var) in
      let* labels := read_labels labels_ref in
      let* idx_in_var_axis :=
        from_option (NotInList var_state) (index_of var_state labels) in
      let* rest := state_coordinates self dict_of_states vars' in
      ret (idx_in_var_axis :: rest)
  end.

(** [self.get_value_for_state_vector(dict_of_states)], assertions enabled. *)
Definition get_value_for_state_vector (self : loc)
    (dict_of_states : gmap string string) : M np.item :=
  let* f := read_factor self in
  if decide (sorted (elements (dom dict_of_states)) = sorted (variables f))
  then
    let* state_coordinates := state_coordinates self dict_of_states (variables f) in
    let* a := values_array self in
    lift (np.getitem a state_coordinates)
  else raise ScopeAssertion.

(** The dictionary comprehension of [get_cardinality]. *)
Fixpoint cardinality_dict (f : Factor) (vars : list string) : result (gmap string Z) :=
  match vars with
  | [] => Ok ∅
  | var :: vars' =>
      match index_of var (variables f) with
      | None => Raise (NotInList var)
      | Some i =>
          match cardinality f !! i with
          | None => Raise ListIndexError
          | Some c => rbind (cardinality_dict f vars') (λ d, Ok (<[var:=c]> d))
          end
      end
  end.

(** [self.get_cardinality(variables)]. *)
Definition get_cardinality (self : loc) (vars : list string) : M (gmap string Z) :=
  let* f := read_factor self in lift (cardinality_dict f vars).

(** [self.add_new_variables_from_other_factor(other)] in a run with the set
    iteration [order].  The set [extra_vars] is iterated three times and not
    changed in between: the three iterations yield one order. *)
Definition add_new_variables_from_other_factor (order : SetIteration)
    (self other : loc) : M () :=
  let* f := read_factor self in
  let* o := read_factor other in
  let extra_vars := iter_difference order (variables o) (variables f) in
  if decide (length extra_vars = 0) then ret ()
  else
    let* a := values_array self in
    let* a' := lift (np.index_newaxis a (length (variables f)) (length extra_vars)) in
    let* l := alloc_array a' in
    modify_factor self (set_values (Some l));;
    modify_factor self (λ f, set_variables (variables f ++ extra_vars) f);;
    let* new_card_var := get_cardinality other extra_vars in
    let* cards := mapM (λ var, from_option (KeyError var) (new_card_var !! var))
                       extra_vars in
    modify_factor self (λ f, set_cardinality (cardinality f ++ cards) f).

(** The second operand of [product]. *)
Inductive operand : Type :=
| Number (c : Z)          (* an int or a float *)
| Instance (l : loc)      (* a DiscreteFactor *)
| Other.                  (* anything else *)

(** What [product] returns: a bare buffer for a number, a factor otherwise. *)
Inductive product_result : Type :=
| Buffer (l : loc)
| Product (l : loc).

(** [self.product(other)], which [self * other] calls. *)
Definition product (order : SetIteration) (self : loc) (other : operand)
  : M product_result :=
  let* left := copy self in
  match other with
  | Number c =>
      let* a := values_array self in
      let* l := alloc_array (np.scale a c) in
      ret (Buffer l)
  | Other => raise MulAssertion
  | Instance other =>
      let* right := copy other in
      add_new_variables_from_other_factor order left right;;
      add_new_variables_from_other_factor order right left;;
      (* reorder variables in right factor to match order in left *)
      let* right_values := values_array right in
      let source_axes := seq 0 (np.ndim right_values) in
      let* rf := read_factor right in
      let* lf := read_factor left in
      let* destination_axes :=
        mapM (λ var, from_option (NotInList var) (index_of var (variables rf)))
             (variables lf) in
      let* right_variables :=
        mapM (λ idx, from_option ListIndexError (variables rf !! idx))
             destination_axes in
      modify_factor right (set_variables right_variables);;
      (* rearrange values in right factor to correspond to the reordered variables *)
      let* right_values := values_array right in
      let* moved := lift (np.moveaxis right_values source_axes destination_axes) in
      let* l := alloc_array moved in
      modify_factor right (set_values (Some l));;
      let* left_values := values_array left in
      let* right_values := values_array right in
      let* prod := lift (np.multiply left_values right_values) in
      let* l := alloc_array prod in
      modify_factor left (set_values (Some l));;
      ret (Product left)
  end.

(** [self * other]. *)
Definition __mul__ (order : SetIteration) (self : loc) (other : operand)
  : M product_result :=
  product order self other.

(** The loop of [marginalize]. *)
Fixpoint var_indexes (phi self : loc) (vars : list string) : M (list nat) :=
  match vars with
  | [] => ret []
  | var :: vars' =>
      let* p := read_factor phi in
      if decide (var ∈ variables p)
      then
        let* f := read_factor self in
        let* i := from_option (NotInList var) (index_of var (variables f)) in
        let* rest := var_indexes phi self vars' in
        ret (i :: rest)
      else raise (NotInScope var)
  end.

(** [self.marginalize(vars)].  [sorted(set(...) - set(...))] is on integers,
    whose order is that of the integers in every run. *)
Definition marginalize (self : loc) (vars : list string) : M loc :=
  let* phi := deepcopy_factor self in
  let* var_indexes := var_indexes phi self vars in
  let* f := read_factor self in
  let index_to_keep :=
    sorted_nat (elements (list_to_set (seq 0 (length (variables f)))
                          ∖ list_to_set var_indexes : gset nat)) in
  let* vs := mapM (λ index, from_option ListIndexError (variables f !! index))
                  index_to_keep in
  modify_factor phi (set_variables vs);;
  let* cs := mapM (λ index, from_option ListIndexError (cardinality f !! index))
                  index_to_keep in
  modify_factor phi (set_cardinality cs);;
  let* a := values_array phi in
  let* s := lift (np.sum a var_indexes) in
  let* l := alloc_array s in
  modify_factor phi (set_values (Some l));;
  ret phi.


(** * Specifications

    The vocabulary of the statements: what a method does to the store, what
    is read through an instance, and the factors of the scenarios. *)

(** [wp m σ Q E]: from [σ], [m] returns a value and a store in [Q], or raises
    an exception and leaves a store in [E]. *)
Definition wp {A} (m : M A) (σ : store) (Q : A → store → Prop)
    (E : exn → store → Prop) : Prop :=
  match m σ with
  | (Ok a, σ') => Q a σ'
  | (Raise e, σ') => E e σ'
  end.

(** Every object of [σ] is in [σ'] as it was. *)
Definition extends (σ σ' : store) : Prop :=
  arrays σ ⊆ arrays σ' ∧ label_lists σ ⊆ label_lists σ' ∧
  dicts σ ⊆ dicts σ' ∧ factors σ ⊆ factors σ'.

(** [l'] is a list that [σ0] does not have and that holds in [σ] what [l]
    holds in [σ0]. *)
Definition copied_labels (σ0 σ : store) (l l' : loc) : Prop :=
  label_lists σ0 !! l' = None ∧
  ∃ xs, label_lists σ0 !! l = Some xs ∧ label_lists σ !! l' = Some xs.

(** Only label lists were made between [σ] and [σ']. *)
Definition same_but_labels (σ σ' : store) : Prop :=
  arrays σ' = arrays σ ∧ dicts σ' = dicts σ ∧ factors σ' = factors σ.

(** Every label list a dictionary refers to is in the store. *)
Definition dict_closed (σ : store) (m : gmap string loc) : Prop :=
  ∀ k l, m !! k = Some l → is_Some (label_lists σ !! l).

(** [d'] is a new dictionary whose keys are those of [m], each with a new
    list that holds what the list of [m] holds. *)
Definition copied_dict (σ σ' : store) (m : gmap string loc) (d' : loc) : Prop :=
  dicts σ !! d' = None ∧
  ∃ m', dicts σ' !! d' = Some m' ∧
    ∀ k, match m' !! k with
         | Some l' => ∃ l, m !! k = Some l ∧ copied_labels σ σ' l l'
         | None => m !! k = None
         end.

(** The buffer of a factor, and the state labels of a variable, read through
    the store. *)
Definition buffer (σ : store) (f : Factor) : option np.ndarray :=
  l ← _values f; arrays σ !! l.
Definition labels (σ : store) (f : Factor) (var : string) : option (list string) :=
  d ← state_names f; m ← dicts σ !! d; l ← m !! var; label_lists σ !! l.

(** The references of an instance lead to objects of the store. *)
Definition closed (σ : store) (f : Factor) : Prop :=
  (∀ l, _values f = Some l → is_Some (arrays σ !! l)) ∧
  (∀ d, state_names f = Some d → ∃ m, dicts σ !! d = Some m ∧ dict_closed σ m).

(** The product of a list of cardinalities. *)
Definition Zprod (l : list Z) : Z := foldr Z.mul 1%Z l.

(** The copy [v'] of an optional buffer reference [v]. *)
Definition copied_values (σ σ' : store) (c : list Z) (v v' : option loc) : Prop :=
  match v, v' with
  | None, None => True
  | Some l, Some l' =>
      arrays σ !! l' = None ∧
      ∃ a a', arrays σ !! l = Some a ∧ np.reshape a c = Ok a' ∧ arrays σ' !! l' = Some a'
  | _, _ => False
  end.

(** The deep copy [sn'] of an optional dictionary reference [sn]. *)
Definition copied_state_names (σ σ' : store) (sn sn' : option loc) : Prop :=
  match sn, sn' with
  | None, None => True
  | Some d, Some d' => ∃ m, dicts σ !! d = Some m ∧ copied_dict σ σ' m d'
  | _, _ => False
  end.

(** The objects through which the state of an instance can be changed. *)
Definition owns_array (f : Factor) (l : loc) : Prop := _values f = Some l.
Definition owns_dict (f : Factor) (d : loc) : Prop := state_names f = Some d.
Definition owns_labels (σ : store) (f : Factor) (l : loc) : Prop :=
  ∃ d m k, state_names f = Some d ∧ dicts σ !! d = Some m ∧ m !! k = Some l.

(** [σ'] is [σ] after any writes to the instance at [self], to its buffer, to
    its dictionary of labels and to the label lists of that dictionary. *)
Definition mutation_of (σ : store) (self : loc) (f : Factor) (σ' : store) : Prop :=
  (∀ l, l ≠ self → factors σ' !! l = factors σ !! l) ∧
  (∀ l, ¬ owns_array f l → arrays σ' !! l = arrays σ !! l) ∧
  (∀ d, ¬ owns_dict f d → dicts σ' !! d = dicts σ !! d) ∧
  (∀ l, ¬ owns_labels σ f l → label_lists σ' !! l = label_lists σ !! l).

(** The buffer of a populated factor has the shape its cardinalities give. *)
Definition buffer_shaped (σ : store) (f : Factor) : Prop :=
  ∀ a, buffer σ f = Some a → np.wf a ∧ Z.of_nat <$> np.shape a = cardinality f.

(** The label that the assignment gives to [var] is the [i]-th label of
    [var]. *)
Definition resolves (σ : store) (f : Factor) (dict_of_states : gmap string string)
    (var : string) (i : nat) : Prop :=
  ∃ s ls, dict_of_states !! var = Some s ∧ labels σ f var = Some ls ∧
          index_of s ls = Some i.

(** The assignment gives [var] a label that [var] does not have. *)
Definition unknown_state (σ : store) (f : Factor) (dict_of_states : gmap string string)
    (var s : string) : Prop :=
  ∃ ls, dict_of_states !! var = Some s ∧ labels σ f var = Some ls ∧ s ∉ ls.

(** [b] holds the flat sequence [vals] in the shape of the cardinalities
    [card], the right-most variable varying fastest. *)
Definition holds_flat (card : list Z) (vals : list Z) (b : np.ndarray) : Prop :=
  np.ndim b = length card ∧
  Z.of_nat <$> np.shape b = card ∧
  ∀ idx, np.in_range (np.shape b) idx →
         np.getitem b idx = Ok (np.Scalar (nth (np.ravel (np.shape b) idx) vals 0%Z)).

(** The deep copy [v'] of an optional buffer reference [v]. *)
Definition duplicated_values (σ σ' : store) (v v' : option loc) : Prop :=
  match v, v' with
  | None, None => True
  | Some l, Some l' =>
      arrays σ !! l' = None ∧ ∃ a, arrays σ !! l = Some a ∧ arrays σ' !! l' = Some a
  | _, _ => False
  end.

(** What [marginalize] computes from the instance [f], its buffer [a] and the
    positions [idxs] of the variables to sum out. *)
Definition marginalized (σ σ' : store) (f : Factor) (idxs : list nat) (p : Factor) : Prop :=
  ∃ a s, buffer σ f = Some a ∧ np.sum a idxs = Ok s ∧ buffer σ' p = Some s ∧
    Forall2 (λ i x, variables f !! i = Some x)
            (np.kept_axes (length (variables f)) idxs) (variables p) ∧
    Forall2 (λ i x, cardinality f !! i = Some x)
            (np.kept_axes (length (variables f)) idxs) (cardinality p) ∧
    copied_state_names σ σ' (state_names f) (state_names p).

(** Why [marginalize] raises once every variable of [vars] is in scope. *)
Definition marginalize_fails (σ : store) (f : Factor) (idxs : list nat) (e : exn) : Prop :=
  (e = ListIndexError ∧ length (cardinality f) < length (variables f)) ∨
  (e = NoneTypeError ∧ buffer σ f = None) ∨
  (∃ a, buffer σ f = Some a ∧ np.sum a idxs = Raise e).

(** An assignment gives every variable the index of a state.  [value_at] is
    the entry of a buffer whose axes are the variables [vars]. *)
Definition value_at (vars : list string) (a : np.ndarray) (x : string → nat) : Z :=
  np.get a (x <$> vars).

(** The extent of the axis of [v]. *)
Definition extent_of (vars : list string) (a : np.ndarray) (v : string) : nat :=
  default 0 (i ← index_of v vars; np.shape a !! i).

(** The assignment [x] with the variables [vars] set to the states [r]. *)
Definition reassign (x : string → nat) (vars : list string) (r : list nat)
    (v : string) : nat :=
  match index_of v vars with
  | Some j => default 0 (r !! j)
  | None => x v
  end.

(** The cardinality that the instance [o] reports for [v]. *)
Definition reported (o : Factor) (v : string) (c : Z) : Prop :=
  ∃ i, index_of v (variables o) = Some i ∧ cardinality o !! i = Some c.

(** The buffer with [k] axes of extent 1 after its first [n] axes. *)
Definition with_new_axes (a : np.ndarray) (n k : nat) : np.ndarray :=
  np.mk (take n (np.shape a) ++ replicate k 1 ++ drop n (np.shape a)) (np.data a).

(** The variables of the two operands of [product] after each was extended
    with the variables of the other. *)
Definition left_scope (order : SetIteration) (A B : list string) : list string :=
  A ++ iter_difference order B A.
Definition right_scope (order : SetIteration) (A B : list string) : list string :=
  B ++ iter_difference order (left_scope order A B) B.

(** A populated factor that satisfies the invariants of the data model. *)
Definition well_formed (σ : store) (f : Factor) : Prop :=
  closed σ f ∧ NoDup (variables f) ∧ length (variables f) = length (cardinality f) ∧
  ∃ a, buffer σ f = Some a ∧ np.wf a ∧ Z.of_nat <$> np.shape a = cardinality f.

(** The invariants of the data model, for the instance [f] in [σ]. *)
Definition invariant (σ : store) (f : Factor) : Prop :=
  NoDup (variables f) ∧
  length (variables f) = length (cardinality f) ∧
  ∀ a, buffer σ f = Some a →
       np.ndim a = length (variables f) ∧ Z.of_nat <$> np.shape a = cardinality f.

(** The buffers that reach the multiplication of [product], for operands
    over the variables [A] and [B]: the buffer of the left copy with its new
    axes, and the buffer of the right copy with its new axes, after
    [np.moveaxis] with the destinations [dest]. *)
Definition left_buffer (order : SetIteration) (A B : list string)
    (a : np.ndarray) : np.ndarray :=
  with_new_axes a (length A) (length (iter_difference order B A)).
Definition right_buffer (order : SetIteration) (A B : list string)
    (b : np.ndarray) (dest : list nat) : np.ndarray :=
  let n := length (right_scope order A B) in
  np.transpose
    (with_new_axes b (length B) (length (iter_difference order (left_scope order A B) B)))
    (np.moveaxis_order n (seq 0 n) dest).

(** The extent that two extents broadcast to when they agree. *)
Definition broadcast_extent (n1 n2 : nat) : nat := if decide (n1 = 1) then n2 else n1.

(** The extent of the axis of [v] in a buffer over [vars] that was given
    axes of extent 1 for the variables it lacks. *)
Definition axis_extent (vars : list string) (a : np.ndarray) (v : string) : nat :=
  if decide (v ∈ vars) then extent_of vars a v else 1.

(** Whenever a variable at position [i] of [L] is at position [j] of [R], the
    variable at position [j] of [L] is at position [i] of [R]. *)
Definition mirrored (L R : list string) : Prop :=
  ∀ i j v, L !! i = Some v → R !! j = Some v → L !! j = R !! i.

(** The operands report one cardinality for every variable they share. *)
Definition agree (fA fB : Factor) : Prop :=
  ∀ v cA cB, reported fA v cA → reported fB v cB → cA = cB.

(** ** Runs

    Two set iterations, for statements about particular runs. *)

Local Open Scope string_scope.

Lemma insertion_order_NoDup (a b : list string) :
  NoDup (list_difference (remove_dups a) b).
Proof. apply NoDup_list_difference, NoDup_remove_dups. Qed.

Lemma insertion_order_elem (a b : list string) x :
  x ∈ list_difference (remove_dups a) b ↔ x ∈ a ∧ x ∉ b.
Proof. by rewrite list_elem_of_difference, elem_of_remove_dups. Qed.

Lemma reverse_order_NoDup (a b : list string) :
  NoDup (reverse (list_difference (remove_dups a) b)).
Proof. rewrite reverse_Permutation. apply insertion_order_NoDup. Qed.

Lemma reverse_order_elem (a b : list string) x :
  x ∈ reverse (list_difference (remove_dups a) b) ↔ x ∈ a ∧ x ∉ b.
Proof. rewrite elem_of_reverse. apply insertion_order_elem. Qed.

(** Two iteration orders a set difference can have: the order in which the
    elements come in the first list, and the reverse of it. *)
Definition insertion_order : SetIteration :=
  mkSetIteration (λ a b, list_difference (remove_dups a) b)
                 insertion_order_NoDup insertion_order_elem.

(** The reverse of the insertion order. *)
Definition reverse_order : SetIteration :=
  mkSetIteration (λ a b, reverse (list_difference (remove_dups a) b))
                 reverse_order_NoDup reverse_order_elem.

(** The factors of the scenarios. *)
Definition scenario_F : M loc :=
  __init__ ["A"; "B"] [2; 2]%Z (Some (FromList [1; 2; 3; 4]%Z)) None.
Definition scenario_C : M loc :=
  __init__ ["C"] [2]%Z (Some (FromList [10; 20]%Z)) None.

(** The instance at [l] and its buffer. *)
Definition inspect (l : loc) : M (Factor * np.ndarray) :=
  let* f := read_factor l in let* a := values_array l in ret (f, a).

(** The product of two factors that are made first: its variables,
    cardinalities and buffer. *)
Definition product_of (order : SetIteration) (A B : M loc)
  : M (list string * list Z * np.ndarray) :=
  let* a := A in
  let* b := B in
  let* r := product order a (Instance b) in
  match r with
  | Product l => let* (f, v) := inspect l in ret (variables f, cardinality f, v)
  | Buffer _ => raise Dangling
  end.

(** A factor over [x], [y] and a factor over [y], [z], [x]. *)
Definition factor_xy : M loc :=
  __init__ ["x"; "y"] [2; 2]%Z (Some (FromList [1; 2; 3; 4]%Z)) None.
Definition factor_yzx : M loc :=
  __init__ ["y"; "z"; "x"] [2; 2; 2]%Z (Some (FromList [1; 2; 3; 4; 5; 6; 7; 8]%Z)) None.

(** The same two scopes with the cardinalities 2, 3, 2 of [x], [y], [z]. *)
Definition factor_xy_23 : M loc :=
  __init__ ["x"; "y"] [2; 3]%Z (Some (FromList [1; 2; 3; 4; 5; 6]%Z)) None.
Definition factor_yzx_322 : M loc :=
  __init__ ["y"; "z"; "x"] [3; 2; 2]%Z
           (Some (FromList [1; 2; 3; 4; 5; 6; 7; 8; 9; 10; 11; 12]%Z)) None.

(** The state labels of the first scenario: [A: ['a0', 'a1']] and
    [B: ['b0', 'b1']]. *)
Definition scenario_labels : M loc :=
  let* a := alloc_labels ["a0"; "a1"] in
  let* b := alloc_labels ["b0"; "b1"] in
  alloc_dict (<["A":=a]> (<["B":=b]> ∅)).

(** The factor of the first scenario with these labels. *)
Definition scenario_1 : M loc :=
  let* d := scenario_labels in
  __init__ ["A"; "B"] [2; 2]%Z (Some (FromList [1; 2; 3; 4]%Z)) (Some d).

(** The store after the factor was made, the address of the factor, the
    instance and its buffer. *)
Definition store_1 : store := (scenario_1 empty_store).2.
Definition F_1 : loc := 1%positive.
Definition instance_1 : Factor :=
  mkFactor ["A"; "B"] [2; 2]%Z (Some 1%positive) (Some 1%positive).
Definition buffer_1 : np.ndarray := np.mk [2; 2] [1; 2; 3; 4]%Z.

(** The scope of [C] after it was extended with the variables of a factor
    over [A], [B] and [C]. *)
Definition extended_scope (order : SetIteration) : result (list string) :=
  ((let* self := scenario_C in
    let* other := __init__ ["A"; "B"; "C"] [2; 2; 2]%Z None None in
    add_new_variables_from_other_factor order self other;;
    let* f := read_factor self in
    ret (variables f)) empty_store).1.

(** A factor over [y], [x], and the store with the factors over [x], [y],
    over [y], [z], [x] and over [y], [x], at the addresses 1, 2 and 3. *)
Definition factor_yx : M loc :=
  __init__ ["y"; "x"] [2; 2]%Z (Some (FromList [10; 20; 30; 40]%Z)) None.
Definition store_3 : store := ((factor_xy;; factor_yzx;; factor_yx) empty_store).2.
Definition instance_xy : Factor :=
  mkFactor ["x"; "y"] [2; 2]%Z (Some 1%positive) None.
Definition instance_yzx : Factor :=
  mkFactor ["y"; "z"; "x"] [2; 2; 2]%Z (Some 2%positive) None.
Definition instance_yx : Factor :=
  mkFactor ["y"; "x"] [2; 2]%Z (Some 3%positive) None.
Definition buffer_xy : np.ndarray := np.mk [2; 2] [1; 2; 3; 4]%Z.
Definition buffer_yx : np.ndarray := np.mk [2; 2] [10; 20; 30; 40]%Z.

Local Close Scope string_scope.


(** * Lemmas *)

(** ** Index tuples and offsets *)

Lemma size_of_app s1 s2 : np.size_of (s1 ++ s2) = np.size_of s1 * np.size_of s2.
Proof. induction s1 as [|n s1 IH]; simpl; [lia|]. rewrite IH. lia. Qed.

Lemma in_range_length s idx : np.in_range s idx → length idx = length s.
Proof. apply Forall2_length. Qed.

Lemma ravel_lt s idx : np.in_range s idx → np.ravel s idx < np.size_of s.
Proof.
  unfold np.in_range. intros H. induction H as [|i n idx s Hi _ IH]; simpl; [lia|].
  nia.
Qed.

Lemma rows_length (L : list (list nat)) b n :
  length (seq b n ≫= λ i, (i ::.) <$> L) = n * length L.
Proof.
  revert b. induction n as [|n IH]; intros b; [done|].
  simpl seq. rewrite bind_cons, length_app, length_fmap, IH. lia.
Qed.

Lemma rows_lookup (L : list (list nat)) b n i j x :
  i < n → L !! j = Some x →
  (seq b n ≫= λ i, (i ::.) <$> L) !! (i * length L + j) = Some ((b + i) :: x).
Proof.
  revert b i. induction n as [|n IH]; intros b i Hi Hx; [lia|].
  simpl seq. rewrite bind_cons.
  assert (j < length L) by (by eapply lookup_lt_Some).
  destruct i as [|i].
  - rewrite lookup_app_l by (rewrite length_fmap; lia).
    simpl. rewrite list_lookup_fmap, Hx. simpl. by rewrite Nat.add_0_r.
  - rewrite lookup_app_r by (rewrite length_fmap; lia).
    rewrite length_fmap.
    replace (S i * length L + j - length L) with (i * length L + j) by lia.
    rewrite IH by (done || lia). f_equal. f_equal. lia.
Qed.

Lemma length_indices s : length (np.indices s) = np.size_of s.
Proof.
  induction s as [|n s IH]; [done|].
  simpl. change (length (seq 0 n ≫= λ i, (i ::.) <$> np.indices s) = n * np.size_of s).
  by rewrite rows_length, IH.
Qed.

Lemma lookup_indices s idx :
  np.in_range s idx → np.indices s !! np.ravel s idx = Some idx.
Proof.
  unfold np.in_range. intros H. induction H as [|i n idx s Hi Hr IH]; [done|].
  simpl. rewrite <-length_indices.
  change (i :: idx) with ((0 + i) :: idx). by apply rows_lookup.
Qed.

Lemma elem_of_indices s idx : idx ∈ np.indices s ↔ np.in_range s idx.
Proof.
  unfold np.in_range. revert idx. induction s as [|n s IH]; intros idx; simpl.
  - rewrite list_elem_of_singleton. split; [intros ->; constructor|by inversion 1].
  - change (idx ∈ (seq 0 n ≫= λ i, (i ::.) <$> np.indices s) ↔ Forall2 (λ i n, i < n) idx (n :: s)).
    rewrite list_elem_of_bind. split.
    + intros (i & Hin & Hi). apply list_elem_of_fmap in Hin as (x & -> & Hx).
      apply elem_of_seq in Hi. constructor; [lia|by apply IH].
    + inversion 1 as [|i ? x ? Hi Hx]; subst. exists i. split.
      * apply list_elem_of_fmap. exists x. split; [done|by apply IH].
      * apply elem_of_seq. lia.
Qed.

Lemma get_tabulate s f idx :
  np.in_range s idx → np.get (np.tabulate s f) idx = f idx.
Proof.
  intros H. unfold np.get, np.tabulate. simpl.
  apply nth_lookup_Some with (d := 0%Z).
  by rewrite list_lookup_fmap, lookup_indices.
Qed.

Lemma wf_tabulate s f : np.wf (np.tabulate s f).
Proof. unfold np.wf, np.tabulate. simpl. by rewrite length_fmap, length_indices. Qed.

(** Indexing every axis reads the entry at the C-order offset. *)
Lemma getitem_aux_in_range s d idx :
  np.in_range s idx →
  ∃ d', np.getitem_aux s d idx = Ok ([], d') ∧ nth 0 d' 0%Z = nth (np.ravel s idx) d 0%Z.
Proof.
  unfold np.in_range. intros H. revert d.
  induction H as [|i n idx s Hi Hr IH]; intros d; simpl.
  - by exists d.
  - rewrite decide_True by done.
    destruct (IH (take (np.size_of s) (drop (i * np.size_of s) d))) as (d' & -> & Hd').
    exists d'. split; [done|]. rewrite Hd'.
    pose proof (ravel_lt s idx Hr).
    rewrite !nth_lookup, lookup_take_lt, lookup_drop by done. done.
Qed.

Lemma getitem_in_range a idx :
  np.in_range (np.shape a) idx → np.getitem a idx = Ok (np.Scalar (np.get a idx)).
Proof.
  intros H. unfold np.getitem, np.get.
  destruct (getitem_aux_in_range _ (np.data a) _ H) as (d' & -> & Hd').
  simpl. by rewrite Hd'.
Qed.

(** ** Running a method: weakest preconditions *)

Lemma wp_bind {A B} (m : M A) (k : A → M B) σ Q E :
  wp m σ (λ a σ', wp (k a) σ' Q E) E → wp (bind m k) σ Q E.
Proof. unfold wp, bind. by destruct (m σ) as [[a|e] σ']. Qed.

Lemma wp_mono {A} (m : M A) σ (Q Q' : A → store → Prop) (E E' : exn → store → Prop) :
  wp m σ Q' E' → (∀ a σ', Q' a σ' → Q a σ') → (∀ e σ', E' e σ' → E e σ') →
  wp m σ Q E.
Proof. unfold wp. destruct (m σ) as [[a|e] σ']; eauto. Qed.

Lemma wp_ret {A} (a : A) σ (Q : A → store → Prop) E : Q a σ → wp (ret a) σ Q E.
Proof. done. Qed.

Lemma wp_raise {A} e σ (Q : A → store → Prop) (E : exn → store → Prop) :
  E e σ → wp (raise e) σ Q E.
Proof. done. Qed.

Lemma wp_lift {A} (r : result A) σ (Q : A → store → Prop) (E : exn → store → Prop) :
  match r with Ok a => Q a σ | Raise e => E e σ end → wp (lift r) σ Q E.
Proof. unfold wp, lift. by destruct r. Qed.

Lemma wp_from_option {A} e (o : option A) σ (Q : A → store → Prop)
    (E : exn → store → Prop) :
  match o with Some a => Q a σ | None => E e σ end → wp (from_option e o) σ Q E.
Proof. unfold wp. by destruct o. Qed.

Lemma wp_run {A} (m : M A) σ (Q : A → store → Prop) (E : exn → store → Prop) :
  wp m σ Q E →
  (∃ a σ', m σ = (Ok a, σ') ∧ Q a σ') ∨ (∃ e σ', m σ = (Raise e, σ') ∧ E e σ').
Proof. unfold wp. destruct (m σ) as [[a|e] σ']; eauto. Qed.

Lemma wp_total {A} (m : M A) σ (Q : A → store → Prop) :
  wp m σ Q (λ _ _, False) → ∃ a σ', m σ = (Ok a, σ') ∧ Q a σ'.
Proof. intros H. destruct (wp_run _ _ _ _ H) as [?|(? & ? & _ & [])]. done. Qed.

(** *** The store *)

Global Instance extends_refl : Reflexive extends.
Proof. by intros σ. Qed.
Global Instance extends_trans : Transitive extends.
Proof.
  intros σ1 σ2 σ3 (?&?&?&?) (?&?&?&?).
  repeat split; by etrans.
Qed.

Lemma fresh_lookup {V} (m : gmap loc V) : m !! fresh (dom m) = None.
Proof. apply not_elem_of_dom, is_fresh. Qed.

Lemma wp_alloc_array a σ (Q : loc → store → Prop) E :
  (∀ l, arrays σ !! l = None →
        Q l (mkStore (<[l:=a]> (arrays σ)) (label_lists σ) (dicts σ) (factors σ))) →
  wp (alloc_array a) σ Q E.
Proof. intros H. apply H, fresh_lookup. Qed.

Lemma wp_alloc_labels xs σ (Q : loc → store → Prop) E :
  (∀ l, label_lists σ !! l = None →
        Q l (mkStore (arrays σ) (<[l:=xs]> (label_lists σ)) (dicts σ) (factors σ))) →
  wp (alloc_labels xs) σ Q E.
Proof. intros H. apply H, fresh_lookup. Qed.

Lemma wp_alloc_dict d σ (Q : loc → store → Prop) E :
  (∀ l, dicts σ !! l = None →
        Q l (mkStore (arrays σ) (label_lists σ) (<[l:=d]> (dicts σ)) (factors σ))) →
  wp (alloc_dict d) σ Q E.
Proof. intros H. apply H, fresh_lookup. Qed.

Lemma wp_alloc_factor f σ (Q : loc → store → Prop) E :
  (∀ l, factors σ !! l = None →
        Q l (mkStore (arrays σ) (label_lists σ) (dicts σ) (<[l:=f]> (factors σ)))) →
  wp (alloc_factor f) σ Q E.
Proof. intros H. apply H, fresh_lookup. Qed.

Lemma wp_read_array l σ a (Q : np.ndarray → store → Prop) E :
  arrays σ !! l = Some a → Q a σ → wp (read_array l) σ Q E.
Proof. unfold wp, read_array. by intros ->. Qed.

Lemma wp_read_labels l σ xs (Q : list string → store → Prop) E :
  label_lists σ !! l = Some xs → Q xs σ → wp (read_labels l) σ Q E.
Proof. unfold wp, read_labels. by intros ->. Qed.

Lemma wp_read_dict l σ d (Q : gmap string loc → store → Prop) E :
  dicts σ !! l = Some d → Q d σ → wp (read_dict l) σ Q E.
Proof. unfold wp, read_dict. by intros ->. Qed.

Lemma wp_read_factor l σ f (Q : Factor → store → Prop) E :
  factors σ !! l = Some f → Q f σ → wp (read_factor l) σ Q E.
Proof. unfold wp, read_factor. by intros ->. Qed.

Lemma wp_modify_factor l g σ f (Q : () → store → Prop) E :
  factors σ !! l = Some f →
  Q () (mkStore (arrays σ) (label_lists σ) (dicts σ) (<[l:=g f]> (factors σ))) →
  wp (modify_factor l g) σ Q E.
Proof. unfold wp, modify_factor. by intros ->. Qed.

Lemma extends_alloc_array σ l a :
  arrays σ !! l = None →
  extends σ (mkStore (<[l:=a]> (arrays σ)) (label_lists σ) (dicts σ) (factors σ)).
Proof. intros. repeat split; simpl; try done. by apply insert_subseteq. Qed.
Lemma extends_alloc_labels σ l xs :
  label_lists σ !! l = None →
  extends σ (mkStore (arrays σ) (<[l:=xs]> (label_lists σ)) (dicts σ) (factors σ)).
Proof. intros. repeat split; simpl; try done. by apply insert_subseteq. Qed.
Lemma extends_alloc_dict σ l d :
  dicts σ !! l = None →
  extends σ (mkStore (arrays σ) (label_lists σ) (<[l:=d]> (dicts σ)) (factors σ)).
Proof. intros. repeat split; simpl; try done. by apply insert_subseteq. Qed.
Lemma extends_alloc_factor σ l f :
  factors σ !! l = None →
  extends σ (mkStore (arrays σ) (label_lists σ) (dicts σ) (<[l:=f]> (factors σ))).
Proof. intros. repeat split; simpl; try done. by apply insert_subseteq. Qed.

(** Assigning to an attribute of an instance that [σ0] does not have keeps
    every object of [σ0]. *)
Lemma extends_modify σ0 σ l f :
  factors σ0 !! l = None → extends σ0 σ →
  extends σ0 (mkStore (arrays σ) (label_lists σ) (dicts σ) (<[l:=f]> (factors σ))).
Proof.
  intros Hl (?&?&?&?). repeat split; simpl; try done.
  by apply insert_subseteq_r.
Qed.

Lemma extends_arrays σ σ' l a : extends σ σ' → arrays σ !! l = Some a → arrays σ' !! l = Some a.
Proof. intros (H&_) ?. by eapply lookup_weaken. Qed.
Lemma extends_labels σ σ' l a :
  extends σ σ' → label_lists σ !! l = Some a → label_lists σ' !! l = Some a.
Proof. intros (_&H&_) ?. by eapply lookup_weaken. Qed.
Lemma extends_dicts σ σ' l a : extends σ σ' → dicts σ !! l = Some a → dicts σ' !! l = Some a.
Proof. intros (_&_&H&_) ?. by eapply lookup_weaken. Qed.
Lemma extends_factors σ σ' l a : extends σ σ' → factors σ !! l = Some a → factors σ' !! l = Some a.
Proof. intros (_&_&_&H) ?. by eapply lookup_weaken. Qed.

(** *** copy.deepcopy *)

Lemma copied_labels_extends σ0 σ σ' l l' :
  extends σ σ' → copied_labels σ0 σ l l' → copied_labels σ0 σ' l l'.
Proof.
  intros Hext (Hf & xs & H0 & H1). split; [done|]. exists xs. split; [done|].
  by eapply extends_labels.
Qed.

Lemma same_but_labels_trans σ1 σ2 σ3 :
  same_but_labels σ1 σ2 → same_but_labels σ2 σ3 → same_but_labels σ1 σ3.
Proof. intros (?&?&?) (?&?&?). repeat split; congruence. Qed.

Lemma wp_deepcopy_labels σ0 memo l σ xs (Q : loc * gmap loc loc → store → Prop) E :
  extends σ0 σ → label_lists σ0 !! l = Some xs →
  (∀ l l', memo !! l = Some l' → copied_labels σ0 σ l l') →
  (∀ l' memo' σ1, extends σ σ1 → same_but_labels σ σ1 →
     copied_labels σ0 σ1 l l' →
     (∀ l l', memo' !! l = Some l' → copied_labels σ0 σ1 l l') →
     Q (l', memo') σ1) →
  wp (deepcopy_labels memo l) σ Q E.
Proof.
  intros Hext Hxs Hmemo HQ. unfold deepcopy_labels.
  destruct (memo !! l) as [l'|] eqn:Hm.
  - apply wp_ret. apply HQ; [done|done|by apply Hmemo|done].
  - apply wp_bind. eapply wp_read_labels; [by eapply extends_labels|].
    apply wp_bind. apply wp_alloc_labels. intros l' Hl'. apply wp_ret.
    assert (label_lists σ0 !! l' = None) as Hl0.
    { destruct (label_lists σ0 !! l') eqn:E'; [|done].
      eapply extends_labels in E'; [|done]. congruence. }
    assert (extends σ (mkStore (arrays σ) (<[l':=xs]> (label_lists σ)) (dicts σ) (factors σ)))
      as Hext1 by (by apply extends_alloc_labels).
    apply HQ; [done|done| |].
    + split; [done|]. exists xs. split; [done|]. simpl. by rewrite lookup_insert_eq.
    + intros l2 l2' [[-> ->]|[Hne H2]]%lookup_insert_Some.
      * split; [done|]. exists xs. split; [done|]. simpl. by rewrite lookup_insert_eq.
      * eapply copied_labels_extends; [done|]. by apply Hmemo.
Qed.

Lemma wp_deepcopy_items σ0 items : ∀ memo σ,
  extends σ0 σ →
  Forall (λ p, is_Some (label_lists σ0 !! p.2)) items →
  (∀ l l', memo !! l = Some l' → copied_labels σ0 σ l l') →
  wp (deepcopy_items items memo) σ
     (λ items' σ', extends σ σ' ∧ same_but_labels σ σ' ∧
        Forall2 (λ p p', p.1 = p'.1 ∧ copied_labels σ0 σ' p.2 p'.2) items items')
     (λ _ _, False).
Proof.
  induction items as [|[k l] items IH]; intros memo σ Hext Hitems Hmemo.
  { simpl. apply wp_ret. split; [done|]. split; [done|]. constructor. }
  apply Forall_cons in Hitems as [[xs Hxs] Hitems]. simpl in Hxs.
  simpl. apply wp_bind.
  eapply wp_deepcopy_labels; [done..|].
  intros l' memo' σ1 Hext1 Hsame1 Hl' Hmemo'.
  apply wp_bind. eapply wp_mono.
  - apply (IH memo' σ1); [by etrans|done|done].
  - intros items' σ' (Hext' & Hsame' & HF). apply wp_ret.
    split; [by etrans|]. split; [by eapply same_but_labels_trans|].
    constructor; [|done]. simpl. split; [done|].
    by eapply copied_labels_extends.
  - done.
Qed.

Lemma wp_deepcopy_dict σ d m (Q : loc → store → Prop) E :
  dicts σ !! d = Some m → dict_closed σ m →
  (∀ d' σ', extends σ σ' → arrays σ' = arrays σ → factors σ' = factors σ →
            copied_dict σ σ' m d' → Q d' σ') →
  wp (deepcopy_dict d) σ Q E.
Proof.
  intros Hd Hm HQ. unfold deepcopy_dict.
  apply wp_bind. eapply wp_read_dict; [done|].
  apply wp_bind. eapply wp_mono.
  - apply (wp_deepcopy_items σ (map_to_list m) ∅ σ); [done| |by intros ?? ?%lookup_empty_Some].
    apply Forall_forall. intros [k l] Hin%elem_of_map_to_list. by eapply Hm.
  - intros items' σ1 (Hext & (Ha & Hds & Hf) & HF). simpl.
    apply wp_alloc_dict. intros d' Hd'.
    assert (items'.*1 = (map_to_list m).*1) as Hkeys.
    { clear -HF. induction HF as [|p p' ? ? [Hp _] _ IH]; [done|]. rewrite !fmap_cons. by rewrite Hp, IH. }
    assert (NoDup items'.*1) as Hnd.
    { rewrite Hkeys. apply NoDup_fst_map_to_list. }
    apply HQ.
    + etrans; [done|]. by apply extends_alloc_dict.
    + done.
    + done.
    + split; [congruence|]. exists (list_to_map items'). simpl.
      split; [by rewrite lookup_insert_eq|].
      intros k. destruct (list_to_map items' !! k) as [l'|] eqn:Hk.
      * apply elem_of_list_to_map in Hk; [|done].
        apply list_elem_of_lookup in Hk as [i Hi].
        destruct (Forall2_lookup_r _ _ _ _ _ HF Hi) as ([k0 l] & Hi0 & Hk0 & Hc).
        simpl in *. subst k0. exists l. split.
        -- apply elem_of_map_to_list. apply list_elem_of_lookup. eauto.
        -- destruct Hc as (? & xs & ? & ?). split; [done|]. exists xs. done.
      * apply not_elem_of_list_to_map in Hk. rewrite Hkeys in Hk.
        destruct (m !! k) as [l|] eqn:Hl; [|done]. destruct Hk.
        apply list_elem_of_fmap. exists (k, l). split; [done|].
        by apply elem_of_map_to_list.
  - done.
Qed.

(** ** reshape *)

Lemma filter_Forall_id {A} (P : A → Prop) `{∀ x, Decision (P x)} (l : list A) :
  Forall P l → filter P l = l.
Proof.
  induction 1 as [|x l Hx _ IH]; [done|]. by rewrite filter_cons_True, IH.
Qed.

Lemma reshape_nonneg a s :
  Forall (λ d, 0 ≤ d)%Z s →
  np.reshape a s =
    if decide (Z.of_nat (length (np.data a)) = Zprod s)
    then Ok (np.mk (Z.to_nat <$> s) (np.data a)) else Raise ReshapeError.
Proof.
  intros Hs. unfold np.reshape. rewrite (filter_Forall_id _ _ Hs).
  by rewrite Nat.sub_diag.
Qed.

Lemma Zprod_of_nat (s : list nat) : Zprod (Z.of_nat <$> s) = Z.of_nat (np.size_of s).
Proof.
  unfold Zprod. induction s as [|n s IH]; [done|].
  rewrite fmap_cons. cbn [foldr np.size_of]. rewrite IH. unfold np.size_of. lia.
Qed.

Lemma to_nat_of_nat (s : list nat) : Z.to_nat <$> (Z.of_nat <$> s) = s.
Proof.
  induction s as [|n s IH]; [done|]. rewrite !fmap_cons, IH. f_equal. lia.
Qed.

Lemma of_nat_to_nat (s : list Z) : Forall (λ d, 0 ≤ d)%Z s → Z.of_nat <$> (Z.to_nat <$> s) = s.
Proof.
  induction 1 as [|d s Hd _ IH]; [done|]. rewrite !fmap_cons, IH. f_equal. lia.
Qed.

Lemma Forall_of_nat_nonneg (s : list nat) : Forall (λ d, 0 ≤ d)%Z (Z.of_nat <$> s).
Proof. apply Forall_fmap, Forall_true. intros ?. simpl. lia. Qed.

(** An array that has the shape of the cardinalities is reshaped to itself. *)
Lemma reshape_same a (c : list Z) :
  np.wf a → Z.of_nat <$> np.shape a = c → np.reshape a c = Ok a.
Proof.
  intros Hwf <-. rewrite reshape_nonneg by apply Forall_of_nat_nonneg.
  rewrite Zprod_of_nat, to_nat_of_nat, Hwf, decide_True by done. by destruct a.
Qed.

(** ** copy *)

Lemma copied_dict_extends σ σ1 σ2 m d :
  extends σ1 σ2 → copied_dict σ σ1 m d → copied_dict σ σ2 m d.
Proof.
  intros Hext (Hd & m' & Hm' & Hk). split; [done|].
  exists m'. split; [by eapply extends_dicts|].
  intros k. specialize (Hk k). destruct (m' !! k) as [l'|]; [|done].
  destruct Hk as (l & ? & ?). exists l. split; [done|].
  by eapply copied_labels_extends.
Qed.

Lemma copied_state_names_extends σ σ1 σ2 sn sn' :
  extends σ1 σ2 → copied_state_names σ σ1 sn sn' → copied_state_names σ σ2 sn sn'.
Proof.
  intros Hext. destruct sn, sn'; simpl; try done.
  intros (m & ? & ?). exists m. split; [done|]. by eapply copied_dict_extends.
Qed.

Lemma wp_deepcopy_state_names σ sn (Q : option loc → store → Prop) E :
  (∀ d, sn = Some d → ∃ m, dicts σ !! d = Some m ∧ dict_closed σ m) →
  (∀ sn' σ', extends σ σ' → arrays σ' = arrays σ → factors σ' = factors σ →
             copied_state_names σ σ' sn sn' → Q sn' σ') →
  wp (deepcopy_state_names sn) σ Q E.
Proof.
  intros Hc HQ. destruct sn as [d|]; simpl.
  - destruct (Hc d eq_refl) as (m & Hm & Hcl).
    apply wp_bind. eapply wp_deepcopy_dict; [done..|].
    intros d' σ' ????. apply wp_ret. apply HQ; try done. simpl. eauto.
  - apply wp_ret. by apply HQ.
Qed.

Lemma wp___init__ vars card vals sn σ (Q : loc → store → Prop) (E : exn → store → Prop) :
  (∀ l, vals = Some (FromArray l) → is_Some (arrays σ !! l)) →
  (∀ a, match vals with
        | None => False
        | Some (FromList l) => a = np.array l
        | Some (FromArray l) => arrays σ !! l = Some a
        end → np.reshape a card = Raise ReshapeError → E ReshapeError σ) →
  (∀ c σ' v', extends σ σ' → label_lists σ' = label_lists σ → dicts σ' = dicts σ →
     factors σ !! c = None →
     factors σ' = <[c:=mkFactor vars card v' sn]> (factors σ) →
     match vals, v' with
     | None, None => arrays σ' = arrays σ
     | Some x, Some l' =>
         arrays σ !! l' = None ∧
         ∃ a a', match x with FromList l => a = np.array l
                            | FromArray l => arrays σ !! l = Some a end ∧
                 np.reshape a card = Ok a' ∧ arrays σ' = <[l':=a']> (arrays σ)
     | _, _ => False
     end →
     Q c σ') →
  wp (__init__ vars card vals sn) σ Q E.
Proof.
  intros Hcl HE HQ. unfold __init__. apply wp_bind.
  destruct vals as [x|].
  - apply wp_bind.
    assert (∃ a, wp (np_array x) σ (λ r σ', r = a ∧ σ' = σ) (λ _ _, False) ∧
                 match x with FromList l => a = np.array l
                            | FromArray l => arrays σ !! l = Some a end) as (a & Hrun & Ha).
    { destruct x as [l|l]; simpl.
      - exists (np.array l). by split; [apply wp_ret|].
      - destruct (Hcl l eq_refl) as [a Ha]. exists a. split; [|done].
        by eapply wp_read_array. }
    eapply wp_mono; [exact Hrun| |done].
    intros ? ? [-> ->]. apply wp_bind, wp_lift.
    destruct (np.reshape a card) as [a'|e] eqn:Hre.
    + apply wp_bind, wp_alloc_array. intros l' Hl'. apply wp_ret.
      apply wp_alloc_factor. intros c Hc. simpl in *.
      apply (HQ c _ (Some l')); simpl; try done.
      * etrans; [by apply extends_alloc_array|]. by apply (extends_alloc_factor (mkStore _ _ _ _)).
      * split; [done|]. exists a, a'. done.
    + assert (e = ReshapeError) as ->.
      { unfold np.reshape in Hre. repeat case_match; congruence. }
      by eapply HE.
  - apply wp_ret, wp_alloc_factor. intros c Hc.
    apply (HQ c _ None); simpl; try done. by apply extends_alloc_factor.
Qed.

Lemma sorted_eq_iff l1 l2 : sorted l1 = sorted l2 ↔ l1 ≡ₚ l2.
Proof.
  unfold sorted. split.
  - intros H. rewrite <-(merge_sort_Permutation String.le l1), H.
    apply merge_sort_Permutation.
  - intros H. apply (Sorted_unique String.le).
    + apply Sorted_merge_sort; apply _.
    + apply Sorted_merge_sort; apply _.
    + by rewrite !merge_sort_Permutation.
Qed.

(** The assertion of [get_value_for_state_vector] holds when the keys are the
    variables of the scope. *)
Lemma scope_assertion_iff (d : gmap string string) vars :
  NoDup vars →
  sorted (elements (dom d)) = sorted vars ↔ dom d = list_to_set vars.
Proof.
  intros Hnd. rewrite sorted_eq_iff. split.
  - intros H. apply set_eq. intros x.
    rewrite elem_of_list_to_set, <-H. by rewrite elem_of_elements.
  - intros H. apply NoDup_Permutation; [apply NoDup_elements|done|].
    intros x. rewrite elem_of_elements, H. by rewrite elem_of_list_to_set.
Qed.

Lemma wp_copy σ self f (Q : loc → store → Prop) (E : exn → store → Prop) :
  factors σ !! self = Some f → closed σ f →
  (∀ a σ', buffer σ f = Some a → np.reshape a (cardinality f) = Raise ReshapeError →
           extends σ σ' → E ReshapeError σ') →
  (∀ c σ' v' sn', extends σ σ' → factors σ !! c = None →
     factors σ' !! c = Some (mkFactor (variables f) (cardinality f) v' sn') →
     copied_values σ σ' (cardinality f) (_values f) v' →
     copied_state_names σ σ' (state_names f) sn' →
     Q c σ') →
  wp (copy self) σ Q E.
Proof.
  intros Hf [Hcv Hcs] HE HQ. unfold copy.
  apply wp_bind. eapply wp_read_factor; [done|].
  apply wp_bind. apply wp_deepcopy_state_names; [done|].
  intros sn' σ1 Hext1 Ha1 Hf1 Hsn.
  apply wp___init__.
  - intros l Hl. destruct (_values f) as [l0|] eqn:Hv; simplify_eq/=.
    rewrite Ha1. by apply Hcv.
  - intros a Ha Hre. destruct (_values f) as [l0|] eqn:Hv; simpl in Ha; [|done].
    eapply HE; [|done..]. unfold buffer. rewrite Hv. simpl. by rewrite <-Ha1.
  - intros c σ' v' Hext' Hl' Hd' Hc Hfs Hv'.
    apply (HQ c σ' v' sn').
    + by etrans.
    + by rewrite <-Hf1.
    + by rewrite Hfs, lookup_insert_eq.
    + unfold copied_values. destruct (_values f) as [l0|], v' as [l'|]; simpl in *; try done.
      destruct Hv' as (Hfresh & a & a' & Ha & Hre & Harr).
      rewrite Ha1 in *. split; [done|]. exists a, a'. split; [done|]. split; [done|].
      by rewrite Harr, lookup_insert_eq.
    + by eapply copied_state_names_extends.
Qed.

(** What is read through an instance depends on its own objects only. *)
Lemma view_frame σ σ' f :
  (∀ l, owns_array f l → arrays σ' !! l = arrays σ !! l) →
  (∀ d, owns_dict f d → dicts σ' !! d = dicts σ !! d) →
  (∀ l, owns_labels σ f l → label_lists σ' !! l = label_lists σ !! l) →
  buffer σ' f = buffer σ f ∧ ∀ v, labels σ' f v = labels σ f v.
Proof.
  intros Ha Hd Hl. split.
  - unfold buffer. destruct (_values f) as [l|] eqn:Hv; [|done]. simpl. by apply Ha.
  - intros v. unfold labels. destruct (state_names f) as [d|] eqn:Hs; [|done]. simpl.
    rewrite (Hd d Hs). destruct (dicts σ !! d) as [m|] eqn:Hm; [|done]. simpl.
    destruct (m !! v) as [l|] eqn:Hk; [|done]. simpl. apply Hl. by exists d, m, v.
Qed.

Lemma view_extends σ σ' f :
  closed σ f → extends σ σ' →
  buffer σ' f = buffer σ f ∧ ∀ v, labels σ' f v = labels σ f v.
Proof.
  intros [Hcv Hcs] Hext. apply view_frame.
  - intros l Hl. destruct (Hcv l Hl) as [a Ha].
    rewrite Ha. by eapply extends_arrays.
  - intros d Hd. destruct (Hcs d Hd) as (m & Hm & _).
    rewrite Hm. by eapply extends_dicts.
  - intros l (d & m & k & Hd & Hm & Hk). destruct (Hcs d Hd) as (m' & Hm' & Hcl).
    simplify_eq. destruct (Hcl k l Hk) as [xs Hxs].
    rewrite Hxs. by eapply extends_labels.
Qed.

Lemma wp_update_values σ self f new_values (Q : () → store → Prop)
    (E : exn → store → Prop) :
  factors σ !! self = Some f →
  (np.reshape (np.array new_values) (cardinality f) = Raise ReshapeError →
   E ReshapeError σ) →
  (∀ l a, arrays σ !! l = None →
     np.reshape (np.array new_values) (cardinality f) = Ok a →
     Q () (mkStore (<[l:=a]> (arrays σ)) (label_lists σ) (dicts σ)
                   (<[self:=set_values (Some l) f]> (factors σ)))) →
  wp (update_values self new_values) σ Q E.
Proof.
  intros Hf HE HQ. unfold update_values.
  apply wp_bind. eapply wp_read_factor; [done|].
  apply wp_bind, wp_lift.
  destruct (np.reshape _ _) as [a|e] eqn:Hre.
  - apply wp_bind, wp_alloc_array. intros l Hl.
    eapply wp_modify_factor; [done|]. simpl. by apply HQ.
  - assert (e = ReshapeError) as ->; [|by apply HE].
    unfold np.reshape in Hre. repeat case_match; congruence.
Qed.

(** After [update_values], whatever it returns, the other instances and all
    objects that were in the store are as before. *)
Lemma update_values_frame σ self new_values r σ' f :
  factors σ !! self = Some f →
  update_values self new_values σ = (r, σ') →
  (∀ l, l ≠ self → factors σ' !! l = factors σ !! l) ∧
  arrays σ ⊆ arrays σ' ∧ dicts σ' = dicts σ ∧ label_lists σ' = label_lists σ.
Proof.
  intros Hf Hrun.
  pose proof (wp_update_values σ self f new_values
    (λ _ σ', (∀ l, l ≠ self → factors σ' !! l = factors σ !! l) ∧
             arrays σ ⊆ arrays σ' ∧ dicts σ' = dicts σ ∧ label_lists σ' = label_lists σ)
    (λ _ σ', (∀ l, l ≠ self → factors σ' !! l = factors σ !! l) ∧
             arrays σ ⊆ arrays σ' ∧ dicts σ' = dicts σ ∧ label_lists σ' = label_lists σ)
    Hf) as H.
  unfold wp in H. rewrite Hrun in H.
  destruct r as [u|e]; apply H; try done.
  all: intros l a Hl _; simpl; split_and!; try done.
  all: try (intros l' ?; by rewrite lookup_insert_ne).
  all: by apply insert_subseteq.
Qed.

Lemma frame_other σ σ' f :
  closed σ f →
  arrays σ ⊆ arrays σ' → dicts σ' = dicts σ → label_lists σ' = label_lists σ →
  buffer σ' f = buffer σ f ∧ ∀ v, labels σ' f v = labels σ f v.
Proof.
  intros [Hcv _] Ha Hd Hl. apply view_frame.
  - intros l Hown. destruct (Hcv l Hown) as [a Hl'].
    rewrite Hl'. by eapply lookup_weaken.
  - intros. by rewrite Hd.
  - intros. by rewrite Hl.
Qed.

(** What [copy] returns, under the facts that make it return. *)
Lemma copy_returns σ self f :
  factors σ !! self = Some f → closed σ f → buffer_shaped σ f →
  ∃ c σ1 fc,
    copy self σ = (Ok c, σ1) ∧ factors σ !! c = None ∧ factors σ1 !! c = Some fc ∧
    extends σ σ1 ∧
    variables fc = variables f ∧ cardinality fc = cardinality f ∧
    buffer σ1 fc = buffer σ f ∧ (∀ v, labels σ1 fc v = labels σ f v) ∧
    closed σ1 fc ∧
    (∀ l, owns_array fc l → arrays σ !! l = None) ∧
    (∀ d, owns_dict fc d → dicts σ !! d = None) ∧
    (∀ l, owns_labels σ1 fc l → label_lists σ !! l = None).
Proof.
  intros Hf Hcl Hsh.
  enough (wp (copy self) σ (λ c σ1, ∃ fc,
    factors σ !! c = None ∧ factors σ1 !! c = Some fc ∧
    extends σ σ1 ∧
    variables fc = variables f ∧ cardinality fc = cardinality f ∧
    buffer σ1 fc = buffer σ f ∧ (∀ v, labels σ1 fc v = labels σ f v) ∧
    closed σ1 fc ∧
    (∀ l, owns_array fc l → arrays σ !! l = None) ∧
    (∀ d, owns_dict fc d → dicts σ !! d = None) ∧
    (∀ l, owns_labels σ1 fc l → label_lists σ !! l = None)) (λ _ _, False)) as H.
  { apply wp_total in H as (c & σ1 & Hrun & fc & H). by exists c, σ1, fc. }
  apply (wp_copy σ self f); [done|done| |].
  { intros a σ' Ha Hre. destruct (Hsh a Ha) as [Hwf Hshape].
    rewrite (reshape_same a _ Hwf Hshape) in Hre. done. }
  intros c σ1 v' sn' Hext Hc Hfc Hv Hsn.
  exists (mkFactor (variables f) (cardinality f) v' sn').
  assert (buffer σ1 (mkFactor (variables f) (cardinality f) v' sn') = buffer σ f) as Hbuf.
  { unfold buffer, copied_values in *. simpl.
    destruct (_values f) as [l|] eqn:Hl, v' as [l'|]; simpl in *; try done.
    destruct Hv as (_ & a & a' & Ha & Hre & Ha').
    destruct (Hsh a) as [Hwf Hshape]; [unfold buffer; by rewrite Hl|].
    rewrite (reshape_same a _ Hwf Hshape) in Hre. simplify_eq. by rewrite Ha, Ha'. }
  assert (∀ v, labels σ1 (mkFactor (variables f) (cardinality f) v' sn') v = labels σ f v)
    as Hlab.
  { intros v. unfold labels, copied_state_names in *. simpl.
    destruct (state_names f) as [d|] eqn:Hd, sn' as [d'|]; simpl in *; try done.
    destruct Hsn as (m & Hm & _ & m' & Hm' & Hk). rewrite Hm, Hm'. simpl.
    specialize (Hk v). destruct (m' !! v) as [l'|]; simpl.
    - destruct Hk as (l & -> & _ & xs & Hxs & Hxs'). simpl. by rewrite Hxs, Hxs'.
    - by rewrite Hk. }
  split_and!; try done.
  - split; simpl.
    + intros l ->. unfold copied_values in Hv.
      destruct (_values f) as [l0|]; [|done].
      destruct Hv as (_ & a & a' & _ & _ & ->). eauto.
    + intros d ->. unfold copied_state_names in Hsn.
      destruct (state_names f) as [d0|]; [|done].
      destruct Hsn as (m & Hm & _ & m' & Hm' & Hk). exists m'. split; [done|].
      intros k l Hl. specialize (Hk k). rewrite Hl in Hk.
      destruct Hk as (l0 & _ & _ & xs & _ & ->). eauto.
  - unfold owns_array. simpl. intros l ->. unfold copied_values in Hv.
    destruct (_values f) as [l0|]; [|done]. by destruct Hv as (? & _).
  - unfold owns_dict. simpl. intros d ->. unfold copied_state_names in Hsn.
    destruct (state_names f) as [d0|]; [|done]. by destruct Hsn as (m & Hm & ? & _).
  - unfold owns_labels. simpl. intros l (d & m & k & -> & Hm & Hk).
    unfold copied_state_names in Hsn. destruct (state_names f) as [d0|]; [|done].
    destruct Hsn as (m0 & Hm0 & _ & m' & Hm' & Hk'). simplify_eq.
    specialize (Hk' k). rewrite Hk in Hk'. by destruct Hk' as (l0 & _ & ? & _).
Qed.

(** The objects of an instance that is closed in [σ] are objects of [σ]. *)
Lemma closed_owns σ f :
  closed σ f →
  (∀ l, owns_array f l → is_Some (arrays σ !! l)) ∧
  (∀ d, owns_dict f d → is_Some (dicts σ !! d)) ∧
  (∀ σ', extends σ σ' → ∀ l, owns_labels σ' f l → is_Some (label_lists σ !! l)).
Proof.
  intros [Hcv Hcs]. split_and!.
  - done.
  - intros d Hd. destruct (Hcs d Hd) as (m & -> & _). eauto.
  - intros σ' Hext l (d & m & k & Hd & Hm & Hk).
    destruct (Hcs d Hd) as (m0 & Hm0 & Hcl).
    eapply extends_dicts in Hm0; [|done]. simplify_eq. by eapply Hcl.
Qed.

(** ** list.index *)

Lemma index_of_None {A} `{EqDecision A} (x : A) l : index_of x l = None ↔ x ∉ l.
Proof.
  induction l as [|y l IH]; simpl.
  - split; [intros _; apply not_elem_of_nil|done].
  - rewrite not_elem_of_cons. case_decide as Hxy.
    + split; [done|]. by intros [? _].
    + rewrite fmap_None, IH. tauto.
Qed.

Lemma index_of_Some {A} `{EqDecision A} (x : A) l i :
  index_of x l = Some i → l !! i = Some x ∧ ∀ j, j < i → l !! j ≠ Some x.
Proof.
  revert i. induction l as [|y l IH]; intros i; simpl; [done|].
  case_decide as Hxy.
  - intros [= <-]. split; [by subst|]. lia.
  - intros (i' & Hi' & ->)%fmap_Some. destruct (IH i' Hi') as [? Hmin].
    split; [done|]. intros [|j] ?; simpl; [congruence|]. apply Hmin. lia.
Qed.

Lemma index_of_elem {A} `{EqDecision A} (x : A) l : x ∈ l → is_Some (index_of x l).
Proof.
  intros Hx. destruct (index_of x l) eqn:E; [done|].
  by apply index_of_None in E.
Qed.

Lemma index_of_lt {A} `{EqDecision A} (x : A) l i : index_of x l = Some i → i < length l.
Proof. intros [H _]%index_of_Some. by eapply lookup_lt_Some. Qed.

Lemma index_of_lookup {A} `{EqDecision A} (x : A) l i :
  NoDup l → l !! i = Some x → index_of x l = Some i.
Proof.
  intros Hnd Hi. destruct (index_of_elem x l) as [j Hj].
  { by eapply list_elem_of_lookup_2. }
  rewrite Hj. f_equal. apply index_of_Some in Hj as [Hj _].
  by eapply NoDup_lookup.
Qed.

Lemma bind_ok {A B} (m : M A) (k : A → M B) σ a σ' :
  m σ = (Ok a, σ') → bind m k σ = k a σ'.
Proof. unfold bind. by intros ->. Qed.

Lemma bind_raise {A B} (m : M A) (k : A → M B) σ e σ' :
  m σ = (Raise e, σ') → bind m k σ = (Raise e, σ').
Proof. unfold bind. by intros ->. Qed.

Lemma values_array_run σ self f a :
  factors σ !! self = Some f → buffer σ f = Some a → values_array self σ = (Ok a, σ).
Proof.
  intros Hf Hbuf. unfold buffer in Hbuf.
  destruct (_values f) as [l|] eqn:Hv; [|done]. simpl in Hbuf.
  unfold values_array, values, bind, read_factor, read_array. rewrite Hf. simpl.
  rewrite Hv. simpl. by rewrite Hbuf.
Qed.

Lemma wp_values_array σ self f a (Q : np.ndarray → store → Prop) E :
  factors σ !! self = Some f → buffer σ f = Some a → Q a σ →
  wp (values_array self) σ Q E.
Proof. intros Hf Hbuf HQ. unfold wp. by rewrite (values_array_run _ _ _ _ Hf Hbuf). Qed.

(** ** get_value_for_state_vector *)

Lemma labels_Some σ f var ls :
  labels σ f var = Some ls →
  ∃ d m l, state_names f = Some d ∧ dicts σ !! d = Some m ∧ m !! var = Some l ∧
           label_lists σ !! l = Some ls.
Proof.
  unfold labels. intros H.
  destruct (state_names f) as [d|]; [|done]. simpl in H.
  destruct (dicts σ !! d) as [m|] eqn:?; [|done]. simpl in H.
  destruct (m !! var) as [l|] eqn:?; [|done]. simpl in H. by exists d, m, l.
Qed.

Lemma wp_state_coordinates σ self f dict_of_states vars :
  factors σ !! self = Some f →
  Forall (λ var, is_Some (dict_of_states !! var) ∧ is_Some (labels σ f var)) vars →
  wp (state_coordinates self dict_of_states vars) σ
     (λ coords σ', σ' = σ ∧ Forall2 (resolves σ f dict_of_states) vars coords)
     (λ e σ', σ' = σ ∧ ∃ var s, var ∈ vars ∧ unknown_state σ f dict_of_states var s ∧
                               e = NotInList s).
Proof.
  intros Hf. induction 1 as [|var vars [[s Hs] [ls Hls]] _ IH]; simpl.
  { apply wp_ret. split; [done|constructor]. }
  destruct (labels_Some _ _ _ _ Hls) as (d & m & l & Hd & Hm & Hl & Hxs).
  apply wp_bind, wp_from_option. rewrite Hs.
  apply wp_bind. eapply wp_read_factor; [done|].
  apply wp_bind, wp_from_option. rewrite Hd.
  apply wp_bind. eapply wp_read_dict; [done|].
  apply wp_bind, wp_from_option. rewrite Hl.
  apply wp_bind. eapply wp_read_labels; [done|].
  apply wp_bind, wp_from_option.
  destruct (index_of s ls) as [i|] eqn:Hi.
  - apply wp_bind. eapply wp_mono; [exact IH| |].
    + intros coords σ' [-> HF]. apply wp_ret. split; [done|].
      constructor; [|done]. by exists s, ls.
    + intros e σ' (-> & var' & s' & Hin & Hun & ->). split; [done|].
      exists var', s'. split; [by right|done].
  - split; [done|]. exists var, s. split; [by left|]. split; [|done].
    exists ls. split; [done|]. split; [done|]. by apply index_of_None.
Qed.

Lemma resolves_in_range σ f d vars coords shape :
  Forall2 (resolves σ f d) vars coords →
  Forall2 (λ var n, ∃ ls, labels σ f var = Some ls ∧ length ls = n) vars shape →
  np.in_range shape coords.
Proof.
  unfold np.in_range. intros H. revert shape.
  induction H as [|var i vars coords (s & ls & _ & Hls & Hi) _ IH]; intros shape.
  - inversion 1. constructor.
  - inversion 1 as [|?? ? shape' (ls' & Hls' & Hlen) HF]; subst.
    constructor; [|by apply IH]. simplify_eq. by eapply index_of_lt.
Qed.

Lemma resolves_functional σ f d vars coords1 coords2 :
  Forall2 (resolves σ f d) vars coords1 → Forall2 (resolves σ f d) vars coords2 →
  coords1 = coords2.
Proof.
  intros H. revert coords2.
  induction H as [|var i vars coords (s & ls & ? & ? & ?) _ IH]; intros coords2.
  - by inversion 1.
  - inversion 1 as [|? j ? coords' (s' & ls' & ? & ? & ?) HF]; subst.
    f_equal; [congruence|by apply IH].
Qed.

Lemma holds_flat_mk card vals :
  Forall (λ c, 0 ≤ c)%Z card → holds_flat card vals (np.mk (Z.to_nat <$> card) vals).
Proof.
  intros Hc. split_and!.
  - unfold np.ndim. simpl. by rewrite length_fmap.
  - simpl. by apply of_nat_to_nat.
  - intros idx Hidx. by rewrite getitem_in_range.
Qed.

(** ** Loops over lists *)

Lemma wp_mapM_option {A B} (g : A → option B) (e : A → exn) l σ
    (Q : list B → store → Prop) (E : exn → store → Prop) :
  (∀ r, Forall2 (λ x y, g x = Some y) l r → Q r σ) →
  (∀ x, x ∈ l → g x = None → E (e x) σ) →
  wp (mapM (λ x, from_option (e x) (g x)) l) σ Q E.
Proof.
  revert Q. induction l as [|x l IH]; intros Q HQ HE; simpl.
  { apply wp_ret, HQ. constructor. }
  apply wp_bind, wp_from_option. destruct (g x) as [y|] eqn:Hy.
  - apply wp_bind. apply IH.
    + intros r Hr. apply wp_ret, HQ. by constructor.
    + intros x' Hx' Hg. apply HE; [by right|done].
  - apply HE; [by left|done].
Qed.

Lemma Forall2_lookup_fmap {A} (l : list A) (idxs : list nat) r :
  Forall2 (λ i x, l !! i = Some x) idxs r → r = omap (λ i, l !! i) idxs.
Proof.
  induction 1 as [|i x idxs r Hi _ IH]; [done|]. simpl. rewrite Hi. by f_equal.
Qed.

(** ** sorted(set(range(n)) - set(var_indexes)) *)

Lemma Forall_seq_ge a n : Forall (λ k, a ≤ k) (seq a n).
Proof. apply Forall_forall. intros k ?%elem_of_seq. lia. Qed.

Lemma StronglySorted_seq a n : StronglySorted le (seq a n).
Proof.
  revert a. induction n as [|n IH]; intros a; simpl; constructor; [apply IH|].
  eapply Forall_impl; [apply (Forall_seq_ge (S a))|]. intros ??. simpl in *. lia.
Qed.

Lemma StronglySorted_filter {A} (R : relation A) (P : A → Prop)
    `{∀ x, Decision (P x)} l :
  StronglySorted R l → StronglySorted R (filter P l).
Proof.
  induction 1 as [|x l _ IH Hx]; [constructor|].
  rewrite filter_cons. case_decide; [|done].
  constructor; [done|]. apply Forall_forall. intros y [_ Hy]%list_elem_of_filter.
  rewrite Forall_forall in Hx. by apply Hx.
Qed.

Lemma index_to_keep_eq n (var_indexes : list nat) :
  sorted_nat (elements (list_to_set (seq 0 n) ∖ list_to_set var_indexes : gset nat))
  = np.kept_axes n var_indexes.
Proof.
  unfold sorted_nat, np.kept_axes.
  apply (StronglySorted_unique le).
  - apply StronglySorted_merge_sort; apply _.
  - apply StronglySorted_filter, StronglySorted_seq.
  - rewrite merge_sort_Permutation. apply NoDup_Permutation.
    + apply NoDup_elements.
    + apply NoDup_filter, NoDup_seq.
    + intros k. rewrite elem_of_elements, elem_of_difference, !elem_of_list_to_set.
      by rewrite list_elem_of_filter, (comm and).
Qed.

(** ** np.sum *)

Lemma sum_outcome a axes :
  np.sum a axes =
    if decide (Forall (λ x, x < np.ndim a) axes)
    then if decide (NoDup axes)
         then Ok (np.tabulate
                    ((λ p, default 0 (np.shape a !! p)) <$> np.kept_axes (np.ndim a) axes)
                    (λ k, np.Zsum ((λ r, np.get a (np.sum_index (np.ndim a) axes k r))
                       <$> np.indices ((λ p, default 0 (np.shape a !! p)) <$> axes))))
         else Raise RepeatedAxis
    else Raise AxisError.
Proof. unfold np.sum, np.normalize_axis_tuple. by repeat case_decide. Qed.

(** ** deepcopy of an instance *)

Lemma wp_deepcopy_factor σ self f (Q : loc → store → Prop) E :
  factors σ !! self = Some f → closed σ f →
  (∀ phi σ' v' sn', extends σ σ' → factors σ !! phi = None →
     factors σ' !! phi = Some (mkFactor (variables f) (cardinality f) v' sn') →
     duplicated_values σ σ' (_values f) v' →
     copied_state_names σ σ' (state_names f) sn' →
     Q phi σ') →
  wp (deepcopy_factor self) σ Q E.
Proof.
  intros Hf [Hcv Hcs] HQ. unfold deepcopy_factor.
  apply wp_bind. eapply wp_read_factor; [done|].
  apply wp_bind.
  assert (wp (deepcopy_values (_values f)) σ
            (λ v' σ1, extends σ σ1 ∧ label_lists σ1 = label_lists σ ∧
                      dicts σ1 = dicts σ ∧ factors σ1 = factors σ ∧
                      duplicated_values σ σ1 (_values f) v')
            (λ _ _, False)) as Hv.
  { destruct (_values f) as [l|] eqn:Hl; simpl.
    - destruct (Hcv l eq_refl) as [a Ha].
      apply wp_bind. eapply wp_read_array; [done|].
      apply wp_bind, wp_alloc_array. intros l' Hl'. apply wp_ret.
      split_and!; try done; [by apply extends_alloc_array|].
      exists a. split; [done|]. simpl. by rewrite lookup_insert_eq.
    - by apply wp_ret. }
  eapply wp_mono; [exact Hv| |done].
  intros v' σ1 (Hext1 & Hl1 & Hd1 & Hf1 & Hdup).
  apply wp_bind. apply wp_deepcopy_state_names.
  { intros d Hd. destruct (Hcs d Hd) as (m & Hm & Hdc). exists m.
    split; [by rewrite Hd1|]. intros k l Hk. rewrite Hl1. by eapply Hdc. }
  intros sn' σ2 Hext2 Ha2 Hf2 Hsn.
  apply wp_alloc_factor. intros phi Hphi.
  apply (HQ phi _ v' sn').
  - etrans; [done|]. etrans; [done|]. by apply extends_alloc_factor.
  - by rewrite <-Hf1, <-Hf2.
  - simpl. by rewrite lookup_insert_eq.
  - unfold duplicated_values in *. destruct (_values f), v'; try done.
    destruct Hdup as (? & a & ? & ?). split; [done|]. exists a. split; [done|].
    simpl. by rewrite Ha2.
  - unfold copied_state_names in *. destruct (state_names f) as [d|], sn' as [d'|]; try done.
    destruct Hsn as (m & Hm & Hcd). exists m. split; [by rewrite <-Hd1|].
    eapply (copied_dict_extends _ σ2); [by apply extends_alloc_factor|].
    destruct Hcd as (Hd' & m' & Hm' & Hk). split; [by rewrite <-Hd1|].
    exists m'. split; [done|]. intros k. specialize (Hk k).
    destruct (m' !! k) as [l'|]; [|done]. destruct Hk as (l & ? & Hfr & xs & ? & ?).
    exists l. split; [done|]. split; [by rewrite <-Hl1|]. exists xs.
    split; [by rewrite <-Hl1|done].
Qed.

Lemma wp_values_array_None σ self f (Q : np.ndarray → store → Prop)
    (E : exn → store → Prop) :
  factors σ !! self = Some f → _values f = None → E NoneTypeError σ →
  wp (values_array self) σ Q E.
Proof.
  intros Hf Hv HE. unfold wp, values_array, values, bind, read_factor.
  rewrite Hf. simpl. by rewrite Hv.
Qed.

(** ** marginalize *)

Lemma wp_var_indexes σ phi self p f vars :
  factors σ !! phi = Some p → factors σ !! self = Some f →
  variables p = variables f →
  wp (var_indexes phi self vars) σ
    (λ idxs σ', σ' = σ ∧
       Forall2 (λ v i, index_of v (variables f) = Some i) vars idxs)
    (λ e σ', σ' = σ ∧ ∃ v, e = NotInScope v ∧ v ∈ vars ∧ v ∉ variables f).
Proof.
  intros Hp Hf Hvars. induction vars as [|var vars IH]; simpl.
  { apply wp_ret. split; [done|constructor]. }
  apply wp_bind. eapply wp_read_factor; [done|]. rewrite Hvars.
  case_decide as Hin.
  - apply wp_bind. eapply wp_read_factor; [done|].
    apply wp_bind, wp_from_option.
    destruct (index_of_elem var (variables f) Hin) as [i Hi]. rewrite Hi.
    apply wp_bind. eapply wp_mono; [exact IH| |].
    + intros idxs σ' [-> HF]. apply wp_ret. split; [done|]. by constructor.
    + intros e σ' (-> & v & -> & ? & ?). split; [done|]. exists v.
      split; [done|]. split; [by right|done].
  - apply wp_raise. split; [done|]. exists var. split; [done|]. split; [by left|done].
Qed.

Lemma wp_marginalize σ self f vars :
  factors σ !! self = Some f → closed σ f →
  wp (marginalize self vars) σ
    (λ phi σ', extends σ σ' ∧ factors σ !! phi = None ∧
       ∃ idxs p, Forall2 (λ v i, index_of v (variables f) = Some i) vars idxs ∧
                 factors σ' !! phi = Some p ∧ marginalized σ σ' f idxs p)
    (λ e σ', extends σ σ' ∧
       ((∃ v, e = NotInScope v ∧ v ∈ vars ∧ v ∉ variables f) ∨
        (∃ idxs, Forall2 (λ v i, index_of v (variables f) = Some i) vars idxs ∧
                 marginalize_fails σ f idxs e))).
Proof.
  intros Hf Hcl. unfold marginalize.
  apply wp_bind. apply (wp_deepcopy_factor σ self f); [done..|].
  intros phi σ1 v' sn' Hext1 Hphi Hp1 Hdup Hsn.
  assert (factors σ1 !! self = Some f) as Hf1 by (by eapply extends_factors).
  assert (phi ≠ self) as Hne by congruence.
  apply wp_bind. eapply wp_mono; [by eapply wp_var_indexes| |].
  2:{ intros e σ' (-> & v & -> & ? & ?). split; [done|]. left. by exists v. }
  intros idxs ? [-> Hidx].
  apply wp_bind. eapply wp_read_factor; [done|].
  rewrite index_to_keep_eq.
  set (kept := np.kept_axes (length (variables f)) idxs).
  apply wp_bind. apply wp_mapM_option.
  2:{ intros i [_ Hi%elem_of_seq]%list_elem_of_filter Hnone.
      apply lookup_ge_None in Hnone. lia. }
  intros vs Hvs.
  apply wp_bind. eapply wp_modify_factor; [done|].
  set (σ2 := mkStore _ _ _ _).
  assert (extends σ σ2) as Hext2 by (by apply extends_modify).
  apply wp_bind. apply wp_mapM_option.
  2:{ intros i [_ Hi%elem_of_seq]%list_elem_of_filter Hnone.
      apply lookup_ge_None in Hnone. split; [done|]. right. exists idxs.
      split; [done|]. left. split; [done|]. lia. }
  intros cs Hcs.
  apply wp_bind. eapply wp_modify_factor; [by apply lookup_insert_eq|].
  set (σ3 := mkStore _ _ _ _).
  assert (extends σ σ3) as Hext3 by (by apply extends_modify).
  apply wp_bind.
  unfold duplicated_values in Hdup.
  destruct (_values f) as [l|] eqn:Hl, v' as [l'|]; try done.
  2:{ eapply wp_values_array_None; [by apply lookup_insert_eq|done|].
      split; [done|]. right. exists idxs. split; [done|].
      right. left. split; [done|]. unfold buffer. by rewrite Hl. }
  destruct Hdup as (Hl' & a & Ha & Ha').
  eapply wp_values_array; [by apply lookup_insert_eq|unfold buffer; simpl; exact Ha'|].
  apply wp_bind, wp_lift.
  destruct (np.sum a idxs) as [s|e] eqn:Hsum.
  2:{ split; [done|]. right. exists idxs. split; [done|]. right. right.
      exists a. split; [|done]. unfold buffer. rewrite Hl. done. }
  apply wp_bind, wp_alloc_array. intros ls Hls.
  set (σ4 := mkStore _ _ _ _).
  assert (extends σ σ4) as Hext4.
  { etrans; [exact Hext3|]. by apply extends_alloc_array. }
  apply wp_bind. eapply wp_modify_factor; [by apply lookup_insert_eq|].
  set (σ5 := mkStore _ _ _ _).
  assert (extends σ σ5) as Hext5 by (by apply extends_modify).
  apply wp_ret.
  split; [done|]. split; [done|].
  exists idxs, (mkFactor vs cs (Some ls) sn').
  split; [done|]. split; [by apply lookup_insert_eq|].
  exists a, s. split_and!; try done.
  - unfold buffer. by rewrite Hl.
  - unfold buffer. simpl. by rewrite lookup_insert_eq.
Qed.

Lemma Forall2_index_elem (l : list string) vars idxs v :
  Forall2 (λ v i, index_of v l = Some i) vars idxs → v ∈ vars → v ∈ l.
Proof.
  intros HF Hv. apply list_elem_of_lookup in Hv as [j Hj].
  destruct (Forall2_lookup_l _ _ _ _ _ HF Hj) as (i & _ & Hi).
  apply index_of_Some in Hi as [Hi _]. by eapply list_elem_of_lookup_2.
Qed.

Lemma sum_raises a axes e : np.sum a axes = Raise e → e = AxisError ∨ e = RepeatedAxis.
Proof. rewrite sum_outcome. repeat case_decide; naive_solver. Qed.

(** The index tuples are listed at their offsets. *)
Lemma rows_lookup_inv (L : list (list nat)) b n k x :
  (seq b n ≫= λ i, (i ::.) <$> L) !! k = Some x →
  ∃ i j y, i < n ∧ L !! j = Some y ∧ k = i * length L + j ∧ x = (b + i) :: y.
Proof.
  revert b k. induction n as [|n IH]; intros b k; [done|].
  simpl seq. rewrite bind_cons. intros [H|[Hge H]]%lookup_app_Some.
  - rewrite list_lookup_fmap in H. apply fmap_Some in H as (y & Hy & ->).
    exists 0, k, y. split_and!; [lia|done|lia|]. by rewrite Nat.add_0_r.
  - rewrite length_fmap in Hge, H.
    destruct (IH _ _ H) as (i & j & y & ? & ? & Hk & ->).
    exists (S i), j, y. split_and!; [lia|done|lia|]. f_equal. lia.
Qed.

Lemma indices_lookup_ravel s k idx :
  np.indices s !! k = Some idx → np.ravel s idx = k ∧ np.in_range s idx.
Proof.
  revert k idx. induction s as [|n s IH]; intros k idx; simpl.
  - destruct k; [|done]. intros [= <-]. split; [done|constructor].
  - intros H. change (np.indices (n :: s)) with (seq 0 n ≫= λ i, (i ::.) <$> np.indices s) in *.
    apply rows_lookup_inv in H as (i & j & y & Hi & Hy & -> & ->).
    destruct (IH _ _ Hy) as [<- Hr]. rewrite length_indices. simpl.
    split; [done|]. by constructor.
Qed.

(** Reading every entry of an array in C order gives its data. *)
Lemma tabulate_get a : np.wf a → np.tabulate (np.shape a) (np.get a) = a.
Proof.
  intros Hwf. destruct a as [s d]. unfold np.tabulate, np.wf in *. simpl in *. f_equal.
  apply list_eq. intros k. rewrite list_lookup_fmap.
  destruct (np.indices s !! k) as [idx|] eqn:Hk; simpl.
  - pose proof (lookup_lt_Some _ _ _ Hk) as Hlt. rewrite length_indices, <-Hwf in Hlt.
    apply indices_lookup_ravel in Hk as [<- Hr]. unfold np.get. simpl.
    destruct (lookup_lt_is_Some_2 d _ Hlt) as [x Hx].
    by rewrite Hx, (nth_lookup_Some _ _ _ _ Hx).
  - apply lookup_ge_None in Hk. rewrite length_indices, <-Hwf in Hk.
    symmetry. by apply lookup_ge_None.
Qed.

Lemma tabulate_ext s f g :
  (∀ idx, np.in_range s idx → f idx = g idx) → np.tabulate s f = np.tabulate s g.
Proof.
  intros H. unfold np.tabulate. f_equal. apply Forall_fmap_ext_1, Forall_forall.
  intros idx Hidx%elem_of_indices. by apply H.
Qed.

Lemma fmap_lookup_seq {A} (l : list A) d :
  (λ p, default d (l !! p)) <$> seq 0 (length l) = l.
Proof.
  apply list_eq. intros i. rewrite list_lookup_fmap.
  destruct (l !! i) as [x|] eqn:Hi.
  - rewrite lookup_seq_lt by (by eapply lookup_lt_Some). simpl. by rewrite Hi.
  - rewrite lookup_seq_ge; [done|]. by apply lookup_ge_None.
Qed.

Lemma kept_axes_nil n : np.kept_axes n [] = seq 0 n.
Proof. unfold np.kept_axes. apply filter_Forall_id, Forall_forall. intros ??. apply not_elem_of_nil. Qed.

Lemma index_of_seq p n : p < n → index_of p (seq 0 n) = Some p.
Proof. intros. apply index_of_lookup; [apply NoDup_seq|]. by rewrite lookup_seq_lt. Qed.

Lemma sum_index_nil n idx : length idx = n → np.sum_index n [] idx [] = idx.
Proof.
  intros <-. unfold np.sum_index. rewrite kept_axes_nil.
  rewrite <-(fmap_lookup_seq idx 0) at 2. apply Forall_fmap_ext_1, Forall_forall.
  intros p Hp%elem_of_seq. simpl. rewrite index_of_seq by lia. done.
Qed.

(** Summing over no axis gives the array back. *)
Lemma sum_nil a : np.wf a → np.sum a [] = Ok a.
Proof.
  intros Hwf. rewrite sum_outcome.
  rewrite decide_True by constructor. rewrite decide_True by constructor.
  f_equal. rewrite kept_axes_nil. unfold np.ndim. rewrite fmap_lookup_seq.
  etrans; [|exact (tabulate_get a Hwf)]. apply tabulate_ext.
  intros idx Hidx. simpl. rewrite sum_index_nil by (by apply in_range_length).
  unfold np.Zsum. simpl. lia.
Qed.

Lemma Forall2_lookup_seq {A} (l r : list A) :
  Forall2 (λ i x, l !! i = Some x) (seq 0 (length l)) r → r = l.
Proof.
  intros H. apply list_eq. intros i.
  destruct (l !! i) as [x|] eqn:Hi.
  - assert (seq 0 (length l) !! i = Some i) as Hs.
    { apply lookup_seq_lt. by eapply lookup_lt_Some. }
    destruct (Forall2_lookup_l _ _ _ _ _ H Hs) as (y & -> & Hy). congruence.
  - apply lookup_ge_None. apply lookup_ge_None in Hi.
    apply Forall2_length in H. rewrite length_seq in H. lia.
Qed.

(** Entries picked by position and entries picked by a property. *)
Lemma omap_ext_elem {A B} (g h : A → option B) (l : list A) :
  (∀ x, x ∈ l → g x = h x) → omap g l = omap h l.
Proof.
  intros Hgh. apply list_omap_ext, Forall_Forall2_diag, Forall_forall. exact Hgh.
Qed.

Lemma filter_by_position {A} (P : A → Prop) `{∀ x, Decision (P x)}
    (Pi : nat → Prop) `{∀ i, Decision (Pi i)} (l : list A) :
  (∀ i x, l !! i = Some x → (Pi i ↔ P x)) →
  omap (λ i, l !! i) (filter Pi (seq 0 (length l))) = filter P l.
Proof.
  induction l as [|y l IH] using rev_ind; intros HP; [done|].
  rewrite length_app, Nat.add_1_r, seq_S, !filter_app, omap_app. simpl.
  f_equal.
  - rewrite <-IH.
    + apply omap_ext_elem. intros i [_ Hi%elem_of_seq]%list_elem_of_filter.
      apply lookup_app_l. lia.
    + intros i x Hi. apply HP. rewrite lookup_app_l; [done|]. by eapply lookup_lt_Some.
  - assert ((l ++ [y]) !! length l = Some y) as Hy.
    { rewrite lookup_app_r by lia. by rewrite Nat.sub_diag. }
    rewrite !filter_cons, !filter_nil. specialize (HP _ _ Hy).
    destruct (decide (Pi (length l))), (decide (P y)); simpl; rewrite ?Hy; tauto.
Qed.

Lemma index_of_position (l vars : list string) idxs p v :
  NoDup l → Forall2 (λ v i, index_of v l = Some i) vars idxs →
  l !! p = Some v → index_of p idxs = index_of v vars.
Proof.
  intros Hl Hidx Hp.
  induction Hidx as [|v0 i0 vars' idxs' Hi0 _ IH]; [done|]. simpl.
  assert (p = i0 ↔ v = v0) as Hiff.
  { split; intros ->.
    - apply index_of_Some in Hi0 as [Hi0 _]. congruence.
    - rewrite (index_of_lookup _ _ _ Hl Hp) in Hi0. congruence. }
  destruct (decide (p = i0)), (decide (v = v0)); try tauto. by rewrite IH.
Qed.

Section positions.
(** The positions [idxs] of the variables [vars] in the scope [l]. *)
Context (l vars : list string) (idxs : list nat).
Hypothesis Hl : NoDup l.
Hypothesis Hidx : Forall2 (λ v i, index_of v l = Some i) vars idxs.

Lemma position_elem i v : l !! i = Some v → i ∈ idxs ↔ v ∈ vars.
Proof using Hl Hidx.
  intros Hi. split.
  - intros [j Hj]%list_elem_of_lookup.
    destruct (Forall2_lookup_r _ _ _ _ _ Hidx Hj) as (v' & Hv' & Hi').
    apply index_of_Some in Hi' as [Hi' _]. simplify_eq.
    by eapply list_elem_of_lookup_2.
  - intros [j Hj]%list_elem_of_lookup.
    destruct (Forall2_lookup_l _ _ _ _ _ Hidx Hj) as (i' & Hi' & Hv).
    rewrite (index_of_lookup _ _ _ Hl Hi) in Hv. simplify_eq.
    by eapply list_elem_of_lookup_2.
Qed.

Lemma positions_lt : Forall (λ i, i < length l) idxs.
Proof using Hidx.
  apply Forall_forall. intros i [j Hj]%list_elem_of_lookup.
  destruct (Forall2_lookup_r _ _ _ _ _ Hidx Hj) as (v' & Hv' & Hi').
  by eapply index_of_lt.
Qed.

Lemma positions_NoDup : NoDup vars → NoDup idxs.
Proof using Hidx.
  intros Hnd. apply NoDup_alt. intros j1 j2 i H1 H2.
  destruct (Forall2_lookup_r _ _ _ _ _ Hidx H1) as (v1 & Hv1 & Hi1).
  destruct (Forall2_lookup_r _ _ _ _ _ Hidx H2) as (v2 & Hv2 & Hi2).
  apply index_of_Some in Hi1 as [Hi1 _]. apply index_of_Some in Hi2 as [Hi2 _].
  simplify_eq. by eapply NoDup_lookup.
Qed.

(** The variables that are kept are those at the kept positions. *)
Lemma kept_variables vs :
  Forall2 (λ i x, l !! i = Some x) (np.kept_axes (length l) idxs) vs →
  vs = filter (λ v, v ∉ vars) l.
Proof using Hl Hidx.
  intros ->%Forall2_lookup_fmap. apply filter_by_position.
  intros i x Hi. by rewrite position_elem.
Qed.

Lemma kept_cardinalities (c : list Z) vs cs :
  length c = length l →
  Forall2 (λ i x, l !! i = Some x) (np.kept_axes (length l) idxs) vs →
  Forall2 (λ i x, c !! i = Some x) (np.kept_axes (length l) idxs) cs →
  zip vs cs = filter (λ vc, vc.1 ∉ vars) (zip l c).
Proof using Hl Hidx.
  intros Hlen Hvs Hcs.
  rewrite <-(filter_by_position (λ vc : string * Z, vc.1 ∉ vars) (λ i, i ∉ idxs)).
  - rewrite length_zip, Hlen, Nat.min_id. fold (np.kept_axes (length l) idxs).
    apply Forall2_lookup_fmap.
    revert Hvs Hcs. generalize (np.kept_axes (length l) idxs). intros ks Hvs.
    revert cs. induction Hvs as [|k v ks vs Hk _ IH]; intros cs; inversion 1; subst.
    + constructor.
    + simpl. constructor; [|by apply IH]. by apply lookup_zip_Some.
  - intros i [v z] [Hv _]%lookup_zip_Some. simpl. by rewrite position_elem.
Qed.
End positions.

Lemma fmap_seq_lookup_ext {A B} (l : list A) (g : nat → B) (h : A → B) :
  (∀ p v, l !! p = Some v → g p = h v) → g <$> seq 0 (length l) = h <$> l.
Proof.
  intros Hgh. apply list_eq. intros p. rewrite !list_lookup_fmap.
  destruct (l !! p) as [v|] eqn:Hp; simpl.
  - rewrite lookup_seq_lt by (by eapply lookup_lt_Some). simpl. f_equal. by apply Hgh.
  - rewrite lookup_seq_ge; [done|]. by apply lookup_ge_None.
Qed.

Lemma sum_index_reassign (l vars vs : list string) idxs x r :
  NoDup l →
  Forall2 (λ v i, index_of v l = Some i) vars idxs →
  Forall2 (λ i v, l !! i = Some v) (np.kept_axes (length l) idxs) vs →
  np.sum_index (length l) idxs (x <$> vs) r = reassign x vars r <$> l.
Proof.
  intros Hl Hidx Hvs. unfold np.sum_index. apply fmap_seq_lookup_ext.
  intros p v Hp. unfold reassign.
  rewrite (index_of_position l vars idxs p v Hl Hidx Hp).
  destruct (index_of v vars) as [j|] eqn:Hj; [done|].
  assert (p ∈ np.kept_axes (length l) idxs) as Hin.
  { apply list_elem_of_filter. split.
    - rewrite (position_elem l vars idxs Hl Hidx p v Hp). by apply index_of_None.
    - apply elem_of_seq. apply lookup_lt_Some in Hp. lia. }
  destruct (index_of_elem _ _ Hin) as [k Hk]. rewrite Hk. simpl.
  apply index_of_Some in Hk as [Hk _].
  destruct (Forall2_lookup_l _ _ _ _ _ Hvs Hk) as (v' & Hv' & Hpv').
  rewrite list_lookup_fmap, Hv'. simpl. congruence.
Qed.

Lemma extents_of_positions (l vars : list string) idxs a :
  Forall2 (λ v i, index_of v l = Some i) vars idxs →
  (λ p, default 0 (np.shape a !! p)) <$> idxs = extent_of l a <$> vars.
Proof.
  induction 1 as [|v i vars idxs Hi _ IH]; [done|].
  rewrite !fmap_cons, IH. f_equal. unfold extent_of. by rewrite Hi.
Qed.

Lemma extents_of_kept (l vs : list string) ks a :
  NoDup l →
  Forall2 (λ i v, l !! i = Some v) ks vs →
  (λ p, default 0 (np.shape a !! p)) <$> ks = extent_of l a <$> vs.
Proof.
  intros Hl. induction 1 as [|i v ks vs Hi _ IH]; [done|].
  rewrite !fmap_cons, IH. f_equal. unfold extent_of.
  by rewrite (index_of_lookup _ _ _ Hl Hi).
Qed.

Lemma Forall2_index_of (l vars : list string) :
  Forall (λ v, v ∈ l) vars → ∃ idxs, Forall2 (λ v i, index_of v l = Some i) vars idxs.
Proof.
  induction 1 as [|v vars Hv _ [idxs IH]]; [by exists []|].
  destruct (index_of_elem v l Hv) as [i Hi]. exists (i :: idxs). by constructor.
Qed.

Lemma Forall2_index_of_eq (l vars : list string) idxs1 idxs2 :
  Forall2 (λ v i, index_of v l = Some i) vars idxs1 →
  Forall2 (λ v i, index_of v l = Some i) vars idxs2 → idxs1 = idxs2.
Proof.
  intros H. revert idxs2. induction H as [|v i vars idxs Hi _ IH]; intros idxs2.
  - by inversion 1.
  - inversion 1; subst. f_equal; [congruence|by apply IH].
Qed.

(** ** get_cardinality *)

Lemma cardinality_dict_Ok o vars :
  Forall (λ v, v ∈ variables o) vars →
  length (variables o) ≤ length (cardinality o) →
  ∃ d, cardinality_dict o vars = Ok d ∧
       ∀ v, v ∈ vars → ∃ c, d !! v = Some c ∧ reported o v c.
Proof.
  intros Hvars Hlen. induction Hvars as [|v vars Hv _ (d & Hd & IH)]; simpl.
  { exists ∅. split; [done|]. by intros ? ?%elem_of_nil. }
  destruct (index_of_elem v _ Hv) as [i Hi]. rewrite Hi.
  destruct (lookup_lt_is_Some_2 (cardinality o) i) as [c Hc].
  { apply index_of_lt in Hi. lia. }
  rewrite Hc, Hd. simpl. exists (<[v:=c]> d). split; [done|].
  intros v' Hv'. destruct (decide (v' = v)) as [->|Hne].
  - exists c. rewrite lookup_insert_eq. split; [done|]. by exists i.
  - rewrite lookup_insert_ne by done. apply IH.
    apply elem_of_cons in Hv' as [?|?]; done.
Qed.

Lemma Forall2_impl_elem {A B} (P Q : A → B → Prop) (l : list A) (k : list B) :
  Forall2 P l k → (∀ x y, x ∈ l → P x y → Q x y) → Forall2 Q l k.
Proof.
  induction 1 as [|x y l k HP _ IH]; intros HPQ; constructor.
  - apply HPQ; [by left|done].
  - apply IH. intros ????. apply HPQ; [by right|done].
Qed.

(** ** add_new_variables_from_other_factor *)

Lemma wp_add_new (order : SetIteration) σ self other f o a
    (Q : () → store → Prop) E :
  factors σ !! self = Some f → factors σ !! other = Some o → self ≠ other →
  buffer σ f = Some a →
  length (variables f) ≤ np.ndim a →
  length (variables o) ≤ length (cardinality o) →
  (∀ σ' f' cards,
     Forall2 (reported o) (iter_difference order (variables o) (variables f)) cards →
     variables f' = variables f ++ iter_difference order (variables o) (variables f) →
     cardinality f' = cardinality f ++ cards →
     state_names f' = state_names f →
     buffer σ' f' = Some (with_new_axes a (length (variables f))
        (length (iter_difference order (variables o) (variables f)))) →
     factors σ' = <[self:=f']> (factors σ) →
     arrays σ ⊆ arrays σ' → label_lists σ' = label_lists σ → dicts σ' = dicts σ →
     Q () σ') →
  wp (add_new_variables_from_other_factor order self other) σ Q E.
Proof.
  intros Hf Ho Hne Hbuf Hn Hlen HQ. unfold add_new_variables_from_other_factor.
  apply wp_bind. eapply wp_read_factor; [done|].
  apply wp_bind. eapply wp_read_factor; [done|].
  set (extra_vars := iter_difference order (variables o) (variables f)) in *.
  case_decide as Hextra.
  { apply wp_ret. apply length_zero_iff_nil in Hextra.
    apply (HQ σ f []); rewrite ?Hextra, ?app_nil_r; try done;
      try (by constructor); try (by rewrite insert_id).
    rewrite Hbuf. f_equal. unfold with_new_axes. simpl.
    rewrite take_drop. by destruct a. }
  apply wp_bind. eapply wp_values_array; [done..|].
  apply wp_bind, wp_lift. unfold np.index_newaxis. rewrite decide_True by done.
  apply wp_bind, wp_alloc_array. intros l Hl.
  apply wp_bind. eapply wp_modify_factor; [done|].
  apply wp_bind. eapply wp_modify_factor; [by apply lookup_insert_eq|].
  destruct (cardinality_dict_Ok o extra_vars) as (d & Hd & Hdv); [|done|].
  { apply Forall_forall. intros v Hv. by apply (iter_difference_elem order) in Hv as [? _]. }
  apply wp_bind. unfold get_cardinality.
  apply wp_bind. eapply wp_read_factor.
  { simpl. rewrite !lookup_insert_ne by done. done. }
  apply wp_lift. rewrite Hd.
  apply wp_bind, wp_mapM_option.
  2:{ intros v Hv Hnone. destruct (Hdv v Hv) as (c & ? & _). congruence. }
  intros cards Hcards.
  eapply wp_modify_factor; [by apply lookup_insert_eq|].
  apply (HQ _ (mkFactor (variables f ++ extra_vars) (cardinality f ++ cards) (Some l)
                        (state_names f)) cards); simpl; try done.
  - eapply Forall2_impl_elem; [exact Hcards|]. intros v c Hv Hc. simpl in Hc.
    destruct (Hdv v Hv) as (c' & ? & ?). congruence.
  - unfold buffer. simpl. by rewrite lookup_insert_eq.
  - by rewrite !insert_insert_eq.
  - by apply insert_subseteq.
Qed.

(** ** np.moveaxis *)

Lemma moveaxis_Ok a dest :
  Forall (λ i, i < np.ndim a) dest → NoDup dest → length dest = np.ndim a →
  np.moveaxis a (seq 0 (np.ndim a)) dest
  = Ok (np.transpose a (np.moveaxis_order (np.ndim a) (seq 0 (np.ndim a)) dest)).
Proof.
  intros Hlt Hnd Hlen. unfold np.moveaxis, np.normalize_axis_tuple.
  rewrite decide_True.
  2:{ apply Forall_forall. intros i ?%elem_of_seq. lia. }
  rewrite decide_True by apply NoDup_seq. simpl.
  rewrite decide_True by done. rewrite decide_True by done. simpl.
  rewrite decide_True; [done|]. by rewrite length_seq.
Qed.

(** ** The scope of a product *)

Section scopes.
Context (order : SetIteration) (A B : list string).
Hypothesis HA : NoDup A.
Hypothesis HB : NoDup B.

Lemma elem_of_left_scope x : x ∈ left_scope order A B ↔ x ∈ A ∨ x ∈ B.
Proof.
  unfold left_scope. rewrite elem_of_app, iter_difference_elem.
  destruct (decide (x ∈ A)); tauto.
Qed.

Lemma elem_of_right_scope x : x ∈ right_scope order A B ↔ x ∈ A ∨ x ∈ B.
Proof.
  unfold right_scope. rewrite elem_of_app, iter_difference_elem, elem_of_left_scope.
  destruct (decide (x ∈ B)); tauto.
Qed.

Lemma NoDup_left_scope : NoDup (left_scope order A B).
Proof using HA.
  apply NoDup_app. split_and!; [done| |apply iter_difference_NoDup].
  intros x ? [_ ?]%iter_difference_elem. done.
Qed.

Lemma NoDup_right_scope : NoDup (right_scope order A B).
Proof using HB.
  apply NoDup_app. split_and!; [done| |apply iter_difference_NoDup].
  intros x ? [_ ?]%iter_difference_elem. done.
Qed.

Lemma scopes_Permutation : left_scope order A B ≡ₚ right_scope order A B.
Proof using HA HB.
  apply NoDup_Permutation; [apply NoDup_left_scope|apply NoDup_right_scope|].
  intros x. by rewrite elem_of_left_scope, elem_of_right_scope.
Qed.
End scopes.

Lemma well_formed_extends σ σ' f : extends σ σ' → well_formed σ f → well_formed σ' f.
Proof.
  intros Hext ([Hcv Hcs] & Hnd & Hlen & a & Hbuf & Hwf & Hsh).
  destruct (view_extends σ σ' f (conj Hcv Hcs) Hext) as [Hb _].
  split_and!; try done.
  - split.
    + intros l Hl. destruct (Hcv l Hl) as [x Hx]. exists x. by eapply extends_arrays.
    + intros d Hd. destruct (Hcs d Hd) as (m & Hm & Hdc). exists m.
      split; [by eapply extends_dicts|]. intros k l Hk.
      destruct (Hdc k l Hk) as [xs Hxs]. exists xs. by eapply extends_labels.
  - exists a. by rewrite Hb.
Qed.

Lemma well_formed_ndim σ f a :
  well_formed σ f → buffer σ f = Some a → np.ndim a = length (variables f).
Proof.
  intros (_ & _ & Hlen & a' & Ha' & _ & Hsh) Ha. simplify_eq.
  unfold np.ndim. by rewrite Hlen, <-Hsh, length_fmap.
Qed.

Lemma ndim_with_new_axes a n k : n ≤ np.ndim a → np.ndim (with_new_axes a n k) = np.ndim a + k.
Proof.
  intros Hn. unfold np.ndim, with_new_axes in *. simpl.
  rewrite !length_app, length_take, length_replicate, length_drop. lia.
Qed.

Lemma broadcast_rev_raises s1 s2 e : np.broadcast_rev s1 s2 = Raise e → e = BroadcastError.
Proof.
  revert s2. induction s1 as [|n1 s1 IH]; intros [|n2 s2]; simpl; try done.
  destruct (np.broadcast_rev s1 s2) as [s|e'] eqn:Hr; simpl.
  - repeat case_decide; congruence.
  - intros [= <-]. by eapply IH.
Qed.

Lemma multiply_raises a b e : np.multiply a b = Raise e → e = BroadcastError.
Proof.
  unfold np.multiply, np.broadcast_shapes.
  destruct (np.broadcast_rev _ _) as [s|e'] eqn:Hr; simpl; [done|].
  intros [= <-]. by eapply broadcast_rev_raises.
Qed.

Lemma length_list_insert_at {A} i (x : A) l : length (list_insert_at i x l) = Datatypes.S (length l).
Proof.
  unfold list_insert_at. rewrite length_app. simpl.
  rewrite <-(take_drop i l) at 3. rewrite length_app. lia.
Qed.

Lemma length_foldl_insert (ps : list (nat * nat)) init :
  length (foldl (λ order p, list_insert_at p.1 p.2 order) init ps)
  = length init + length ps.
Proof.
  revert init. induction ps as [|p ps IH]; intros init; simpl; [lia|].
  rewrite IH, length_list_insert_at. lia.
Qed.

Lemma filter_none {A} (P : A → Prop) `{∀ x, Decision (P x)} (l : list A) :
  Forall (λ x, ¬ P x) l → filter P l = [].
Proof. induction 1 as [|x l Hx _ IH]; [done|]. by rewrite filter_cons_False. Qed.

Lemma length_broadcast_rev s1 s2 s :
  np.broadcast_rev s1 s2 = Ok s → length s = length s1 `max` length s2.
Proof.
  revert s2 s. induction s1 as [|n1 s1 IH]; intros [|n2 s2] s; simpl.
  - by intros [= <-].
  - by intros [= <-].
  - by intros [= <-].
  - destruct (np.broadcast_rev s1 s2) as [s'|] eqn:Hr; simpl; [|done].
    specialize (IH _ _ Hr). repeat case_decide; intros [= <-]; simpl; lia.
Qed.

Lemma ndim_multiply a b c :
  np.multiply a b = Ok c → np.ndim c = np.ndim a `max` np.ndim b.
Proof.
  unfold np.multiply, np.broadcast_shapes, np.ndim.
  destruct (np.broadcast_rev _ _) as [s|] eqn:Hr; simpl; [|done].
  intros [= <-]. simpl. apply length_broadcast_rev in Hr.
  by rewrite !length_reverse in *.
Qed.

Lemma length_moveaxis_order n dest :
  length dest = n → length (np.moveaxis_order n (seq 0 n) dest) = n.
Proof.
  intros Hlen. unfold np.moveaxis_order. rewrite length_foldl_insert.
  rewrite (Permutation_length (merge_sort_Permutation _ _)).
  rewrite length_zip, length_seq, Hlen, Nat.min_id.
  rewrite filter_none; [done|]. apply Forall_forall. tauto.
Qed.

Lemma wp_product_factor (order : SetIteration) σ self other fA fB :
  factors σ !! self = Some fA → factors σ !! other = Some fB →
  well_formed σ fA → well_formed σ fB →
  wp (product order self (Instance other)) σ
    (λ r σ', ∃ l p prod, r = Product l ∧ factors σ !! l = None ∧
                    factors σ' !! l = Some p ∧
                    variables p = left_scope order (variables fA) (variables fB) ∧
                    buffer σ' p = Some prod ∧ np.ndim prod = length (variables p) ∧
                    extends σ σ')
    (λ e σ', e = BroadcastError ∧ extends σ σ').
Proof.
  intros HfA HfB HwA HwB. unfold product.
  pose proof HwA as (HclA & HndA & HlenA & aA & HbufA & HwfA & HshA).
  pose proof HwB as (HclB & HndB & HlenB & aB & HbufB & HwfB & HshB).
  (* left = self.copy() *)
  destruct (copy_returns σ self fA HfA HclA) as
    (left & σ1 & fl & Hrun1 & Hleft & Hfl & Hext1 & Hvl & Hcl & Hbl & _ & Hcll & _).
  { intros a Ha. by simplify_eq. }
  apply wp_bind. unfold wp at 1. rewrite Hrun1.
  (* right = other.copy() *)
  assert (factors σ1 !! other = Some fB) as HfB1 by (by eapply extends_factors).
  pose proof (well_formed_extends σ σ1 fB Hext1 HwB) as (HclB1 & _ & _ & aB1 & HbufB1 & HwfB1 & HshB1).
  destruct (copy_returns σ1 other fB HfB1 HclB1) as
    (right & σ2 & fr & Hrun2 & Hright & Hfr & Hext2 & Hvr & Hcr & Hbr & _ & Hclr & _).
  { intros a Ha. by simplify_eq. }
  apply wp_bind. unfold wp at 1. rewrite Hrun2.
  assert (factors σ2 !! left = Some fl) as Hfl2 by (by eapply extends_factors).
  assert (left ≠ right) as Hlr by congruence.
  assert (buffer σ2 fl = Some aA) as Hbl2.
  { destruct (view_extends σ1 σ2 fl Hcll Hext2) as [-> _]. congruence. }
  assert (buffer σ2 fr = Some aB) as Hbr2.
  { rewrite Hbr, HbufB1. destruct (view_extends σ σ1 fB HclB Hext1) as [Hx _]. congruence. }
  assert (np.ndim aA = length (variables fA)) as HndimA by (by eapply well_formed_ndim).
  assert (np.ndim aB = length (variables fB)) as HndimB by (by eapply well_formed_ndim).
  (* left.add_new_variables_from_other_factor(right) *)
  apply wp_bind. eapply (wp_add_new order σ2 left right fl fr aA); try done.
  { rewrite Hvl. lia. }
  { rewrite Hvr, Hcr. lia. }
  rewrite Hvl, Hvr.
  intros σ3 fl' cards1 Hcards1 Hvl' Hcl' _ Hbl' Hfs3 Ha3 Hl3 Hd3.
  assert (factors σ3 !! left = Some fl') as Hfl3 by (by rewrite Hfs3, lookup_insert_eq).
  assert (factors σ3 !! right = Some fr) as Hfr3 by (by rewrite Hfs3, lookup_insert_ne).
  assert (buffer σ3 fr = Some aB) as Hbr3.
  { unfold buffer in *. destruct (_values fr) as [l|]; [|done]. simpl in *.
    by eapply lookup_weaken. }
  (* right.add_new_variables_from_other_factor(left) *)
  apply wp_bind. eapply (wp_add_new order σ3 right left fr fl' aB); try done.
  { rewrite Hvr. lia. }
  { rewrite Hvl', Hcl', !length_app, Hcl. apply Forall2_length in Hcards1. lia. }
  rewrite Hvl', Hvr.
  fold (left_scope order (variables fA) (variables fB)).
  fold (right_scope order (variables fA) (variables fB)).
  intros σ4 fr' cards2 Hcards2 Hvr' Hcr' _ Hbr' Hfs4 Ha4 Hl4 Hd4.
  fold (right_scope order (variables fA) (variables fB)) in Hvr'.
  set (L := left_scope order (variables fA) (variables fB)) in *.
  set (R := right_scope order (variables fA) (variables fB)) in *.
  assert (factors σ4 !! right = Some fr') as Hfr4 by (by rewrite Hfs4, lookup_insert_eq).
  assert (factors σ4 !! left = Some fl') as Hfl4 by (by rewrite Hfs4, lookup_insert_ne).
  assert (buffer σ4 fl' = Some (with_new_axes aA (length (variables fA))
            (length (iter_difference order (variables fB) (variables fA))))) as Hbl4.
  { unfold buffer in *. destruct (_values fl') as [l|]; [|done]. simpl in *.
    by eapply lookup_weaken. }
  assert (L ≡ₚ R) as HLR by (by apply scopes_Permutation).
  (* reorder variables in right factor to match order in left *)
  apply wp_bind. eapply wp_values_array; [done..|].
  set (aR := with_new_axes aB _ _).
  assert (np.ndim aR = length R) as HndimR.
  { subst aR. rewrite ndim_with_new_axes by lia. subst R. unfold right_scope.
    rewrite length_app. fold L. lia. }
  apply wp_bind. eapply wp_read_factor; [done|].
  apply wp_bind. eapply wp_read_factor; [done|].
  rewrite Hvl', Hvr'.
  apply wp_bind, wp_mapM_option.
  2:{ intros v Hv Hnone. apply index_of_None in Hnone. destruct Hnone.
      by rewrite <-HLR. }
  intros dest Hdest.
  assert (Forall (λ i, i < length R) dest) as Hdlt by (by eapply positions_lt).
  apply wp_bind, wp_mapM_option.
  2:{ intros i Hi Hnone. apply lookup_ge_None in Hnone.
      rewrite Forall_forall in Hdlt. specialize (Hdlt i Hi). lia. }
  intros rvars Hrvars.
  apply wp_bind. eapply wp_modify_factor; [done|]. set (σ5 := mkStore _ _ _ _).
  (* rearrange values in right factor *)
  apply wp_bind. eapply (wp_values_array σ5 right _ aR); [by apply lookup_insert_eq|done|].
  apply wp_bind, wp_lift. rewrite moveaxis_Ok.
  2:{ by rewrite HndimR. }
  2:{ eapply positions_NoDup; [done|]. by apply NoDup_left_scope. }
  2:{ apply Forall2_length in Hdest. rewrite <-Hdest, HndimR.
      by apply Permutation_length. }
  apply wp_bind, wp_alloc_array. intros lm Hlm. set (σ6 := mkStore _ _ _ _).
  apply wp_bind. eapply wp_modify_factor; [by apply lookup_insert_eq|].
  set (σ7 := mkStore _ _ _ _).
  assert (extends σ σ4) as Hext4.
  { destruct Hext1 as (?&?&?&?), Hext2 as (?&?&?&?). split_and!.
    - do 3 (etrans; [eassumption|]). done.
    - rewrite Hl4, Hl3. by etrans.
    - rewrite Hd4, Hd3. by etrans.
    - rewrite Hfs4, Hfs3. apply insert_subseteq_r.
      { destruct (factors σ !! right) eqn:Er; [|done].
        assert (factors σ1 !! right = Some f) by (by eapply lookup_weaken). congruence. }
      apply insert_subseteq_r; [done|]. by etrans. }
  assert (factors σ !! right = None) as Hright0.
  { destruct (factors σ !! right) eqn:Er; [|done].
    assert (factors σ1 !! right = Some f) by (by eapply extends_factors). congruence. }
  assert (extends σ σ7) as Hext7.
  { subst σ7. apply extends_modify; [done|]. subst σ6.
    etrans; [|by apply extends_alloc_array]. subst σ5. by apply extends_modify. }
  apply wp_bind. eapply (wp_values_array σ7 left fl').
  { subst σ7 σ6 σ5. simpl. by rewrite !lookup_insert_ne. }
  { unfold buffer in *. destruct (_values fl') as [l|]; [|done]. simpl in *.
    apply lookup_insert_Some. right. split; [|done]. intros ->. congruence. }
  apply wp_bind. eapply wp_values_array; [by apply lookup_insert_eq| |].
  { unfold buffer. simpl. by rewrite lookup_insert_eq. }
  apply wp_bind, wp_lift.
  destruct (np.multiply _ _) as [prod|e] eqn:Hmul.
  2:{ split; [|done]. by eapply multiply_raises. }
  apply wp_bind, wp_alloc_array. intros lp Hlp. set (σ8 := mkStore _ _ _ _).
  apply wp_bind. eapply wp_modify_factor.
  { subst σ8 σ7 σ6 σ5. simpl. by rewrite !lookup_insert_ne. }
  apply wp_ret. exists left, (set_values (Some lp) fl'), prod.
  split_and!; try done.
  - simpl. by rewrite lookup_insert_eq.
  - unfold buffer. simpl. by rewrite lookup_insert_eq.
  - simpl. rewrite (ndim_multiply _ _ _ Hmul), Hvl'.
    rewrite ndim_with_new_axes by lia.
    unfold np.transpose, np.ndim at 2. simpl. rewrite length_fmap.
    rewrite length_moveaxis_order.
    + rewrite HndimR, HndimA. fold L. rewrite <-(Permutation_length HLR).
      subst L. unfold left_scope. rewrite length_app. lia.
    + apply Forall2_length in Hdest. rewrite <-Hdest, HndimR.
      by apply Permutation_length.
  - apply extends_modify; [done|]. etrans; [exact Hext7|].
    by apply extends_alloc_array.
Qed.

Lemma reshape_shape a c a' :
  Forall (λ d, 0 ≤ d)%Z c → np.reshape a c = Ok a' → Z.of_nat <$> np.shape a' = c.
Proof.
  intros Hc. rewrite reshape_nonneg by done. case_decide; [|done].
  intros [= <-]. simpl. by apply of_nat_to_nat.
Qed.

Lemma invariant_of_shape σ f :
  NoDup (variables f) → length (variables f) = length (cardinality f) →
  (∀ a, buffer σ f = Some a → Z.of_nat <$> np.shape a = cardinality f) →
  invariant σ f.
Proof.
  intros Hnd Hlen Hsh. split_and!; try done. intros a Ha.
  specialize (Hsh a Ha). split; [|done].
  unfold np.ndim. by rewrite Hlen, <-Hsh, length_fmap.
Qed.

Local Open Scope string_scope.

Lemma iter_difference_singleton (order : SetIteration) a b z :
  (∀ x, x ∈ a ∧ x ∉ b ↔ x = z) → iter_difference order a b = [z].
Proof.
  intros H. pose proof (iter_difference_NoDup order a b) as Hnd.
  assert (∀ x, x ∈ iter_difference order a b ↔ x = z) as Hin.
  { intros x. by rewrite iter_difference_elem. }
  destruct (iter_difference order a b) as [|y l].
  { exfalso. eapply not_elem_of_nil. by apply (Hin z). }
  assert (y = z) as -> by (apply Hin; by left).
  destruct l as [|y' l]; [done|]. exfalso.
  assert (y' = z) as -> by (apply Hin; right; by left).
  apply NoDup_cons in Hnd as [Hnot _]. apply Hnot. by left.
Qed.

Lemma iter_difference_nil (order : SetIteration) a b :
  (∀ x, x ∈ a → x ∈ b) → iter_difference order a b = [].
Proof.
  intros H. destruct (iter_difference order a b) as [|y l] eqn:E; [done|]. exfalso.
  assert (y ∈ iter_difference order a b) as Hy by (rewrite E; by left).
  apply iter_difference_elem in Hy as [? ?]. auto.
Qed.

Lemma bind_congr {A B} (m m' : M A) (k k' : A → M B) σ :
  m σ = m' σ → (∀ a σ', m' σ = (Ok a, σ') → k a σ' = k' a σ') →
  bind m k σ = bind m' k' σ.
Proof.
  intros Hm Hk. unfold bind. rewrite Hm.
  destruct (m' σ) as [[a|e] σ'] eqn:E; [by apply Hk|done].
Qed.

Lemma read_factor_run l σ f σ' :
  read_factor l σ = (Ok f, σ') → factors σ !! l = Some f ∧ σ' = σ.
Proof.
  unfold read_factor. destruct (factors σ !! l); simpl; [|done]. by intros [= <- <-].
Qed.

(** The set iteration matters to [add_new_variables_from_other_factor] only
    at the two scopes. *)
Lemma add_new_ext (order order' : SetIteration) self other σ f o :
  factors σ !! self = Some f → factors σ !! other = Some o →
  iter_difference order (variables o) (variables f)
    = iter_difference order' (variables o) (variables f) →
  add_new_variables_from_other_factor order self other σ
  = add_new_variables_from_other_factor order' self other σ.
Proof.
  intros Hf Ho H. unfold add_new_variables_from_other_factor.
  apply bind_congr; [done|]. intros f' σ1 [Hf' ->]%read_factor_run.
  apply bind_congr; [done|]. intros o' σ2 [Ho' ->]%read_factor_run.
  simplify_eq. by rewrite H.
Qed.

Lemma difference_yzx_xy (order : SetIteration) :
  iter_difference order ["y"; "z"; "x"] ["x"; "y"] = ["z"].
Proof.
  apply iter_difference_singleton. intros x.
  rewrite !elem_of_cons, !elem_of_nil. split; [|intros ->].
  - intros [[->|[->|[->|[]]]] Hn]; try done; destruct Hn; auto.
  - split; [auto|]. intros [?|[?|[]]]; done.
Qed.

Lemma difference_xyz_yzx (order : SetIteration) :
  iter_difference order ["x"; "y"; "z"] ["y"; "z"; "x"] = [].
Proof. apply iter_difference_nil. intros x. rewrite !elem_of_cons. tauto. Qed.

(** A product of a factor over [x], [y] with a factor over [y], [z], [x]
    iterates over the sets [{z}] and [{}], which have one order. *)
Ltac one_order :=
  let left := fresh "left" in
  let right := fresh "right" in
  let Hleft := fresh "Hleft" in
  let Hright := fresh "Hright" in
  let Hrun := fresh "Hrun" in
  unfold product;
  apply bind_congr; [done|]; intros left ? Hleft;
  apply bind_congr; [done|]; intros right ? Hright;
  vm_compute in Hleft; injection Hleft as <- <-;
  vm_compute in Hright; injection Hright as <- <-;
  apply bind_congr;
  [ eapply add_new_ext; [by vm_compute..|]; apply difference_yzx_xy |];
  intros [] ? Hrun; vm_compute in Hrun; injection Hrun as <-;
  apply bind_congr; [|done];
  eapply add_new_ext; [by vm_compute..|]; apply difference_xyz_yzx.

Lemma product_xy_yzx_order (order : SetIteration) σ self other :
  factor_xy empty_store = (Ok self, σ) → ∀ σ',
  factor_yzx σ = (Ok other, σ') →
  product order self (Instance other) σ' = product insertion_order self (Instance other) σ'.
Proof. intros [= <- <-] σ' [= <- <-]. one_order. Qed.

Lemma product_xy_yzx (order : SetIteration) :
  (product_of order factor_xy factor_yzx empty_store).1
  = Ok (["x"; "y"; "z"], [2; 2; 2]%Z, np.mk [2; 2; 2] [1; 5; 4; 12; 9; 21; 16; 32]%Z).
Proof.
  transitivity ((product_of insertion_order factor_xy factor_yzx empty_store).1);
    [|by vm_compute].
  f_equal. unfold product_of.
  apply bind_congr; [done|]. intros a σ1 Ha.
  apply bind_congr; [done|]. intros b σ2 Hb.
  apply bind_congr; [|done]. by eapply product_xy_yzx_order.
Qed.

Lemma product_xy_yzx_322_order (order : SetIteration) σ self other :
  factor_xy_23 empty_store = (Ok self, σ) → ∀ σ',
  factor_yzx_322 σ = (Ok other, σ') →
  product order self (Instance other) σ' = product insertion_order self (Instance other) σ'.
Proof. intros [= <- <-] σ' [= <- <-]. one_order. Qed.

Lemma store_1_factor : factors store_1 !! F_1 = Some instance_1.
Proof. by vm_compute. Qed.

Lemma store_1_buffer : buffer store_1 instance_1 = Some buffer_1.
Proof. by vm_compute. Qed.

Lemma store_1_closed : closed store_1 instance_1.
Proof.
  split.
  - intros l [= <-]. eexists. by vm_compute.
  - intros d [= <-]. exists (<["A":=1%positive]> (<["B":=2%positive]> ∅)).
    split; [by vm_compute|].
    intros k l [[_ <-]|[_ [[_ <-]|[_ ?]]%lookup_insert_Some]]%lookup_insert_Some;
      [eexists; by vm_compute..|done].
Qed.

Lemma store_1_well_formed : well_formed store_1 instance_1.
Proof.
  split_and!.
  - apply store_1_closed.
  - compute_done.
  - done.
  - exists buffer_1. split_and!; [apply store_1_buffer|done..].
Qed.


(** * The specification, property by property *)

Local Open Scope string_scope.

(** The third scenario of the spec, [F * C] with [F] over [A], [B] and [C] over
    [C], in a run whose set iteration yields [A] before [B]: the buffer has
    the shape (2, 2, 1) and holds [F[a,b] * C[b]]. *)
Lemma scenario_3_insertion_order :
  (product_of insertion_order scenario_F scenario_C empty_store).1
  = Ok (["A"; "B"; "C"], [2; 2; 2]%Z, np.mk [2; 2; 1] [10; 40; 30; 80]%Z).
Proof. by vm_compute. Qed.

(** The same product in a run whose set iteration yields [B] before [A]: the
    buffer has the shape (2, 2, 2) and holds [F[a,b] * C[c]]. *)
Lemma scenario_3_reverse_order :
  (product_of reverse_order scenario_F scenario_C empty_store).1
  = Ok (["A"; "B"; "C"], [2; 2; 2]%Z,
        np.mk [2; 2; 2] [10; 20; 20; 40; 30; 60; 40; 80]%Z).
Proof. by vm_compute. Qed.

(** C1 (product value law), evaluated at a failing input.  For
    [A = DiscreteFactor(['x','y'], [2,2], [1,2,3,4])] and
    [B = DiscreteFactor(['y','z','x'], [2,2,2], [1,...,8])], in every run,
    [product] returns a factor over [x], [y], [z] whose entry at
    [x=0, y=0, z=1] is 5, while [A[x=0,y=0] * B[y=0,z=1,x=0]] is 3:
    [np.moveaxis(right.values, source_axes, destination_axes)] moves axis [i]
    of the right buffer to the position [destination_axes[i]], the inverse of
    the permutation that [right.variables] is reordered by. *)
Theorem product_value_law_fails (order : SetIteration) :
  let A := np.mk [2; 2] [1; 2; 3; 4]%Z in
  let B := np.mk [2; 2; 2] [1; 2; 3; 4; 5; 6; 7; 8]%Z in
  let x := λ v : string, if decide (v = "z") then 1 else 0 in
  ∃ prod,
    (product_of order factor_xy factor_yzx empty_store).1
      = Ok (["x"; "y"; "z"], [2; 2; 2]%Z, prod) ∧
    value_at ["x"; "y"; "z"] prod x = 5%Z ∧
    (value_at ["x"; "y"] A x * value_at ["y"; "z"; "x"] B x)%Z = 3%Z.
Proof.
  eexists. split; [apply product_xy_yzx|]. by vm_compute.
Qed.


(** C2, the product: for [x] of cardinality 2 and [y], [z] of cardinality 1,
    the product of a factor over [x], [y] and a factor over [y], [z], [x] has
    the cardinalities [2, 1, 1] and a buffer of shape (2, 2, 1). *)
Lemma product_shape_mismatch :
  (product_of insertion_order
     (__init__ ["x"; "y"] [2; 1]%Z (Some (FromList [1; 2]%Z)) None)
     (__init__ ["y"; "z"; "x"] [1; 1; 2]%Z (Some (FromList [1; 2]%Z)) None)
     empty_store).1
  = Ok (["x"; "y"; "z"], [2; 1; 1]%Z, np.mk [2; 2; 1] [1; 2; 2; 4]%Z).
Proof. by vm_compute. Qed.






(** C4 (clone independence).  [copy] of a factor of the store whose buffer, if
    it has one, has the shape of its cardinalities returns a new instance that
    reads as the original and owns no object of it: its buffer, its
    dictionary of labels and the label lists of that dictionary are new.
    [update_values] on either of the two, whatever it is given and whatever
    it returns, and any writes through the objects of either of the two,
    leave the other with its attributes, its buffer and its labels. *)
Theorem copy_shares_no_state σ self f :
  factors σ !! self = Some f → closed σ f → buffer_shaped σ f →
  ∃ c σ1 fc,
    copy self σ = (Ok c, σ1) ∧ factors σ1 !! c = Some fc ∧ c ≠ self ∧
    (* the clone reads as F, and F is as it was *)
    variables fc = variables f ∧ cardinality fc = cardinality f ∧
    buffer σ1 fc = buffer σ f ∧ (∀ v, labels σ1 fc v = labels σ f v) ∧
    extends σ σ1 ∧
    (* no object belongs to both *)
    (∀ l, owns_array fc l → ¬ owns_array f l) ∧
    (∀ d, owns_dict fc d → ¬ owns_dict f d) ∧
    (∀ l, owns_labels σ1 fc l → ¬ owns_labels σ1 f l) ∧
    (* update_values on one leaves the other *)
    (∀ new_values r σ2, update_values c new_values σ1 = (r, σ2) →
       factors σ2 !! self = Some f ∧ buffer σ2 f = buffer σ f ∧
       ∀ v, labels σ2 f v = labels σ f v) ∧
    (∀ new_values r σ2, update_values self new_values σ1 = (r, σ2) →
       factors σ2 !! c = Some fc ∧ buffer σ2 fc = buffer σ1 fc ∧
       ∀ v, labels σ2 fc v = labels σ1 fc v) ∧
    (* writes through one leave the other *)
    (∀ σ2, mutation_of σ1 c fc σ2 →
       factors σ2 !! self = Some f ∧ buffer σ2 f = buffer σ f ∧
       ∀ v, labels σ2 f v = labels σ f v) ∧
    (∀ σ2, mutation_of σ1 self f σ2 →
       factors σ2 !! c = Some fc ∧ buffer σ2 fc = buffer σ1 fc ∧
       ∀ v, labels σ2 fc v = labels σ1 fc v).
Proof.
  intros Hf Hcl Hsh.
  destruct (copy_returns σ self f Hf Hcl Hsh)
    as (c & σ1 & fc & Hrun & Hc & Hfc & Hext & Hvars & Hcard & Hbuf & Hlab & Hclc
        & Hoa & Hod & Hol).
  destruct (closed_owns σ f Hcl) as (Hfa & Hfd & Hfl).
  destruct (view_extends σ σ1 f Hcl Hext) as [Hbuf1 Hlab1].
  assert (factors σ1 !! self = Some f) as Hf1 by (by eapply extends_factors).
  assert (closed σ1 f) as Hcl1.
  { destruct Hcl as [Hcv Hcs]. split.
    - intros l Hl. destruct (Hcv l Hl) as [a Ha]. exists a. by eapply extends_arrays.
    - intros d Hd. destruct (Hcs d Hd) as (m & Hm & Hdc). exists m.
      split; [by eapply extends_dicts|]. intros k l Hk.
      destruct (Hdc k l Hk) as [xs Hxs]. exists xs. by eapply extends_labels. }
  assert (c ≠ self) as Hne by congruence.
  assert (∀ l, owns_array fc l → ¬ owns_array f l) as Hda.
  { intros l H1 H2. destruct (Hfa l H2) as [a Ha]. rewrite (Hoa l H1) in Ha. done. }
  assert (∀ d, owns_dict fc d → ¬ owns_dict f d) as Hdd.
  { intros d H1 H2. destruct (Hfd d H2) as [a Ha]. rewrite (Hod d H1) in Ha. done. }
  assert (∀ l, owns_labels σ1 fc l → ¬ owns_labels σ1 f l) as Hdl.
  { intros l H1 H2. destruct (Hfl σ1 Hext l H2) as [a Ha]. rewrite (Hol l H1) in Ha. done. }
  exists c, σ1, fc. split_and!; try done.
  - intros new_values r σ2 Hup.
    destruct (update_values_frame σ1 c new_values r σ2 fc Hfc Hup) as (Hfs & Ha & Hd & Hl).
    destruct (frame_other σ1 σ2 f Hcl1 Ha Hd Hl) as [Hb2 Hl2].
    split_and!.
    + rewrite Hfs by done. done.
    + congruence.
    + intros v. by rewrite Hl2.
  - intros new_values r σ2 Hup.
    destruct (update_values_frame σ1 self new_values r σ2 f Hf1 Hup) as (Hfs & Ha & Hd & Hl).
    destruct (frame_other σ1 σ2 fc Hclc Ha Hd Hl) as [Hb2 Hl2].
    split_and!; [|done..]. rewrite Hfs by done. done.
  - intros σ2 (Hmf & Hma & Hmd & Hml).
    destruct (view_frame σ1 σ2 f) as [Hb2 Hl2].
    + intros l Hl. apply Hma. intros Hl'. by eapply Hda.
    + intros d Hd. apply Hmd. intros Hd'. by eapply Hdd.
    + intros l Hl. apply Hml. intros Hl'. by eapply Hdl.
    + split_and!.
      * rewrite Hmf by done. done.
      * congruence.
      * intros v. by rewrite Hl2.
  - intros σ2 (Hmf & Hma & Hmd & Hml).
    destruct (view_frame σ1 σ2 fc) as [Hb2 Hl2].
    + intros l Hl. apply Hma. intros Hl'. by eapply Hda.
    + intros d Hd. apply Hmd. intros Hd'. by eapply Hdd.
    + intros l Hl. apply Hml. intros Hl'. by eapply Hdl.
    + split_and!; [|done..]. rewrite Hmf by done. done.
Qed.

(** C4, witness: the copy of the factor of the first scenario, which has
    state labels. *)
Lemma copy_shares_no_state_witness :
  ∃ c σ, copy F_1 store_1 = (Ok c, σ) ∧ c ≠ F_1 ∧ extends store_1 σ.
Proof.
  destruct (copy_shares_no_state store_1 F_1 instance_1)
    as (c & σ & fc & Hrun & _ & Hne & _ & _ & _ & _ & Hext & _).
  - apply store_1_factor.
  - apply store_1_closed.
  - intros a Ha. rewrite store_1_buffer in Ha. injection Ha as <-. done.
  - exists c, σ. split_and!; [exact Hrun|exact Hne|exact Hext].
Defined.

(** C5 (value for an assignment).  For a populated factor with duplicate-free
    variables and, for every variable, a list of labels as long as its axis:
    when the keys of the assignment are not the variables of the scope,
    [get_value_for_state_vector] raises the assertion error (ScopeMismatch);
    when they are and some variable is given a label that is not in its list,
    it raises the [ValueError] of [list.index] (UnknownState); when every
    label is found, it returns the entry of the buffer at the positions of
    the labels.  The store is left as it is. *)
Theorem get_value_for_state_vector_spec σ self f a dict_of_states :
  factors σ !! self = Some f →
  NoDup (variables f) →
  buffer σ f = Some a →
  Forall2 (λ var n, ∃ ls, labels σ f var = Some ls ∧ length ls = n)
          (variables f) (np.shape a) →
  (dom dict_of_states ≠ list_to_set (variables f) →
     get_value_for_state_vector self dict_of_states σ = (Raise ScopeAssertion, σ)) ∧
  (dom dict_of_states = list_to_set (variables f) →
     (∀ var s, var ∈ variables f → unknown_state σ f dict_of_states var s →
        ∃ s', get_value_for_state_vector self dict_of_states σ = (Raise (NotInList s'), σ)) ∧
     (∀ coords, Forall2 (resolves σ f dict_of_states) (variables f) coords →
        get_value_for_state_vector self dict_of_states σ
        = (Ok (np.Scalar (np.get a coords)), σ))).
Proof.
  intros Hf Hnd Hbuf Hlab.
  pose proof (scope_assertion_iff dict_of_states (variables f) Hnd) as Hiff.
  split.
  { intros Hne. unfold get_value_for_state_vector, bind, read_factor. rewrite Hf. simpl.
    rewrite decide_False; [done|]. by rewrite Hiff. }
  intros Hdom.
  assert (Forall (λ var, is_Some (dict_of_states !! var) ∧ is_Some (labels σ f var))
                 (variables f)) as Hall.
  { apply Forall_forall. intros var Hvar. split.
    - apply elem_of_dom. rewrite Hdom. by apply elem_of_list_to_set.
    - apply list_elem_of_lookup in Hvar as [i Hi].
      destruct (Forall2_lookup_l _ _ _ _ _ Hlab Hi) as (n & _ & ls & -> & _). done. }
  pose proof (wp_state_coordinates σ self f dict_of_states (variables f) Hf Hall) as Hloop.
  assert (get_value_for_state_vector self dict_of_states σ =
          bind (state_coordinates self dict_of_states (variables f))
               (λ cs, bind (values_array self) (λ a, lift (np.getitem a cs))) σ) as ->.
  { unfold get_value_for_state_vector, bind at 1, read_factor. rewrite Hf. simpl.
    rewrite decide_True; [done|]. by rewrite Hiff. }
  unfold wp in Hloop.
  destruct (state_coordinates self dict_of_states (variables f) σ)
    as [[coords|e] σ'] eqn:Hrun.
  - destruct Hloop as [-> HF]. split.
    + intros var s Hvar (ls & Hs & Hls & Hnot). exfalso.
      apply list_elem_of_lookup in Hvar as [i Hi].
      destruct (Forall2_lookup_l _ _ _ _ _ HF Hi) as (c & _ & s' & ls' & ? & ? & Hidx).
      simplify_eq. apply index_of_Some in Hidx as [Hidx _].
      apply Hnot. by eapply list_elem_of_lookup_2.
    + intros coords' HF'.
      assert (coords' = coords) as ->.
      { by eapply resolves_functional. }
      rewrite (bind_ok _ _ _ _ _ Hrun).
      rewrite (bind_ok _ _ _ _ _ (values_array_run _ _ _ _ Hf Hbuf)). unfold lift.
      rewrite getitem_in_range; [done|]. by eapply resolves_in_range.
  - destruct Hloop as (-> & var & s & Hvar & Hun & ->). split.
    + intros. exists s. by rewrite (bind_raise _ _ _ _ _ Hrun).
    + intros coords HF. exfalso. destruct Hun as (ls & Hs & Hls & Hnot).
      apply list_elem_of_lookup in Hvar as [i Hi].
      destruct (Forall2_lookup_l _ _ _ _ _ HF Hi) as (c & _ & s' & ls' & ? & ? & Hidx).
      simplify_eq. apply index_of_Some in Hidx as [Hidx _].
      apply Hnot. by eapply list_elem_of_lookup_2.
Qed.

(** C5, witness: the first scenario of the spec, the assignment
    [{A: 'a1', B: 'b0'}] gives 3. *)
Lemma get_value_for_state_vector_witness :
  get_value_for_state_vector F_1 (<["A":="a1"]> (<["B":="b0"]> ∅)) store_1
  = (Ok (np.Scalar 3), store_1).
Proof.
  destruct (get_value_for_state_vector_spec store_1 F_1 instance_1 buffer_1
              (<["A":="a1"]> (<["B":="b0"]> ∅))) as [_ H].
  - apply store_1_factor.
  - compute_done.
  - apply store_1_buffer.
  - repeat constructor; eexists; split; by vm_compute.
  - destruct H as [_ H]; [by vm_compute|].
    apply (H [1; 0]). repeat constructor; eexists _, _; split_and!; by vm_compute.
Defined.

(** C6 (shape mismatch).  With no negative cardinality, [__init__] with a flat
    list of values and [update_values] raise the [ValueError] of [reshape]
    (ShapeMismatch), and leave the store as it is, exactly when the number of
    values is not the product of the cardinalities; otherwise the factor gets
    a buffer with one axis per cardinality, of that extent, whose entry at an
    index tuple is the value at the C-order offset of the tuple: the last
    variable varies fastest.  With as many cardinalities as variables the
    buffer has [len(variables)] axes. *)
Theorem values_reshaped σ vals :
  (∀ vars card sn, Forall (λ c, 0 ≤ c)%Z card →
     match __init__ vars card (Some (FromList vals)) sn σ with
     | (Ok self, σ') =>
         Z.of_nat (length vals) = Zprod card ∧
         ∃ l b, factors σ' !! self = Some (mkFactor vars card (Some l) sn) ∧
                arrays σ' !! l = Some b ∧ holds_flat card vals b ∧
                (length vars = length card → np.ndim b = length vars)
     | (Raise e, σ') =>
         e = ReshapeError ∧ Z.of_nat (length vals) ≠ Zprod card ∧ σ' = σ
     end) ∧
  (∀ self f, factors σ !! self = Some f → Forall (λ c, 0 ≤ c)%Z (cardinality f) →
     match update_values self vals σ with
     | (Ok _, σ') =>
         Z.of_nat (length vals) = Zprod (cardinality f) ∧
         ∃ l b, factors σ' !! self = Some (set_values (Some l) f) ∧
                arrays σ' !! l = Some b ∧ holds_flat (cardinality f) vals b ∧
                (length (variables f) = length (cardinality f) →
                 np.ndim b = length (variables f))
     | (Raise e, σ') =>
         e = ReshapeError ∧ Z.of_nat (length vals) ≠ Zprod (cardinality f) ∧ σ' = σ
     end).
Proof.
  split.
  - intros vars card sn Hc.
    apply (wp___init__ vars card (Some (FromList vals)) sn σ).
    + done.
    + intros a -> Hre. rewrite reshape_nonneg in Hre by done.
      case_decide; [done|]. done.
    + intros c σ' [l'|] Hext Hl Hd Hfresh Hf Hv; [|done].
      destruct Hv as (_ & a & a' & -> & Hre & Ha).
      rewrite reshape_nonneg in Hre by done. case_decide; [|done]. simplify_eq.
      split; [done|]. exists l', (np.mk (Z.to_nat <$> card) vals).
      rewrite Hf, Ha, !lookup_insert_eq. split_and!; try done.
      * by apply holds_flat_mk.
      * intros ->. unfold np.ndim. simpl. by rewrite length_fmap.
  - intros self f Hf Hc.
    apply (wp_update_values σ self f vals); [done| |].
    + intros Hre. rewrite reshape_nonneg in Hre by done.
      case_decide; [done|]. done.
    + intros l a Hl Hre. rewrite reshape_nonneg in Hre by done.
      case_decide; [|done]. simplify_eq. split; [done|].
      exists l, (np.mk (Z.to_nat <$> cardinality f) vals). simpl.
      rewrite !lookup_insert_eq. split_and!; try done.
      * by apply holds_flat_mk.
      * intros ->. unfold np.ndim. simpl. by rewrite length_fmap.
Qed.

(** C6, witness: four values for the cardinalities [2, 2] are accepted, three
    are refused. *)
Lemma values_reshaped_witness :
  ∃ self σ', __init__ ["A"; "B"] [2; 2]%Z (Some (FromList [1; 2; 3; 4]%Z)) None empty_store
             = (Ok self, σ') ∧
  ∃ σ'', __init__ ["A"; "B"] [2; 2]%Z (Some (FromList [1; 2; 3]%Z)) None empty_store
             = (Raise ReshapeError, σ'').
Proof.
  destruct (values_reshaped empty_store [1; 2; 3; 4]%Z) as [H1 _].
  destruct (values_reshaped empty_store [1; 2; 3]%Z) as [H2 _].
  specialize (H1 ["A"; "B"] [2; 2]%Z None). specialize (H2 ["A"; "B"] [2; 2]%Z None).
  destruct (__init__ _ _ (Some (FromList [1; 2; 3; 4]%Z)) _ _) as [[self|e] σ'].
  - exists self, σ'. split; [done|].
    destruct (__init__ _ _ _ _ _) as [[self2|e2] σ''].
    + destruct H2 as [Hcount _]; [repeat constructor; lia|]. by vm_compute in Hcount.
    + exists σ''. destruct H2 as [-> _]; [repeat constructor; lia|]. done.
  - destruct H1 as (_ & Hcount & _); [repeat constructor; lia|]. by vm_compute in Hcount.
Defined.

(** C7 (unknown variable).  [marginalize] raises [ValueError('... not in
    scope')] (UnknownVariable) exactly when some entry of [vars] is not a
    variable of the factor; and whenever it raises, every object that was in
    the store is as it was: the factor has its attributes, its buffer and its
    labels. *)
Theorem marginalize_not_in_scope σ self f vars r σ' :
  factors σ !! self = Some f → closed σ f →
  marginalize self vars σ = (r, σ') →
  ((∃ v, r = Raise (NotInScope v)) ↔ (∃ v, v ∈ vars ∧ v ∉ variables f)) ∧
  (∀ e, r = Raise e →
     extends σ σ' ∧ factors σ' !! self = Some f ∧
     buffer σ' f = buffer σ f ∧ ∀ v, labels σ' f v = labels σ f v).
Proof.
  intros Hf Hcl Hrun.
  pose proof (wp_marginalize σ self f vars Hf Hcl) as H.
  unfold wp in H. rewrite Hrun in H. split.
  - split.
    + intros [v ->]. destruct H as [_ [(v' & _ & ? & ?)|(idxs & _ & Hfail)]]; [eauto|].
      destruct Hfail as [[? _]|[[? _]|(a & _ & [?|?]%sum_raises)]]; done.
    + intros (v & Hv & Hnot). destruct r as [phi|e].
      * destruct H as (_ & _ & idxs & p & HF & _). destruct Hnot.
        by eapply Forall2_index_elem.
      * destruct H as [_ [(v' & -> & _)|(idxs & HF & _)]]; [eauto|]. destruct Hnot.
        by eapply Forall2_index_elem.
  - intros e ->. destruct H as [Hext _].
    destruct (view_extends σ σ' f Hcl Hext) as [? ?].
    split_and!; try done. by eapply extends_factors.
Qed.

(** C7, witness: [marginalize(['B', 'Z'])] on the factor of the first
    scenario. *)
Lemma marginalize_not_in_scope_witness :
  (marginalize F_1 ["B"; "Z"] store_1).1 = Raise (NotInScope "Z").
Proof.
  destruct (marginalize F_1 ["B"; "Z"] store_1) as [r σ'] eqn:Hrun.
  destruct (marginalize_not_in_scope store_1 F_1 instance_1 ["B"; "Z"] r σ') as [[_ H] _].
  - apply store_1_factor.
  - apply store_1_closed.
  - exact Hrun.
  - destruct H as [v ->].
    + exists "Z". split; compute_done.
    + vm_compute in Hrun. by injection Hrun as <-.
Defined.



(** C8, the other outcome.  For [x], [y], [z] of the cardinalities 2, 3, 2,
    the product of a factor over [x], [y] and a factor over [y], [z], [x]
    raises in every run: the right buffer reaches the multiplication with
    the shape (2, 2, 3), the left one with (2, 3, 1). *)
Lemma product_broadcast_error (order : SetIteration) :
  (product_of order factor_xy_23 factor_yzx_322 empty_store).1 = Raise BroadcastError.
Proof.
  transitivity ((product_of insertion_order factor_xy_23 factor_yzx_322 empty_store).1);
    [|by vm_compute].
  f_equal. unfold product_of.
  apply bind_congr; [done|]. intros a σ1 Ha.
  apply bind_congr; [done|]. intros b σ2 Hb.
  apply bind_congr; [|done]. by eapply product_xy_yzx_322_order.
Qed.

(** C9 (order of the appended variables), evaluated at a failing input.
    Extending a factor over [C] with the variables of a factor over [A], [B],
    [C] appends [A], [B] in one run and [B], [A] in another: the order is that
    of the iteration over [set(other.variables) - set(self.variables)]. *)
Theorem extension_order_differs :
  extended_scope insertion_order = Ok ["C"; "A"; "B"] ∧
  extended_scope reverse_order = Ok ["C"; "B"; "A"].
Proof. split; by vm_compute. Qed.

(** C10 (marginalizing over nothing).  For a populated factor with as many
    cardinalities as variables, [marginalize([])] returns a new factor with
    the same variables, cardinalities and buffer entries, and the factor
    itself is as it was. *)
Theorem marginalize_nothing σ self f a :
  factors σ !! self = Some f → closed σ f →
  buffer σ f = Some a → np.wf a →
  length (variables f) = length (cardinality f) →
  ∃ phi σ' p,
    marginalize self [] σ = (Ok phi, σ') ∧ phi ≠ self ∧
    factors σ' !! phi = Some p ∧
    variables p = variables f ∧ cardinality p = cardinality f ∧
    buffer σ' p = Some a ∧
    factors σ' !! self = Some f ∧ buffer σ' f = Some a ∧
    (∀ v, labels σ' f v = labels σ f v) ∧ extends σ σ'.
Proof.
  intros Hf Hcl Hbuf Hwf Hlen.
  pose proof (wp_marginalize σ self f [] Hf Hcl) as H.
  unfold wp in H. destruct (marginalize self [] σ) as [[phi|e] σ'].
  - destruct H as (Hext & Hphi & idxs & p & Hidx & Hp & a' & s & Ha' & Hsum & Hs & Hvs & Hcs & _).
    inversion Hidx; subst. rewrite kept_axes_nil in Hvs, Hcs.
    simplify_eq. rewrite sum_nil in Hsum by done. simplify_eq.
    apply Forall2_lookup_seq in Hvs. rewrite Hlen in Hcs. apply Forall2_lookup_seq in Hcs.
    destruct (view_extends σ σ' f Hcl Hext) as [Hb Hl].
    exists phi, σ', p. split_and!; try done; try congruence.
    by eapply extends_factors.
  - exfalso. destruct H as [_ [(v & _ & []%elem_of_nil & _)|(idxs & Hidx & Hfail)]].
    inversion Hidx; subst.
    destruct Hfail as [[_ ?]|[[_ ?]|(a' & ? & Hsum)]].
    + lia.
    + congruence.
    + assert (a' = a) as -> by congruence. by rewrite sum_nil in Hsum.
Qed.

(** C10, witness: the factor of the first scenario. *)
Lemma marginalize_nothing_witness :
  ∃ phi σ' p, marginalize F_1 [] store_1 = (Ok phi, σ') ∧
              factors σ' !! phi = Some p ∧ variables p = ["A"; "B"] ∧
              buffer σ' p = Some buffer_1.
Proof.
  destruct (marginalize_nothing store_1 F_1 instance_1 buffer_1)
    as (phi & σ' & p & Hrun & _ & Hp & Hv & _ & Hb & _).
  - apply store_1_factor.
  - apply store_1_closed.
  - apply store_1_buffer.
  - done.
  - done.
  - exists phi, σ', p. split_and!; [exact Hrun|exact Hp|exact Hv|exact Hb].
Defined.

(** * Further properties

    What the methods do besides: the methods that the properties above do
    not reach, the outcomes at the edges, what a call leaves as it was, and
    how calls compose. *)

Local Close Scope string_scope.

(** ** What get_cardinality returns *)

Lemma cardinality_dict_dom f vars d :
  cardinality_dict f vars = Ok d → dom d = list_to_set vars.
Proof.
  revert d. induction vars as [|v vars IH]; intros d; simpl.
  { intros [= <-]. by rewrite dom_empty_L. }
  destruct (index_of v (variables f)) as [i|]; [|done].
  destruct (cardinality f !! i) as [c|]; [|done].
  destruct (cardinality_dict f vars) as [d'|] eqn:Hd; [|done]. simpl.
  intros [= <-]. rewrite dom_insert_L. by rewrite (IH d').
Qed.

Lemma cardinality_dict_first_missing f pre v post :
  Forall (λ v, v ∈ variables f) pre → v ∉ variables f →
  length (variables f) ≤ length (cardinality f) →
  cardinality_dict f (pre ++ v :: post) = Raise (NotInList v).
Proof.
  intros Hpre Hv Hlen. induction Hpre as [|x pre Hx _ IH]; simpl.
  { by rewrite (proj2 (index_of_None v (variables f)) Hv). }
  destruct (index_of_elem x _ Hx) as [i Hi]. rewrite Hi.
  destruct (lookup_lt_is_Some_2 (cardinality f) i) as [c Hc].
  { apply index_of_lt in Hi. lia. }
  by rewrite Hc, IH.
Qed.

(** X1 (get_cardinality).  For a factor with a cardinality for each of its
    variables: when every requested variable is in scope,
    [get_cardinality(variables)] returns a dictionary whose keys are the
    requested variables and whose value for [v] is the cardinality at the
    position of [v]; otherwise it raises the [ValueError] of [list.index]
    for the first requested variable that is not in scope.  The store is left
    as it is. *)
Theorem get_cardinality_spec σ self f vars :
  factors σ !! self = Some f →
  length (variables f) ≤ length (cardinality f) →
  (Forall (λ v, v ∈ variables f) vars →
     ∃ d, get_cardinality self vars σ = (Ok d, σ) ∧
          dom d = list_to_set vars ∧
          ∀ v, v ∈ vars → ∃ c, d !! v = Some c ∧ reported f v c) ∧
  (∀ pre v post, vars = pre ++ v :: post →
     Forall (λ v, v ∈ variables f) pre → v ∉ variables f →
     get_cardinality self vars σ = (Raise (NotInList v), σ)).
Proof.
  intros Hf Hlen. unfold get_cardinality, bind, read_factor. rewrite Hf. simpl.
  split.
  - intros Hvars. destruct (cardinality_dict_Ok f vars Hvars Hlen) as (d & Hd & Hlook).
    exists d. unfold lift. rewrite Hd. split_and!; [done| |done].
    by eapply cardinality_dict_dom.
  - intros pre v post -> Hpre Hv. unfold lift.
    by rewrite cardinality_dict_first_missing.
Qed.

(** ** What add_new_variables_from_other_factor does *)

(** X2 (add_new_variables_from_other_factor).  On a populated factor with one
    axis per variable, for another instance [other] that has a cardinality
    for each of its variables, the call returns.  It appends the variables
    of [other] that the factor lacks, each once, to the variables; the
    cardinalities that [other] reports for them to the cardinalities; and one
    axis of extent 1 for each of them to the buffer, whose entries stay in
    their C order.  The state labels of the factor, [other], the other
    instances and the arrays that were in the store are as before. *)
Theorem add_new_variables_spec (order : SetIteration) σ self other f o a :
  factors σ !! self = Some f → factors σ !! other = Some o → self ≠ other →
  buffer σ f = Some a → np.ndim a = length (variables f) →
  length (variables o) ≤ length (cardinality o) →
  ∃ extra_vars cards σ' f' a',
    add_new_variables_from_other_factor order self other σ = (Ok (), σ') ∧
    (* the missing variables, each once *)
    NoDup extra_vars ∧
    (∀ v, v ∈ extra_vars ↔ v ∈ variables o ∧ v ∉ variables f) ∧
    (* the instance after the call *)
    factors σ' !! self = Some f' ∧
    variables f' = variables f ++ extra_vars ∧
    cardinality f' = cardinality f ++ cards ∧
    Forall2 (reported o) extra_vars cards ∧
    state_names f' = state_names f ∧
    buffer σ' f' = Some a' ∧
    np.shape a' = np.shape a ++ replicate (length extra_vars) 1 ∧
    np.data a' = np.data a ∧
    (* everything else *)
    (∀ l, l ≠ self → factors σ' !! l = factors σ !! l) ∧
    arrays σ ⊆ arrays σ' ∧ label_lists σ' = label_lists σ ∧ dicts σ' = dicts σ.
Proof.
  intros Hf Ho Hne Hbuf Hndim Hlen.
  pose proof (wp_add_new order σ self other f o a
    (λ _ σ', ∃ cards f' a',
       factors σ' !! self = Some f' ∧
       variables f' = variables f ++ iter_difference order (variables o) (variables f) ∧
       cardinality f' = cardinality f ++ cards ∧
       Forall2 (reported o) (iter_difference order (variables o) (variables f)) cards ∧
       state_names f' = state_names f ∧
       buffer σ' f' = Some a' ∧
       np.shape a' = np.shape a
         ++ replicate (length (iter_difference order (variables o) (variables f))) 1 ∧
       np.data a' = np.data a ∧
       (∀ l, l ≠ self → factors σ' !! l = factors σ !! l) ∧
       arrays σ ⊆ arrays σ' ∧ label_lists σ' = label_lists σ ∧ dicts σ' = dicts σ)
    (λ _ _, False) Hf Ho Hne Hbuf) as H.
  unfold wp in H.
  destruct (add_new_variables_from_other_factor order self other σ) as [[[]|e] σ'].
  - destruct H as (cards & f' & a' & H); [lia|done| |].
    + intros σ1 f1 cards Hcards Hv Hc Hsn Hb Hfs Ha Hl Hd.
      eexists cards, f1, _. split_and!; try done.
      * by rewrite Hfs, lookup_insert_eq.
      * simpl. unfold np.ndim in Hndim.
        rewrite <-Hndim, firstn_all, drop_all. by rewrite app_nil_r.
      * intros l Hl'. by rewrite Hfs, lookup_insert_ne.
    + exists (iter_difference order (variables o) (variables f)), cards, σ', f', a'.
      destruct H as (?&?&?&?&?&?&?&?&?&?&?&?).
      split_and!; try done.
      * apply iter_difference_NoDup.
      * intros v. apply iter_difference_elem.
  - exfalso. apply H; [lia|done|]. intros σ1 f1 cards Hcards Hv Hc Hsn Hb Hfs Ha Hl Hd.
    eexists cards, f1, _. split_and!; try done.
    + by rewrite Hfs, lookup_insert_eq.
    + simpl. unfold np.ndim in Hndim.
      rewrite <-Hndim, firstn_all, drop_all. by rewrite app_nil_r.
    + intros l Hl'. by rewrite Hfs, lookup_insert_ne.
Qed.

(** X3 (add_new_variables_from_other_factor at the edges).  When the factor
    has every variable of [other], the call changes nothing, also on a factor
    without buffer.  When a variable is missing and the factor has no buffer,
    the call raises the [TypeError] of indexing [None], and nothing was
    changed. *)
Theorem add_new_variables_edge (order : SetIteration) σ self other f o :
  factors σ !! self = Some f → factors σ !! other = Some o →
  ((∀ v, v ∈ variables o → v ∈ variables f) →
     add_new_variables_from_other_factor order self other σ = (Ok (), σ)) ∧
  ((∃ v, v ∈ variables o ∧ v ∉ variables f) → _values f = None →
     add_new_variables_from_other_factor order self other σ = (Raise NoneTypeError, σ)).
Proof.
  intros Hf Ho. unfold add_new_variables_from_other_factor, bind, read_factor.
  rewrite Hf. simpl. rewrite Ho. simpl. split.
  - intros Hsub. rewrite (iter_difference_nil order _ _ Hsub). done.
  - intros (v & Hv & Hnot) Hnone. rewrite decide_False.
    + unfold values_array, bind, values, bind, read_factor. rewrite Hf. simpl.
      by rewrite Hnone.
    + intros Hlen. apply length_zero_iff_nil in Hlen.
      assert (v ∈ iter_difference order (variables o) (variables f)) as Hin
        by (by apply iter_difference_elem).
      rewrite Hlen in Hin. by apply elem_of_nil in Hin.
Qed.

(** ** product with a number, and with something else *)

Lemma get_scale a c idx : np.get (np.scale a c) idx = (np.get a idx * c)%Z.
Proof.
  unfold np.get, np.scale. simpl.
  destruct (decide (np.ravel (np.shape a) idx < length (np.data a))) as [Hlt|Hge].
  - rewrite !nth_lookup, list_lookup_fmap.
    destruct (lookup_lt_is_Some_2 _ _ Hlt) as [x ->]. done.
  - rewrite !nth_overflow; [lia| |]; rewrite ?length_fmap; lia.
Qed.


(** X5 ([self * other] for another kind of operand).  For an operand that is
    neither a number nor a [DiscreteFactor], [self * other] fails the
    assertion of [product] (TypeMismatch), and the objects that were in the
    store are as before. *)
Theorem product_other_operand (order : SetIteration) σ self f :
  factors σ !! self = Some f → closed σ f → buffer_shaped σ f →
  ∃ σ', __mul__ order self Other σ = (Raise MulAssertion, σ') ∧ extends σ σ'.
Proof.
  intros Hf Hcl Hsh.
  destruct (copy_returns σ self f Hf Hcl Hsh)
    as (left & σ1 & fl & Hrun & _ & _ & Hext & _).
  exists σ1. split; [|done]. unfold __mul__, product.
  by rewrite (bind_ok _ _ _ _ _ Hrun).
Qed.

(** ** What a product leaves as it was *)

(** X6 (product changes no operand).  Whatever [product] of two well-formed
    factors returns or raises, the objects that were in the store are as
    before: both operands have their attributes, their buffers and their
    labels; and a factor that is returned is a new instance. *)
Theorem product_leaves_operands (order : SetIteration) σ self other fA fB r σ' :
  factors σ !! self = Some fA → factors σ !! other = Some fB →
  well_formed σ fA → well_formed σ fB →
  product order self (Instance other) σ = (r, σ') →
  extends σ σ' ∧
  factors σ' !! self = Some fA ∧ factors σ' !! other = Some fB ∧
  buffer σ' fA = buffer σ fA ∧ buffer σ' fB = buffer σ fB ∧
  (∀ v, labels σ' fA v = labels σ fA v) ∧ (∀ v, labels σ' fB v = labels σ fB v) ∧
  (∀ l, r = Ok (Product l) → factors σ !! l = None ∧ l ≠ self ∧ l ≠ other).
Proof.
  intros HfA HfB HwA HwB Hrun.
  pose proof (wp_product_factor order σ self other fA fB HfA HfB HwA HwB) as H.
  unfold wp in H. rewrite Hrun in H.
  assert (extends σ σ') as Hext.
  { destruct r; [by destruct H as (?&?&?&?&?&?&?&?&?&?)|by destruct H]. }
  destruct (view_extends σ σ' fA (proj1 HwA) Hext) as [? ?].
  destruct (view_extends σ σ' fB (proj1 HwB) Hext) as [? ?].
  split_and!; try done; try (by eapply extends_factors).
  intros l ->. destruct H as (l' & p & prod & [= <-] & Hnone & _).
  split_and!; [done|congruence..].
Qed.

(** ** copy and the shape of the buffer *)

Lemma copied_state_names_labels σ σ' f f' :
  copied_state_names σ σ' (state_names f) (state_names f') →
  ∀ v, labels σ' f' v = labels σ f v.
Proof.
  intros Hsn v. unfold labels, copied_state_names in *.
  destruct (state_names f) as [d|], (state_names f') as [d'|]; simpl in *; try done.
  destruct Hsn as (m & Hm & _ & m' & Hm' & Hk). rewrite Hm, Hm'. simpl.
  specialize (Hk v). destruct (m' !! v) as [l'|]; simpl.
  - destruct Hk as (l & -> & _ & xs & Hxs & Hxs'). simpl. by rewrite Hxs, Hxs'.
  - by rewrite Hk.
Qed.

(** X7 (copy and the shape of the buffer).  For a populated factor with no
    negative cardinality, [copy] returns exactly when the buffer has as many
    entries as the product of the cardinalities; the buffer of the clone
    then has the shape of the cardinalities and the entries of the original
    in their C order, whatever the shape of the original buffer.  Otherwise
    [copy] raises the [ValueError] of [reshape], and the objects that were in
    the store are as before. *)
Theorem copy_reshapes σ self f a :
  factors σ !! self = Some f → closed σ f → buffer σ f = Some a →
  Forall (λ c, 0 ≤ c)%Z (cardinality f) →
  match copy self σ with
  | (Ok c, σ') =>
      Z.of_nat (length (np.data a)) = Zprod (cardinality f) ∧
      ∃ fc b, factors σ' !! c = Some fc ∧ buffer σ' fc = Some b ∧
              Z.of_nat <$> np.shape b = cardinality f ∧ np.data b = np.data a
  | (Raise e, σ') =>
      e = ReshapeError ∧ Z.of_nat (length (np.data a)) ≠ Zprod (cardinality f) ∧
      extends σ σ'
  end.
Proof.
  intros Hf Hcl Hbuf Hc. apply (wp_copy σ self f); [done|done| |].
  - intros a' σ' Ha' Hre Hext. simplify_eq. rewrite reshape_nonneg in Hre by done.
    case_decide; [done|]. done.
  - intros c σ' v' sn' Hext Hnone Hfc Hv Hsn.
    unfold copied_values, buffer in *.
    destruct (_values f) as [l|], v' as [l'|]; simpl in *; try done.
    destruct Hv as (_ & a0 & a' & Ha0 & Hre & Ha'). simplify_eq.
    rewrite reshape_nonneg in Hre by done. case_decide; [|done]. simplify_eq.
    split; [done|]. eexists _, _. split; [done|]. simpl. rewrite Ha'.
    split; [done|]. simpl. split; [|done]. by apply of_nat_to_nat.
Qed.

(** ** Values given later *)

(** X8 (values given later).  When the values fit the cardinalities,
    constructing a factor without values and calling [update_values] ends in
    the store, and with the instance, that constructing the factor with
    these values ends in.  When they do not fit, both raise the [ValueError]
    of [reshape]; the store then is as before for the construction with
    values, and has the new factor, without buffer, for the other. *)
Theorem deferred_values vars card vals sn σ :
  let direct := __init__ vars card (Some (FromList vals)) sn in
  let deferred := (let* self := __init__ vars card None sn in
                   update_values self vals;; ret self) in
  match np.reshape (np.array vals) card with
  | Ok b =>
      deferred σ = direct σ ∧
      ∃ self l σ', direct σ = (Ok self, σ') ∧
                   factors σ' !! self = Some (mkFactor vars card (Some l) sn) ∧
                   arrays σ' !! l = Some b
  | Raise e =>
      direct σ = (Raise e, σ) ∧
      ∃ self σ', deferred σ = (Raise e, σ') ∧ factors σ !! self = None ∧
                 factors σ' = <[self:=mkFactor vars card None sn]> (factors σ)
  end.
Proof.
  intros direct deferred. subst direct deferred.
  unfold __init__, update_values, np_array, bind, ret, lift, alloc_factor, alloc_array,
    read_factor, modify_factor, from_option. simpl.
  destruct (np.reshape (np.array vals) card) as [b|e] eqn:Hre; simpl.
  - rewrite lookup_insert_eq. simpl. rewrite Hre. simpl. rewrite lookup_insert_eq. simpl.
    split.
    + by rewrite insert_insert_eq.
    + eexists _, _, _. split; [done|]. simpl. by rewrite !lookup_insert_eq.
  - split; [done|]. rewrite lookup_insert_eq. simpl. rewrite Hre. simpl.
    eexists _, _. split; [done|]. simpl. split; [|done]. apply fresh_lookup.
Qed.

(** ** update_values and the arrays of the store *)

(** X9 (update_values writes into no array).  Whatever [update_values]
    returns or raises, every array that was in the store has its entries, the
    previous buffer of the factor among them; the dictionaries, the label
    lists and the other instances are as before; the factor keeps its
    variables, cardinalities and state labels; and when the call raises, the
    factor is as it was. *)
Theorem update_values_rebinds σ self f new_values r σ' :
  factors σ !! self = Some f →
  update_values self new_values σ = (r, σ') →
  arrays σ ⊆ arrays σ' ∧ dicts σ' = dicts σ ∧ label_lists σ' = label_lists σ ∧
  (∀ l, l ≠ self → factors σ' !! l = factors σ !! l) ∧
  ∃ f', factors σ' !! self = Some f' ∧
        variables f' = variables f ∧ cardinality f' = cardinality f ∧
        state_names f' = state_names f ∧
        (∀ e, r = Raise e → f' = f).
Proof.
  intros Hf Hrun.
  destruct (update_values_frame σ self new_values r σ' f Hf Hrun) as (Hfs & Ha & Hd & Hl).
  split_and!; try done.
  pose proof (wp_update_values σ self f new_values
    (λ _ σ', ∃ f', factors σ' !! self = Some f' ∧
        variables f' = variables f ∧ cardinality f' = cardinality f ∧
        state_names f' = state_names f)
    (λ _ σ', σ' = σ) Hf) as H.
  unfold wp in H. rewrite Hrun in H. destruct r as [[]|e].
  - destruct H as (f' & ? & ? & ? & ?); [done| |].
    + intros l a _ _. eexists. simpl. rewrite lookup_insert_eq. done.
    + exists f'. split_and!; done.
  - rewrite H; [|done|].
    + exists f. split_and!; done.
    + intros l a _ _. eexists. simpl. rewrite lookup_insert_eq. done.
Qed.

(** ** get_value_for_state_vector without labels *)

Lemma state_coordinates_resolved σ self f d pre rest :
  factors σ !! self = Some f →
  Forall (λ v, ∃ i, resolves σ f d v i) pre →
  ∃ coords, Forall2 (resolves σ f d) pre coords ∧
    state_coordinates self d (pre ++ rest) σ
    = bind (state_coordinates self d rest) (λ cs, ret (coords ++ cs)) σ.
Proof.
  intros Hf. induction 1 as [|v pre (i & s & ls & Hs & Hls & Hi) _ (coords & HF & IH)].
  { exists []. split; [constructor|]. simpl. unfold bind, ret.
    by destruct (state_coordinates self d rest σ) as [[?|?] ?]. }
  exists (i :: coords). split; [constructor; [by exists s, ls|done]|].
  destruct (labels_Some _ _ _ _ Hls) as (dl & mp & l & Hd & Hm & Hl & Hxs).
  simpl. unfold bind at 1, from_option. rewrite Hs. simpl.
  unfold bind at 1, read_factor. rewrite Hf. simpl.
  unfold bind at 1. rewrite Hd. simpl.
  unfold bind at 1, read_dict. rewrite Hm. simpl.
  unfold bind at 1. rewrite Hl. simpl.
  unfold bind at 1, read_labels. rewrite Hxs. simpl.
  unfold bind at 1. rewrite Hi. simpl.
  unfold bind at 1. rewrite IH. unfold bind, ret.
  by destruct (state_coordinates self d rest σ) as [[?|?] ?].
Qed.

(** X10 (get_value_for_state_vector without labels).  Let the keys of the
    assignment be the variables of the factor, and let the labels of the
    variables before [var] be found.  When the factor has no dictionary of
    state labels, the call raises the [TypeError] of indexing [None]; when
    the dictionary has no entry for [var], it raises [KeyError] for [var].
    The store is left as it is. *)
Theorem get_value_for_state_vector_no_labels σ self f dict_of_states pre var post :
  factors σ !! self = Some f → NoDup (variables f) →
  dom dict_of_states = list_to_set (variables f) →
  variables f = pre ++ var :: post →
  Forall (λ v, ∃ i, resolves σ f dict_of_states v i) pre →
  (state_names f = None →
     get_value_for_state_vector self dict_of_states σ = (Raise NoneTypeError, σ)) ∧
  (∀ d m, state_names f = Some d → dicts σ !! d = Some m → m !! var = None →
     get_value_for_state_vector self dict_of_states σ = (Raise (KeyError var), σ)).
Proof.
  intros Hf Hnd Hdom Hvars Hpre.
  pose proof (scope_assertion_iff dict_of_states (variables f) Hnd) as Hiff.
  assert (get_value_for_state_vector self dict_of_states σ =
          bind (state_coordinates self dict_of_states (variables f))
               (λ cs, bind (values_array self) (λ a, lift (np.getitem a cs))) σ) as ->.
  { unfold get_value_for_state_vector, bind at 1, read_factor. rewrite Hf. simpl.
    rewrite decide_True; [done|]. by rewrite Hiff. }
  destruct (state_coordinates_resolved σ self f dict_of_states pre (var :: post)
              Hf Hpre) as (coords & _ & Hrun).
  assert (is_Some (dict_of_states !! var)) as [s Hs].
  { apply elem_of_dom. rewrite Hdom, Hvars. apply elem_of_list_to_set.
    apply elem_of_app. right. by left. }
  rewrite Hvars. split.
  - intros Hnone. apply bind_raise. rewrite Hrun. apply bind_raise.
    simpl. unfold bind at 1, from_option. rewrite Hs. simpl.
    unfold bind at 1, read_factor. rewrite Hf. simpl.
    unfold bind at 1. by rewrite Hnone.
  - intros d m Hd Hm Hk. apply bind_raise. rewrite Hrun. apply bind_raise.
    simpl. unfold bind at 1, from_option. rewrite Hs. simpl.
    unfold bind at 1, read_factor. rewrite Hf. simpl.
    unfold bind at 1. rewrite Hd. simpl.
    unfold bind at 1, read_dict. rewrite Hm. simpl.
    unfold bind at 1. by rewrite Hk.
Qed.

(** ** What marginalize leaves as it was, and its errors *)

(** X11 (marginalize changes nothing).  Whatever [marginalize] returns or
    raises, the objects that were in the store are as before: the factor has
    its attributes, its buffer and its labels.  A factor that is returned is
    a new instance with a dictionary of state labels of its own, which has
    the labels of every variable of the original, the variables that were
    summed out among them. *)
Theorem marginalize_leaves_self σ self f vars r σ' :
  factors σ !! self = Some f → closed σ f →
  marginalize self vars σ = (r, σ') →
  extends σ σ' ∧ factors σ' !! self = Some f ∧
  buffer σ' f = buffer σ f ∧ (∀ v, labels σ' f v = labels σ f v) ∧
  ∀ phi, r = Ok phi →
    factors σ !! phi = None ∧
    ∃ p, factors σ' !! phi = Some p ∧
         (∀ v, labels σ' p v = labels σ f v) ∧
         (∀ d, owns_dict p d → dicts σ !! d = None).
Proof.
  intros Hf Hcl Hrun.
  pose proof (wp_marginalize σ self f vars Hf Hcl) as H.
  unfold wp in H. rewrite Hrun in H.
  assert (extends σ σ') as Hext by (destruct r; by destruct H).
  destruct (view_extends σ σ' f Hcl Hext) as [Hb Hl].
  split_and!; try done; [by eapply extends_factors|].
  intros phi ->. destruct H as (_ & Hnone & idxs & p & _ & Hp & a & s & Ha & _ & Hs & _ & _ & Hsn).
  split; [done|]. exists p. split_and!; [done| |].
  - by apply copied_state_names_labels.
  - intros d Hown. unfold owns_dict in Hown. unfold copied_state_names in Hsn.
    rewrite Hown in Hsn. destruct (state_names f); [|done].
    by destruct Hsn as (m & _ & ? & _).
Qed.

Lemma var_indexes_first_missing σ phi self p f pre v post :
  factors σ !! phi = Some p → factors σ !! self = Some f →
  variables p = variables f →
  Forall (λ v, v ∈ variables f) pre → v ∉ variables f →
  var_indexes phi self (pre ++ v :: post) σ = (Raise (NotInScope v), σ).
Proof.
  intros Hp Hf Hvars Hpre Hv. induction Hpre as [|x pre Hx _ IH]; simpl.
  - unfold bind, read_factor. rewrite Hp. simpl. rewrite Hvars.
    by rewrite decide_False.
  - unfold bind at 1, read_factor. rewrite Hp. simpl. rewrite Hvars.
    rewrite decide_True by done.
    unfold bind at 1. rewrite Hf. simpl.
    destruct (index_of_elem x _ Hx) as [i Hi].
    unfold bind at 1. rewrite Hi. simpl.
    unfold bind at 1. by rewrite IH.
Qed.

Lemma positions_duplicate (l vars : list string) idxs :
  Forall2 (λ v i, index_of v l = Some i) vars idxs → NoDup idxs → NoDup vars.
Proof.
  intros HF Hnd. apply NoDup_alt. intros j1 j2 v H1 H2.
  destruct (Forall2_lookup_l _ _ _ _ _ HF H1) as (i1 & Hi1 & Hv1).
  destruct (Forall2_lookup_l _ _ _ _ _ HF H2) as (i2 & Hi2 & Hv2).
  simplify_eq. by eapply NoDup_lookup.
Qed.

(** X12 (the error of marginalize).  The [ValueError('... not in scope')]
    is raised for the first entry of [vars] that is not in scope, whatever
    stands before and after it.  When every entry is in scope and some entry
    repeats, on a populated factor with one axis and one cardinality per
    variable, [marginalize] raises the [ValueError] of [np.sum] for a repeated
    axis. *)
Theorem marginalize_errors σ self f a vars :
  factors σ !! self = Some f → closed σ f →
  (∀ pre v post, vars = pre ++ v :: post →
     Forall (λ v, v ∈ variables f) pre → v ∉ variables f →
     ∃ σ', marginalize self vars σ = (Raise (NotInScope v), σ')) ∧
  (buffer σ f = Some a → np.ndim a = length (variables f) →
   length (variables f) ≤ length (cardinality f) →
   Forall (λ v, v ∈ variables f) vars → ¬ NoDup vars →
     ∃ σ', marginalize self vars σ = (Raise RepeatedAxis, σ')).
Proof.
  intros Hf Hcl. split.
  - intros pre v post -> Hpre Hv.
    unfold marginalize.
    destruct (deepcopy_factor self σ) as [[phi|e] σ1] eqn:Hcopy.
    + exists σ1. unfold bind at 1. rewrite Hcopy.
      enough (∃ p, factors σ1 !! phi = Some p ∧ variables p = variables f ∧
                   factors σ1 !! self = Some f) as (p & Hp & Hvars & Hf1).
      { by rewrite (bind_raise _ _ _ _ _
          (var_indexes_first_missing σ1 phi self p f pre v post Hp Hf1 Hvars Hpre Hv)). }
      pose proof (wp_deepcopy_factor σ self f
        (λ phi σ1, ∃ p, factors σ1 !! phi = Some p ∧ variables p = variables f ∧
                        factors σ1 !! self = Some f) (λ _ _, False) Hf Hcl) as H'.
      unfold wp in H'. rewrite Hcopy in H'. apply H'.
      intros phi' σ' v' sn' Hext _ Hphi' _ _. eexists. split; [done|]. split; [done|].
      by eapply extends_factors.
    + exfalso.
      pose proof (wp_deepcopy_factor σ self f (λ _ _, True) (λ _ _, False) Hf Hcl) as H'.
      unfold wp in H'. rewrite Hcopy in H'. by apply H'.
  - intros Hbuf Hndim Hlen Hvars Hdup.
    pose proof (wp_marginalize σ self f vars Hf Hcl) as H.
    unfold wp in H. destruct (marginalize self vars σ) as [[phi|e] σ'].
    + exfalso. destruct H as (_ & _ & idxs & p & Hidx & _ & a' & s & Ha' & Hsum & _).
      rewrite sum_outcome in Hsum. repeat case_decide; try done.
      apply Hdup. by eapply positions_duplicate.
    + exists σ'. f_equal. f_equal.
      destruct H as [_ [(v & _ & Hv & Hnot)|(idxs & Hidx & Hfail)]].
      { exfalso. rewrite Forall_forall in Hvars. by apply Hnot, Hvars. }
      destruct Hfail as [[_ ?]|[[_ ?]|(a' & ? & Hsum)]]; [lia|congruence|].
      simplify_eq. rewrite sum_outcome in Hsum. rewrite decide_True in Hsum.
      * case_decide; [done|]. congruence.
      * rewrite Hndim. by eapply positions_lt.
Qed.

(** ** product, buffer by buffer *)

Lemma wp_product_buffers (order : SetIteration) σ self other fA fB aA aB
    (Q : product_result → store → Prop) (E : exn → store → Prop) :
  factors σ !! self = Some fA → factors σ !! other = Some fB →
  well_formed σ fA → well_formed σ fB →
  buffer σ fA = Some aA → buffer σ fB = Some aB →
  (∀ dest,
     Forall2 (λ v i, index_of v (right_scope order (variables fA) (variables fB)) = Some i)
             (left_scope order (variables fA) (variables fB)) dest →
     match np.multiply (left_buffer order (variables fA) (variables fB) aA)
                       (right_buffer order (variables fA) (variables fB) aB dest) with
     | Ok prod =>
         ∀ σ', extends σ σ' →
         ∀ l p cards,
           factors σ !! l = None → factors σ' !! l = Some p →
           variables p = left_scope order (variables fA) (variables fB) →
           cardinality p = cardinality fA ++ cards →
           Forall2 (reported fB)
                   (iter_difference order (variables fB) (variables fA)) cards →
           (∀ v, labels σ' p v = labels σ fA v) →
           buffer σ' p = Some prod →
           Q (Product l) σ'
     | Raise e => ∀ σ', extends σ σ' → E e σ'
     end) →
  wp (product order self (Instance other)) σ Q E.
Proof.
  intros HfA HfB HwA HwB HbufA HbufB HQ. unfold product.
  pose proof HwA as (HclA & HndA & HlenA & aA' & HbufA' & HwfA & HshA).
  pose proof HwB as (HclB & HndB & HlenB & aB' & HbufB' & HwfB & HshB).
  assert (aA' = aA) as -> by congruence. assert (aB' = aB) as -> by congruence.
  clear HbufA' HbufB'.
  (* left = self.copy() *)
  destruct (copy_returns σ self fA HfA HclA) as
    (left & σ1 & fl & Hrun1 & Hleft & Hfl & Hext1 & Hvl & Hcl & Hbl & Hlabl & Hcll & _).
  { intros a Ha. by simplify_eq. }
  apply wp_bind. unfold wp at 1. rewrite Hrun1.
  (* right = other.copy() *)
  assert (factors σ1 !! other = Some fB) as HfB1 by (by eapply extends_factors).
  pose proof (well_formed_extends σ σ1 fB Hext1 HwB) as (HclB1 & _ & _ & aB1 & HbufB1 & HwfB1 & HshB1).
  destruct (copy_returns σ1 other fB HfB1 HclB1) as
    (right & σ2 & fr & Hrun2 & Hright & Hfr & Hext2 & Hvr & Hcr & Hbr & _ & Hclr & _).
  { intros a Ha. by simplify_eq. }
  apply wp_bind. unfold wp at 1. rewrite Hrun2.
  assert (factors σ2 !! left = Some fl) as Hfl2 by (by eapply extends_factors).
  assert (left ≠ right) as Hlr by congruence.
  assert (buffer σ2 fl = Some aA) as Hbl2.
  { destruct (view_extends σ1 σ2 fl Hcll Hext2) as [-> _]. congruence. }
  assert (buffer σ2 fr = Some aB) as Hbr2.
  { rewrite Hbr, HbufB1. destruct (view_extends σ σ1 fB HclB Hext1) as [Hx _]. congruence. }
  assert (np.ndim aA = length (variables fA)) as HndimA by (by eapply well_formed_ndim).
  assert (np.ndim aB = length (variables fB)) as HndimB by (by eapply well_formed_ndim).
  (* left.add_new_variables_from_other_factor(right) *)
  apply wp_bind. eapply (wp_add_new order σ2 left right fl fr aA); try done.
  { rewrite Hvl. lia. }
  { rewrite Hvr, Hcr. lia. }
  rewrite Hvl, Hvr.
  intros σ3 fl' cards1 Hcards1 Hvl' Hcl' Hsn' Hbl' Hfs3 Ha3 Hl3 Hd3.
  assert (factors σ3 !! left = Some fl') as Hfl3 by (by rewrite Hfs3, lookup_insert_eq).
  assert (factors σ3 !! right = Some fr) as Hfr3 by (by rewrite Hfs3, lookup_insert_ne).
  assert (buffer σ3 fr = Some aB) as Hbr3.
  { unfold buffer in *. destruct (_values fr) as [l|]; [|done]. simpl in *.
    by eapply lookup_weaken. }
  (* right.add_new_variables_from_other_factor(left) *)
  apply wp_bind. eapply (wp_add_new order σ3 right left fr fl' aB); try done.
  { rewrite Hvr. lia. }
  { rewrite Hvl', Hcl', !length_app, Hcl. apply Forall2_length in Hcards1. lia. }
  rewrite Hvl', Hvr.
  fold (left_scope order (variables fA) (variables fB)).
  fold (right_scope order (variables fA) (variables fB)).
  intros σ4 fr' cards2 Hcards2 Hvr' Hcr' _ Hbr' Hfs4 Ha4 Hl4 Hd4.
  fold (right_scope order (variables fA) (variables fB)) in Hvr'.
  set (L := left_scope order (variables fA) (variables fB)) in *.
  set (R := right_scope order (variables fA) (variables fB)) in *.
  assert (factors σ4 !! right = Some fr') as Hfr4 by (by rewrite Hfs4, lookup_insert_eq).
  assert (factors σ4 !! left = Some fl') as Hfl4 by (by rewrite Hfs4, lookup_insert_ne).
  assert (buffer σ4 fl' = Some (with_new_axes aA (length (variables fA))
            (length (iter_difference order (variables fB) (variables fA))))) as Hbl4.
  { unfold buffer in *. destruct (_values fl') as [l|]; [|done]. simpl in *.
    by eapply lookup_weaken. }
  assert (L ≡ₚ R) as HLR by (by apply scopes_Permutation).
  (* reorder variables in right factor to match order in left *)
  apply wp_bind. eapply wp_values_array; [done..|].
  set (aR := with_new_axes aB _ _).
  assert (np.ndim aR = length R) as HndimR.
  { subst aR. rewrite ndim_with_new_axes by lia. subst R. unfold right_scope.
    rewrite length_app. fold L. lia. }
  apply wp_bind. eapply wp_read_factor; [done|].
  apply wp_bind. eapply wp_read_factor; [done|].
  rewrite Hvl', Hvr'.
  apply wp_bind, wp_mapM_option.
  2:{ intros v Hv Hnone. apply index_of_None in Hnone. destruct Hnone.
      by rewrite <-HLR. }
  intros dest Hdest.
  assert (Forall (λ i, i < length R) dest) as Hdlt by (by eapply positions_lt).
  apply wp_bind, wp_mapM_option.
  2:{ intros i Hi Hnone. apply lookup_ge_None in Hnone.
      rewrite Forall_forall in Hdlt. specialize (Hdlt i Hi). lia. }
  intros rvars Hrvars.
  apply wp_bind. eapply wp_modify_factor; [done|]. set (σ5 := mkStore _ _ _ _).
  (* rearrange values in right factor *)
  apply wp_bind. eapply (wp_values_array σ5 right _ aR); [by apply lookup_insert_eq|done|].
  apply wp_bind, wp_lift. rewrite moveaxis_Ok.
  2:{ by rewrite HndimR. }
  2:{ eapply positions_NoDup; [done|]. by apply NoDup_left_scope. }
  2:{ apply Forall2_length in Hdest. rewrite <-Hdest, HndimR.
      by apply Permutation_length. }
  apply wp_bind, wp_alloc_array. intros lm Hlm. set (σ6 := mkStore _ _ _ _).
  apply wp_bind. eapply wp_modify_factor; [by apply lookup_insert_eq|].
  set (σ7 := mkStore _ _ _ _).
  assert (extends σ σ4) as Hext4.
  { destruct Hext1 as (?&?&?&?), Hext2 as (?&?&?&?). split_and!.
    - do 3 (etrans; [eassumption|]). done.
    - rewrite Hl4, Hl3. by etrans.
    - rewrite Hd4, Hd3. by etrans.
    - rewrite Hfs4, Hfs3. apply insert_subseteq_r.
      { destruct (factors σ !! right) eqn:Er; [|done].
        assert (factors σ1 !! right = Some f) by (by eapply lookup_weaken). congruence. }
      apply insert_subseteq_r; [done|]. by etrans. }
  assert (factors σ !! right = None) as Hright0.
  { destruct (factors σ !! right) eqn:Er; [|done].
    assert (factors σ1 !! right = Some f) by (by eapply extends_factors). congruence. }
  assert (extends σ σ7) as Hext7.
  { subst σ7. apply extends_modify; [done|]. subst σ6.
    etrans; [|by apply extends_alloc_array]. subst σ5. by apply extends_modify. }
  apply wp_bind. eapply (wp_values_array σ7 left fl').
  { subst σ7 σ6 σ5. simpl. by rewrite !lookup_insert_ne. }
  { unfold buffer in *. destruct (_values fl') as [l|]; [|done]. simpl in *.
    apply lookup_insert_Some. right. split; [|done]. intros ->. congruence. }
  apply wp_bind. eapply wp_values_array; [by apply lookup_insert_eq| |].
  { unfold buffer. simpl. by rewrite lookup_insert_eq. }
  apply wp_bind, wp_lift.
  specialize (HQ dest). unfold left_buffer, right_buffer in HQ.
  fold L R in HQ. fold aR in HQ. rewrite <-HndimR in HQ.
  destruct (np.multiply _ _) as [prod|e] eqn:Hmul.
  2:{ by apply HQ. }
  apply wp_bind, wp_alloc_array. intros lp Hlp. set (σ8 := mkStore _ _ _ _).
  apply wp_bind. eapply wp_modify_factor.
  { subst σ8 σ7 σ6 σ5. simpl. by rewrite !lookup_insert_ne. }
  apply wp_ret.
  match goal with |- Q _ ?s => set (σ9 := s) end.
  assert (extends σ σ9) as Hext9.
  { apply extends_modify; [done|]. etrans; [exact Hext7|].
    by apply extends_alloc_array. }
  apply (HQ Hdest σ9 Hext9 left (set_values (Some lp) fl') cards1); try done.
  - simpl. by rewrite lookup_insert_eq.
  - simpl. by rewrite Hcl', Hcl.
  - eapply Forall2_impl; [exact Hcards1|]. intros v c (i & Hi & Hc).
    exists i. by rewrite <-Hvr, <-Hcr.
  - intros v. rewrite <-Hlabl.
    destruct (view_extends σ1 σ2 fl Hcll Hext2) as [_ <-].
    unfold labels. simpl. rewrite Hsn', Hd4, Hd3, Hl4, Hl3. done.
  - unfold buffer. simpl. by rewrite lookup_insert_eq.
Qed.

(** ** np.moveaxis with every axis as a source *)

Global Instance pair_le_total : Total np.pair_le.
Proof. intros [a b] [c d]. unfold np.pair_le. simpl. lia. Qed.

Global Instance pair_le_trans : Transitive np.pair_le.
Proof. intros [a b] [c d] [e f]. unfold np.pair_le. simpl. lia. Qed.

Global Instance pair_le_antisymm : AntiSymm (=) np.pair_le.
Proof.
  intros [a b] [c d]. unfold np.pair_le. simpl. intros H1 H2.
  f_equal; lia.
Qed.

Lemma permutation_of_seq dest n :
  NoDup dest → Forall (λ i, i < n) dest → length dest = n → dest ≡ₚ seq 0 n.
Proof.
  intros Hnd Hlt Hlen. apply submseteq_length_Permutation.
  - apply NoDup_submseteq; [done|]. intros x Hx. apply elem_of_seq.
    rewrite Forall_forall in Hlt. specialize (Hlt x Hx). lia.
  - rewrite length_seq. lia.
Qed.

Lemma Sorted_by_first (f : nat → nat) a m :
  Sorted np.pair_le ((λ j, (j, f j)) <$> seq a m).
Proof.
  revert a. induction m as [|m IH]; intros a; simpl; constructor; [apply IH|].
  destruct m; simpl; constructor. left. simpl. lia.
Qed.

Lemma foldl_insert_at_end (f : nat → nat) acc m :
  foldl (λ order p, list_insert_at p.1 p.2 order) acc
        ((λ j, (j, f j)) <$> seq (length acc) m)
  = acc ++ (f <$> seq (length acc) m).
Proof.
  revert acc. induction m as [|m IH]; intros acc; simpl; [by rewrite app_nil_r|].
  assert (list_insert_at (length acc) (f (length acc)) acc = acc ++ [f (length acc)])
    as ->.
  { unfold list_insert_at. by rewrite firstn_all, drop_all. }
  specialize (IH (acc ++ [f (length acc)])).
  rewrite length_app in IH. simpl in IH. rewrite Nat.add_1_r in IH.
  etrans; [exact IH|]. by rewrite <-app_assoc.
Qed.

(** The order that [np.moveaxis] hands to [transpose] is the inverse of the
    destinations. *)
Lemma moveaxis_order_inverse n dest :
  NoDup dest → Forall (λ i, i < n) dest → length dest = n →
  np.moveaxis_order n (seq 0 n) dest
  = (λ j, default 0 (index_of j dest)) <$> seq 0 n.
Proof.
  intros Hnd Hlt Hlen. unfold np.moveaxis_order.
  rewrite filter_none by (apply Forall_forall; tauto).
  assert (merge_sort np.pair_le (zip dest (seq 0 n))
          = (λ j, (j, default 0 (index_of j dest))) <$> seq 0 n) as ->.
  { apply (Sorted_unique np.pair_le).
    - apply Sorted_merge_sort. apply _.
    - apply Sorted_by_first.
    - rewrite merge_sort_Permutation. apply NoDup_Permutation.
      + apply (NoDup_fmap_1 fst). rewrite fst_zip by (rewrite length_seq; lia). done.
      + apply (NoDup_fmap_1 fst). rewrite <-list_fmap_compose.
        rewrite (list_fmap_ext _ id) by done.
        rewrite list_fmap_id. apply NoDup_seq.
      + intros [j i]. rewrite elem_of_lookup_zip_with, list_elem_of_fmap. split.
        * intros (k & x & y & [= -> ->] & Hx & [-> Hk]%lookup_seq). simpl.
          exists x. rewrite (index_of_lookup _ _ _ Hnd Hx). split; [done|].
          apply elem_of_seq. rewrite Forall_forall in Hlt.
          assert (x < n); [|lia]. apply Hlt. by eapply list_elem_of_lookup_2.
        * intros (j' & [= -> ->] & Hj%elem_of_seq).
          assert (j' ∈ dest) as Hin.
          { rewrite (permutation_of_seq dest n) by done. apply elem_of_seq. lia. }
          destruct (index_of_elem _ _ Hin) as [k Hk]. rewrite Hk. simpl.
          pose proof (index_of_lt _ _ _ Hk). apply index_of_Some in Hk as [Hk _].
          exists k, j', k. split; [done|]. split; [done|].
          apply lookup_seq. split; [done|lia]. }
  apply (foldl_insert_at_end _ [] n).
Qed.

(** ** Axes of extent 1 *)

Lemma size_of_replicate_1 k : np.size_of (replicate k 1) = 1.
Proof. induction k as [|k IH]; simpl; [done|]. rewrite IH. lia. Qed.

Lemma ravel_new_axes s idx k :
  length idx = length s →
  np.ravel (s ++ replicate k 1) (idx ++ replicate k 0) = np.ravel s idx.
Proof.
  revert idx. induction s as [|n s IH]; intros [|i idx] Hlen; simplify_eq/=.
  - induction k as [|k IHk]; simpl; [done|]. by rewrite IHk.
  - rewrite IH by done. by rewrite size_of_app, size_of_replicate_1, Nat.mul_1_r.
Qed.

Lemma get_with_new_axes a idx k :
  length idx = np.ndim a →
  np.get (with_new_axes a (np.ndim a) k) (idx ++ replicate k 0) = np.get a idx.
Proof.
  intros Hlen. unfold np.get, with_new_axes, np.ndim in *. simpl.
  rewrite firstn_all, drop_all, app_nil_r. by rewrite ravel_new_axes.
Qed.

(** ** Broadcasting buffers with axes over one list of variables *)

Lemma broadcast_rev_over (l : list string) (gA gB : string → nat) :
  (∀ v, v ∈ l → gA v = gB v ∨ gA v = 1 ∨ gB v = 1) →
  np.broadcast_rev (gA <$> l) (gB <$> l)
  = Ok ((λ v, broadcast_extent (gA v) (gB v)) <$> l).
Proof.
  induction l as [|v l IH]; intros H; [done|].
  rewrite !fmap_cons. simpl. rewrite IH.
  2:{ intros w Hw. apply H. by right. }
  simpl. unfold broadcast_extent.
  destruct (H v) as [?|[?|?]]; [by left|..]; repeat case_decide; try done; congruence.
Qed.

Lemma broadcast_shapes_over (l : list string) (gA gB : string → nat) :
  (∀ v, v ∈ l → gA v = gB v ∨ gA v = 1 ∨ gB v = 1) →
  np.broadcast_shapes (gA <$> l) (gB <$> l)
  = Ok ((λ v, broadcast_extent (gA v) (gB v)) <$> l).
Proof.
  intros H. unfold np.broadcast_shapes. rewrite <-!fmap_reverse.
  rewrite broadcast_rev_over.
  - simpl. by rewrite fmap_reverse, reverse_involutive.
  - intros v Hv. apply H. by apply elem_of_reverse.
Qed.

Lemma broadcast_index_over (l : list string) (g x : string → nat) :
  np.broadcast_index (g <$> l) (x <$> l)
  = (λ v, if decide (g v = 1) then 0 else x v) <$> l.
Proof.
  unfold np.broadcast_index. rewrite !length_fmap, Nat.sub_diag, drop_0.
  rewrite zip_with_fmap_l, zip_with_fmap_r. by rewrite zip_with_diag.
Qed.

Lemma multiply_over (l : list string) (gA gB : string → nat) a b :
  np.shape a = gA <$> l → np.shape b = gB <$> l →
  (∀ v, v ∈ l → gA v = gB v ∨ gA v = 1 ∨ gB v = 1) →
  ∃ prod, np.multiply a b = Ok prod ∧
    np.shape prod = (λ v, broadcast_extent (gA v) (gB v)) <$> l ∧
    ∀ x, (∀ v, v ∈ l → x v < broadcast_extent (gA v) (gB v)) →
      np.get prod (x <$> l)
      = Z.mul (np.get a ((λ v, if decide (gA v = 1) then 0 else x v) <$> l))
              (np.get b ((λ v, if decide (gB v = 1) then 0 else x v) <$> l)).
Proof.
  intros Ha Hb H. unfold np.multiply. rewrite Ha, Hb, broadcast_shapes_over by done.
  simpl. eexists. split; [done|]. split; [done|].
  intros x Hx. rewrite get_tabulate.
  - by rewrite !broadcast_index_over.
  - unfold np.in_range. apply Forall2_fmap, Forall_Forall2_diag, Forall_forall.
    exact Hx.
Qed.

(** ** Buffers whose axes are a list of variables *)

Lemma Forall2_fmap_diag {A} (x g : A → nat) (l : list A) :
  Forall2 (λ i n, i < n) (x <$> l) (g <$> l) → ∀ v, v ∈ l → x v < g v.
Proof.
  induction l as [|w l IH]; intros H v Hv; [by apply elem_of_nil in Hv|].
  rewrite !fmap_cons in H. apply Forall2_cons in H as [Hw H].
  apply elem_of_cons in Hv as [->|Hv]; [done|]. by apply IH.
Qed.

Lemma fmap_constant {A B} (f : A → B) (c : B) (l : list A) :
  (∀ v, v ∈ l → f v = c) → f <$> l = replicate (length l) c.
Proof.
  induction l as [|w l IH]; intros H; [done|].
  rewrite fmap_cons. simpl. rewrite H by (by left). f_equal. apply IH.
  intros v Hv. apply H. by right.
Qed.

Lemma fmap_ext_elem {A B} (f g : A → B) (l : list A) :
  (∀ v, v ∈ l → f v = g v) → f <$> l = g <$> l.
Proof.
  intros H. apply list_fmap_ext. intros i v Hv. apply H.
  by eapply list_elem_of_lookup_2.
Qed.

Lemma shape_over (vars : list string) a :
  NoDup vars → np.ndim a = length vars → np.shape a = extent_of vars a <$> vars.
Proof.
  intros Hnd Hlen. apply list_eq. intros i. rewrite list_lookup_fmap.
  destruct (vars !! i) as [v|] eqn:Hv; simpl.
  - unfold extent_of. rewrite (index_of_lookup _ _ _ Hnd Hv). simpl.
    destruct (lookup_lt_is_Some_2 (np.shape a) i) as [n Hn].
    { apply lookup_lt_Some in Hv. unfold np.ndim in Hlen. lia. }
    by rewrite Hn.
  - apply lookup_ge_None. apply lookup_ge_None in Hv. unfold np.ndim in Hlen. lia.
Qed.

Lemma shape_with_new_axes (vars extra : list string) a :
  NoDup vars → np.ndim a = length vars → (∀ v, v ∈ extra → v ∉ vars) →
  np.shape (with_new_axes a (length vars) (length extra))
  = axis_extent vars a <$> (vars ++ extra).
Proof.
  intros Hnd Hlen Hextra. unfold with_new_axes. simpl.
  unfold np.ndim in Hlen. rewrite <-Hlen, firstn_all, drop_all, app_nil_r.
  rewrite fmap_app. f_equal.
  - rewrite (shape_over vars a Hnd) at 1 by done. apply fmap_ext_elem.
    intros v Hv. unfold axis_extent. by rewrite decide_True.
  - symmetry. apply fmap_constant. intros v Hv. unfold axis_extent.
    rewrite decide_False; [done|]. by apply Hextra.
Qed.

Lemma get_over_new_axes (vars extra : list string) a (y : string → nat) :
  np.ndim a = length vars → (∀ v, v ∈ extra → y v = 0) →
  np.get (with_new_axes a (length vars) (length extra)) (y <$> vars ++ extra)
  = np.get a (y <$> vars).
Proof.
  intros Hlen Hy. rewrite fmap_app, (fmap_constant y 0 extra) by done.
  rewrite <-Hlen. apply get_with_new_axes. by rewrite length_fmap.
Qed.

(** ** The right buffer after np.moveaxis *)

Lemma moved_shape (L R : list string) (dest : list nat) (g : string → nat) :
  Forall2 (λ v i, index_of v R = Some i) L dest →
  (λ d, default 0 ((g <$> R) !! d)) <$> dest = g <$> L.
Proof.
  induction 1 as [|v i vars idxs Hi _ IH]; [done|].
  rewrite !fmap_cons, IH. f_equal.
  apply index_of_Some in Hi as [Hi _]. by rewrite list_lookup_fmap, Hi.
Qed.

Section moved.
Context (L R : list string) (dest : list nat).
Hypothesis HL : NoDup L.
Hypothesis HR : NoDup R.
Hypothesis Hlen : length L = length R.
Hypothesis Hdest : Forall2 (λ v i, index_of v R = Some i) L dest.

Lemma dest_lookup k v : L !! k = Some v → ∃ d, dest !! k = Some d ∧ R !! d = Some v.
Proof using Hdest.
  intros Hk. destruct (Forall2_lookup_l _ _ _ _ _ Hdest Hk) as (d & Hd & Hi).
  exists d. split; [done|]. by apply index_of_Some in Hi as [? _].
Qed.

Lemma dest_involution :
  mirrored L R → ∀ k d, dest !! k = Some d → dest !! d = Some k.
Proof using HR Hlen Hdest.
  intros Hm k d Hd.
  destruct (Forall2_lookup_r _ _ _ _ _ Hdest Hd) as (v & Hv & Hi).
  apply index_of_Some in Hi as [Hi _].
  pose proof (Hm k d v Hv Hi) as Hswap.
  destruct (lookup_lt_is_Some_2 R k) as [w Hw].
  { apply lookup_lt_Some in Hv. lia. }
  rewrite Hw in Hswap.
  destruct (Forall2_lookup_l _ _ _ _ _ Hdest Hswap) as (k' & Hk' & Hi').
  rewrite (index_of_lookup _ _ _ HR Hw) in Hi'. by simplify_eq.
Qed.

Lemma moved_index (y : string → nat) :
  mirrored L R → (λ d, default 0 ((y <$> L) !! d)) <$> dest = y <$> R.
Proof using HR Hlen Hdest.
  intros Hm. apply list_eq. intros k. rewrite !list_lookup_fmap.
  destruct (R !! k) as [w|] eqn:Hw; simpl.
  - destruct (lookup_lt_is_Some_2 L k) as [v Hv].
    { apply lookup_lt_Some in Hw. lia. }
    destruct (dest_lookup k v Hv) as (d & Hd & HRd). rewrite Hd. simpl.
    rewrite list_lookup_fmap, (Hm k d v Hv HRd), Hw. done.
  - apply lookup_ge_None in Hw.
    rewrite (proj2 (lookup_ge_None dest k)); [done|].
    apply Forall2_length in Hdest. lia.
Qed.

Lemma moved_by_involution a :
  np.ndim a = length R → mirrored L R →
  np.transpose a (np.moveaxis_order (length R) (seq 0 (length R)) dest)
  = np.tabulate ((λ d, default 0 (np.shape a !! d)) <$> dest)
                (λ idx, np.get a ((λ d, default 0 (idx !! d)) <$> dest)).
Proof using HL HR Hlen Hdest.
  intros Hndim Hm.
  pose proof (dest_involution Hm) as Hinv.
  assert (NoDup dest) as Hnd by (by eapply positions_NoDup).
  assert (length dest = length R) as Hld.
  { apply Forall2_length in Hdest. lia. }
  rewrite moveaxis_order_inverse; [|done|by eapply positions_lt|done].
  assert ((λ j, default 0 (index_of j dest)) <$> seq 0 (length R) = dest) as ->.
  { rewrite <-Hld. etrans; [|apply (list_fmap_id dest)]. apply fmap_seq_lookup_ext.
    intros p d Hp. by rewrite (index_of_lookup _ _ _ Hnd (Hinv p d Hp)). }
  unfold np.transpose. apply tabulate_ext. intros idx _. f_equal.
  unfold np.transpose_index. apply fmap_seq_lookup_ext.
  intros p d Hp. by rewrite (index_of_lookup _ _ _ Hnd (Hinv p d Hp)).
Qed.

End moved.

(** ** Cardinalities and extents *)

Lemma reported_extent σ f a v c :
  well_formed σ f → buffer σ f = Some a → reported f v c →
  c = Z.of_nat (extent_of (variables f) a v).
Proof.
  intros (_ & _ & _ & a' & Ha' & _ & Hsh) Ha (i & Hi & Hc).
  assert (a' = a) as -> by congruence.
  rewrite <-Hsh, list_lookup_fmap in Hc. unfold extent_of. rewrite Hi. simpl.
  destruct (np.shape a !! i) as [n|]; simpl in *; congruence.
Qed.

Lemma extent_reported σ f a v :
  well_formed σ f → buffer σ f = Some a → v ∈ variables f →
  reported f v (Z.of_nat (extent_of (variables f) a v)).
Proof.
  intros Hw Ha Hv. pose proof Hw as (_ & _ & Hlen & _).
  destruct (index_of_elem v _ Hv) as [i Hi].
  destruct (lookup_lt_is_Some_2 (cardinality f) i) as [c Hc].
  { apply index_of_lt in Hi. lia. }
  assert (reported f v c) as Hr by (by exists i).
  by rewrite <-(reported_extent σ f a v c Hw Ha Hr).
Qed.

Lemma extents_agree σ fA fB aA aB v :
  well_formed σ fA → well_formed σ fB →
  buffer σ fA = Some aA → buffer σ fB = Some aB → agree fA fB →
  v ∈ variables fA → v ∈ variables fB →
  extent_of (variables fA) aA v = extent_of (variables fB) aB v.
Proof.
  intros HwA HwB HbA HbB Hagree HvA HvB. apply Nat2Z.inj.
  eapply Hagree; by eapply extent_reported.
Qed.

(** ** The product of operands whose extended scopes mirror each other *)

Lemma mirrored_diag (L : list string) : NoDup L → mirrored L L.
Proof.
  intros Hnd i j v Hi Hj. by rewrite (NoDup_lookup _ _ _ _ Hnd Hi Hj).
Qed.

(** Operands over one list of variables. *)
Lemma mirrored_equal_lists (order : SetIteration) (A : list string) :
  NoDup A → mirrored (left_scope order A A) (right_scope order A A).
Proof.
  intros Hnd. unfold right_scope, left_scope.
  rewrite (iter_difference_nil order A A) by done. rewrite app_nil_r.
  rewrite (iter_difference_nil order A A) by done. rewrite app_nil_r.
  by apply mirrored_diag.
Qed.

(** Operands over two variables, in either order. *)
Lemma mirrored_exchanged (order : SetIteration) (u v : string) :
  u ≠ v → mirrored (left_scope order [u; v] [v; u]) (right_scope order [u; v] [v; u]).
Proof.
  intros Hne. unfold right_scope, left_scope.
  rewrite (iter_difference_nil order [v; u] [u; v]).
  2:{ intros x. rewrite !elem_of_cons. tauto. }
  rewrite app_nil_r. rewrite (iter_difference_nil order [u; v] [v; u]).
  2:{ intros x. rewrite !elem_of_cons. tauto. }
  rewrite app_nil_r. intros i j w.
  destruct i as [|[|i]], j as [|[|j]]; simpl; intros Hi Hj; simplify_eq; done.
Qed.


(** ** Sums of entries *)

Lemma Zsum_app l1 l2 : np.Zsum (l1 ++ l2) = (np.Zsum l1 + np.Zsum l2)%Z.
Proof. unfold np.Zsum. induction l1 as [|x l1 IH]; simpl; [done|]. rewrite IH. lia. Qed.

Lemma Zsum_bind {A} (f : A → list Z) (l : list A) :
  np.Zsum (l ≫= f) = np.Zsum ((λ x, np.Zsum (f x)) <$> l).
Proof.
  induction l as [|x l IH]; [done|].
  rewrite bind_cons, Zsum_app, IH, fmap_cons. done.
Qed.

Lemma fmap_bind_list {A B C} (f : B → C) (g : A → list B) (l : list A) :
  f <$> (l ≫= g) = l ≫= λ x, f <$> g x.
Proof.
  induction l as [|x l IH]; [done|]. by rewrite !bind_cons, fmap_app, IH.
Qed.

Lemma Zsum_Permutation l1 l2 : l1 ≡ₚ l2 → np.Zsum l1 = np.Zsum l2.
Proof. unfold np.Zsum. induction 1; simpl; lia. Qed.

Lemma NoDup_indices s : NoDup (np.indices s).
Proof.
  induction s as [|n s IH]; [apply NoDup_singleton|].
  change (NoDup (seq 0 n ≫= λ i, (i ::.) <$> np.indices s)).
  apply NoDup_bind.
  - intros i1 i2 idx _ _ (x1 & -> & _)%list_elem_of_fmap (x2 & [= -> _] & _)%list_elem_of_fmap.
    done.
  - intros i _. apply NoDup_fmap_2_strong; [|done]. by intros x y _ _ [= ->].
  - apply NoDup_seq.
Qed.

(** ** The index tuples that np.sum adds up *)

Section summed.
Context (s : list nat) (axes : list nat).
Hypothesis Haxes : NoDup axes.
Hypothesis Hlt : Forall (λ p, p < length s) axes.

Let n := length s.
Let kept := np.kept_axes n axes.
Let sel (ax : list nat) := (λ p, default 0 (s !! p)) <$> ax.
Let proj (ax idx : list nat) := (λ p, default 0 (idx !! p)) <$> ax.

Lemma kept_NoDup : NoDup kept.
Proof. apply NoDup_filter, NoDup_seq. Qed.

Lemma elem_of_kept p : p ∈ kept ↔ p < n ∧ p ∉ axes.
Proof.
  unfold kept, np.kept_axes. rewrite list_elem_of_filter, elem_of_seq.
  split; intros [? ?]; split; (done || lia).
Qed.

Lemma sum_index_at_axis k r j p :
  axes !! j = Some p →
  np.sum_index n axes k r !! p = Some (default 0 (r !! j)).
Proof using Haxes Hlt.
  intros Hj. unfold np.sum_index. rewrite list_lookup_fmap.
  assert (p < n) as Hp.
  { rewrite Forall_forall in Hlt. apply Hlt. by eapply list_elem_of_lookup_2. }
  rewrite lookup_seq_lt by done. simpl.
  by rewrite (index_of_lookup _ _ _ Haxes Hj).
Qed.

Lemma sum_index_at_kept k r j p :
  kept !! j = Some p →
  np.sum_index n axes k r !! p = Some (default 0 (k !! j)).
Proof using Haxes Hlt.
  intros Hj. unfold np.sum_index. rewrite list_lookup_fmap.
  assert (p ∈ kept) as [Hp Hnot]%elem_of_kept by (by eapply list_elem_of_lookup_2).
  rewrite lookup_seq_lt by done. simpl.
  rewrite (proj2 (index_of_None p axes) Hnot).
  by rewrite (index_of_lookup _ _ _ kept_NoDup Hj).
Qed.

Lemma length_sum_index k r : length (np.sum_index n axes k r) = n.
Proof. unfold np.sum_index. by rewrite length_fmap, length_seq. Qed.

Lemma proj_axes_sum_index k r :
  length r = length axes → proj axes (np.sum_index n axes k r) = r.
Proof using Haxes Hlt.
  intros Hlen. apply list_eq. intros j. unfold proj. rewrite list_lookup_fmap.
  destruct (axes !! j) as [p|] eqn:Hj; simpl.
  - rewrite (sum_index_at_axis k r j p Hj). simpl.
    destruct (lookup_lt_is_Some_2 r j) as [x Hx].
    { apply lookup_lt_Some in Hj. lia. }
    by rewrite Hx.
  - symmetry. apply lookup_ge_None. apply lookup_ge_None in Hj. lia.
Qed.

Lemma proj_kept_sum_index k r :
  length k = length kept → proj kept (np.sum_index n axes k r) = k.
Proof using Haxes Hlt.
  intros Hlen. apply list_eq. intros j. unfold proj. rewrite list_lookup_fmap.
  destruct (kept !! j) as [p|] eqn:Hj; simpl.
  - rewrite (sum_index_at_kept k r j p Hj). simpl.
    destruct (lookup_lt_is_Some_2 k j) as [x Hx].
    { apply lookup_lt_Some in Hj. lia. }
    by rewrite Hx.
  - symmetry. apply lookup_ge_None. apply lookup_ge_None in Hj. lia.
Qed.

Lemma sum_index_proj idx :
  length idx = n → np.sum_index n axes (proj kept idx) (proj axes idx) = idx.
Proof using Haxes Hlt.
  intros Hlen. apply list_eq. intros p.
  destruct (decide (p < n)) as [Hp|Hp].
  2:{ rewrite (proj2 (lookup_ge_None _ p)) by (rewrite length_sum_index; lia).
      symmetry. apply lookup_ge_None. lia. }
  destruct (lookup_lt_is_Some_2 idx p) as [x Hx]; [lia|]. rewrite Hx.
  destruct (decide (p ∈ axes)) as [Hin|Hnot].
  - apply list_elem_of_lookup in Hin as [j Hj].
    rewrite (sum_index_at_axis _ _ j p Hj). unfold proj.
    by rewrite list_lookup_fmap, Hj; simpl; rewrite Hx.
  - assert (p ∈ kept) as [j Hj]%list_elem_of_lookup by (by apply elem_of_kept).
    rewrite (sum_index_at_kept _ _ j p Hj). unfold proj.
    by rewrite list_lookup_fmap, Hj; simpl; rewrite Hx.
Qed.

Lemma in_range_proj ax idx :
  Forall (λ p, p < n) ax → np.in_range s idx → np.in_range (sel ax) (proj ax idx).
Proof.
  intros Hax Hidx. unfold np.in_range, sel, proj.
  apply Forall2_fmap, Forall_Forall2_diag.
  eapply Forall_impl; [exact Hax|]. intros p Hp. simpl.
  destruct (lookup_lt_is_Some_2 s p Hp) as [m Hm].
  destruct (Forall2_lookup_r _ _ _ _ _ Hidx Hm) as (i & Hi & Him).
  by rewrite Hi, Hm.
Qed.

Lemma in_range_sum_index k r :
  np.in_range (sel kept) k → np.in_range (sel axes) r →
  np.in_range s (np.sum_index n axes k r).
Proof using Haxes Hlt.
  intros Hk Hr. apply Forall2_same_length_lookup_2; [apply length_sum_index|].
  intros p i m Hi Hm.
  destruct (decide (p ∈ axes)) as [Hin|Hnot].
  - apply list_elem_of_lookup in Hin as [j Hj].
    rewrite (sum_index_at_axis _ _ j p Hj) in Hi. injection Hi as <-.
    assert (sel axes !! j = Some m) as Hsel.
    { unfold sel. by rewrite list_lookup_fmap, Hj; simpl; rewrite Hm. }
    destruct (Forall2_lookup_r _ _ _ _ _ Hr Hsel) as (x & -> & Hxm). done.
  - assert (p ∈ kept) as [j Hj]%list_elem_of_lookup.
    { apply elem_of_kept. split; [|done]. by eapply lookup_lt_Some. }
    rewrite (sum_index_at_kept _ _ j p Hj) in Hi. injection Hi as <-.
    assert (sel kept !! j = Some m) as Hsel.
    { unfold sel. by rewrite list_lookup_fmap, Hj; simpl; rewrite Hm. }
    destruct (Forall2_lookup_r _ _ _ _ _ Hk Hsel) as (x & -> & Hxm). done.
Qed.

Lemma NoDup_fibre k :
  np.in_range (sel kept) k → NoDup (np.sum_index n axes k <$> np.indices (sel axes)).
Proof using Haxes Hlt.
  intros Hk. apply NoDup_fmap_2_strong; [|apply NoDup_indices].
  intros r1 r2 Hr1%elem_of_indices Hr2%elem_of_indices Heq.
  apply in_range_length in Hr1, Hr2. unfold sel in Hr1, Hr2.
  rewrite length_fmap in Hr1, Hr2.
  rewrite <-(proj_axes_sum_index k r1), <-(proj_axes_sum_index k r2), Heq; auto.
Qed.

(** The tuples that are added up for the entry at [k] are the tuples of the
    buffer that have [k] on the kept axes. *)
Lemma elem_of_fibre k idx :
  np.in_range (sel kept) k →
  idx ∈ (np.sum_index n axes k <$> np.indices (sel axes))
  ↔ np.in_range s idx ∧ proj kept idx = k.
Proof using Haxes Hlt.
  intros Hk. rewrite list_elem_of_fmap. split.
  - intros (r & -> & Hr%elem_of_indices). split; [by apply in_range_sum_index|].
    apply proj_kept_sum_index. apply in_range_length in Hk. unfold sel in Hk.
    by rewrite length_fmap in Hk.
  - intros [Hidx <-]. exists (proj axes idx). split.
    + symmetry. apply sum_index_proj. by apply in_range_length.
    + apply elem_of_indices. by apply in_range_proj.
Qed.

Lemma summed_indices :
  (np.indices (sel kept) ≫= λ k, np.sum_index n axes k <$> np.indices (sel axes))
  ≡ₚ np.indices s.
Proof using Haxes Hlt.
  assert (Forall (λ p, p < n) kept) as Hkept.
  { apply Forall_forall. intros p Hp. by apply elem_of_kept in Hp as [? _]. }
  assert (∀ ax idx, np.in_range (sel ax) idx → length idx = length ax) as Hlen.
  { intros ax idx H. apply in_range_length in H. unfold sel in H.
    by rewrite length_fmap in H. }
  apply NoDup_Permutation.
  - apply NoDup_bind; [| |apply NoDup_indices].
    + intros k1 k2 idx Hk1%elem_of_indices Hk2%elem_of_indices
        (r1 & -> & Hr1%elem_of_indices)%list_elem_of_fmap
        (r2 & Heq & Hr2%elem_of_indices)%list_elem_of_fmap.
      rewrite <-(proj_kept_sum_index k1 r1), <-(proj_kept_sum_index k2 r2), Heq; auto.
    + intros k Hk%elem_of_indices. by apply NoDup_fibre.
  - apply NoDup_indices.
  - intros idx. rewrite list_elem_of_bind, elem_of_indices. split.
    + intros (k & (r & -> & Hr%elem_of_indices)%list_elem_of_fmap & Hk%elem_of_indices).
      by apply in_range_sum_index.
    + intros Hidx. exists (proj kept idx). split.
      * apply list_elem_of_fmap. exists (proj axes idx). split.
        -- symmetry. apply sum_index_proj. by apply in_range_length.
        -- apply elem_of_indices. by apply in_range_proj.
      * apply elem_of_indices. by apply in_range_proj.
Qed.

End summed.

(** [np.sum] keeps the sum of all entries. *)
Lemma sum_total a axes b :
  np.wf a → np.sum a axes = Ok b → np.Zsum (np.data b) = np.Zsum (np.data a).
Proof.
  intros Hwf. rewrite sum_outcome. repeat case_decide; try done. intros [= <-].
  unfold np.tabulate. simpl.
  pose proof (tabulate_get a Hwf) as Hget. apply (f_equal np.data) in Hget.
  simpl in Hget. rewrite <-Hget.
  rewrite <-(Zsum_Permutation _ _ (fmap_Permutation (np.get a) _ _
               (summed_indices (np.shape a) axes ltac:(done) ltac:(done)))).
  rewrite fmap_bind_list, Zsum_bind. f_equal.
  apply list_fmap_ext. intros i k _. by rewrite <-list_fmap_compose.
Qed.

(** [np.sum] does not depend on the order of the axes. *)
Lemma sum_Permutation a axes axes' :
  axes ≡ₚ axes' → np.sum a axes = np.sum a axes'.
Proof.
  intros Hp. rewrite !sum_outcome. unfold np.ndim.
  assert (np.kept_axes (length (np.shape a)) axes
          = np.kept_axes (length (np.shape a)) axes') as Hkept.
  { unfold np.kept_axes. apply list_filter_iff. intros p. by rewrite Hp. }
  destruct (decide (Forall (λ x, x < length (np.shape a)) axes)) as [Hlt|Hlt].
  2:{ rewrite decide_False; [done|]. by rewrite <-Hp. }
  rewrite (decide_True (P := Forall _ axes')) by (by rewrite <-Hp).
  destruct (decide (NoDup axes)) as [Hnd|Hnd].
  2:{ rewrite decide_False; [done|]. by rewrite <-Hp. }
  rewrite (decide_True (P := NoDup axes')) by (by rewrite <-Hp).
  f_equal. rewrite <-Hkept. apply tabulate_ext. intros k Hk.
  apply Zsum_Permutation.
  assert (∀ ax s, (λ r, np.get a (np.sum_index (length (np.shape a)) ax k r))
                    <$> np.indices s
                  = np.get a <$> (np.sum_index (length (np.shape a)) ax k
                                    <$> np.indices s)) as Hc.
  { intros. by rewrite <-list_fmap_compose. }
  rewrite !Hc. apply fmap_Permutation. apply NoDup_Permutation.
  - by apply NoDup_fibre.
  - apply NoDup_fibre; [by rewrite <-Hp|by rewrite <-Hp|by rewrite <-Hkept].
  - intros idx. rewrite elem_of_fibre by done.
    rewrite elem_of_fibre; [|by rewrite <-Hp|by rewrite <-Hp|by rewrite <-Hkept].
    by rewrite Hkept.
Qed.

(** ** marginalize and the sum of all entries *)


(** ** The cardinalities and the labels of a product *)

(** X15 (cardinalities and labels of a product).  A factor that [product]
    returns has, for each of its variables, the cardinality that [self]
    reports if [self] has the variable and that [other] reports otherwise.
    It has the state labels of [self], for every variable: the labels of
    [other] are not taken over. *)
Theorem product_cardinalities_and_labels (order : SetIteration) σ self other fA fB l σ' :
  factors σ !! self = Some fA → factors σ !! other = Some fB →
  well_formed σ fA → well_formed σ fB →
  product order self (Instance other) σ = (Ok (Product l), σ') →
  ∃ p, factors σ' !! l = Some p ∧
       Forall2 (λ v c, if decide (v ∈ variables fA) then reported fA v c
                       else reported fB v c)
               (variables p) (cardinality p) ∧
       ∀ v, labels σ' p v = labels σ fA v.
Proof.
  intros HfA HfB HwA HwB Hrun.
  pose proof HwA as (_ & HndA & HlenA & aA & HbA & _).
  pose proof HwB as (_ & _ & _ & aB & HbB & _).
  pose proof (wp_product_buffers order σ self other fA fB aA aB
    (λ r σ', ∀ l, r = Product l →
       ∃ p, factors σ' !! l = Some p ∧
            Forall2 (λ v c, if decide (v ∈ variables fA) then reported fA v c
                            else reported fB v c)
                    (variables p) (cardinality p) ∧
            ∀ v, labels σ' p v = labels σ fA v)
    (λ _ _, True) HfA HfB HwA HwB HbA HbB) as H.
  unfold wp in H. rewrite Hrun in H. apply H; [|done].
  intros dest Hdest. destruct (np.multiply _ _) as [prod|e]; [|done].
  intros σ1 Hext l1 p cards Hnone Hp Hvars Hcards Hrep Hlab Hbuf l2 [= <-].
  exists p. split_and!; try done.
  rewrite Hvars, Hcards. unfold left_scope. apply Forall2_app.
  - apply Forall2_same_length_lookup_2; [done|].
    intros i v c Hv Hc. rewrite decide_True by (by eapply list_elem_of_lookup_2).
    exists i. split; [|done]. by apply index_of_lookup.
  - eapply Forall2_impl_elem; [exact Hrep|].
    intros v c [_ Hv]%iter_difference_elem Hr. by rewrite decide_False.
Qed.

(** ** marginalize and the order of its argument *)

Lemma positions_functional (l vars : list string) idxs :
  Forall2 (λ v i, index_of v l = Some i) vars idxs →
  idxs = (λ v, default 0 (index_of v l)) <$> vars.
Proof.
  induction 1 as [|v i vars idxs Hi _ IH]; [done|].
  rewrite fmap_cons, <-IH, Hi. done.
Qed.

Lemma var_indexes_run σ phi self p f vars r σ' :
  factors σ !! phi = Some p → factors σ !! self = Some f →
  variables p = variables f →
  var_indexes phi self vars σ = (r, σ') →
  σ' = σ ∧
  (Forall (λ v, v ∈ variables f) vars →
   r = Ok ((λ v, default 0 (index_of v (variables f))) <$> vars)) ∧
  (∀ idxs, r = Ok idxs → Forall (λ v, v ∈ variables f) vars).
Proof.
  intros Hp Hf Hvars Hrun.
  pose proof (wp_var_indexes σ phi self p f vars Hp Hf Hvars) as H.
  unfold wp in H. rewrite Hrun in H. destruct r as [idxs|e].
  - destruct H as [-> HF]. split_and!; [done| |].
    + intros _. f_equal. by apply positions_functional.
    + intros _ _. apply Forall_forall. intros v Hv. by eapply Forall2_index_elem.
  - destruct H as (-> & v & -> & Hv & Hnot). split_and!; [done| |done].
    intros Hall. rewrite Forall_forall in Hall. by destruct Hnot; apply Hall.
Qed.

(** X16 (marginalize and the order of its argument).  When [marginalize]
    returns a factor for [vars], it returns the same factor, in the same
    store, for every reordering of [vars]. *)
Theorem marginalize_order_irrelevant σ self f vars vars' phi σ' :
  factors σ !! self = Some f → closed σ f → vars ≡ₚ vars' →
  marginalize self vars σ = (Ok phi, σ') →
  marginalize self vars' σ = (Ok phi, σ').
Proof.
  intros Hf Hcl Hperm Hrun. rewrite <-Hrun. unfold marginalize.
  apply bind_congr; [done|]. intros phi0 σ1 Hcopy.
  assert (∃ p, factors σ1 !! phi0 = Some p ∧ variables p = variables f ∧
               factors σ1 !! self = Some f) as (p & Hp & Hvars & Hf1).
  { pose proof (wp_deepcopy_factor σ self f
      (λ phi σ1, ∃ p, factors σ1 !! phi = Some p ∧ variables p = variables f ∧
                      factors σ1 !! self = Some f) (λ _ _, True) Hf Hcl) as H.
    unfold wp in H. rewrite Hcopy in H. apply H.
    intros phi' σ2 v' sn' Hext _ Hphi' _ _. eexists. split; [done|]. split; [done|].
    by eapply extends_factors. }
  unfold marginalize in Hrun. rewrite (bind_ok _ _ _ _ _ Hcopy) in Hrun.
  destruct (var_indexes phi0 self vars σ1) as [r1 σ2] eqn:Hrun1.
  destruct (var_indexes phi0 self vars' σ1) as [r2 σ3] eqn:Hrun2.
  destruct (var_indexes_run _ _ _ _ _ _ _ _ Hp Hf1 Hvars Hrun1) as (-> & Hok1 & Hall1).
  destruct (var_indexes_run _ _ _ _ _ _ _ _ Hp Hf1 Hvars Hrun2) as (-> & Hok2 & _).
  destruct r1 as [idxs|e]; [|by rewrite (bind_raise _ _ _ _ _ Hrun1) in Hrun].
  specialize (Hall1 idxs eq_refl). rewrite (Hok1 Hall1) in Hrun1.
  rewrite Hok2 in Hrun2 by (by rewrite <-Hperm).
  rewrite (bind_ok _ _ _ _ _ Hrun1), (bind_ok _ _ _ _ _ Hrun2).
  set (g := λ v, default 0 (index_of v (variables f))).
  assert (g <$> vars' ≡ₚ g <$> vars) as Hidx by (by rewrite Hperm).
  apply bind_congr; [done|]. intros f' σ4 _.
  rewrite !index_to_keep_eq.
  assert (np.kept_axes (length (variables f')) (g <$> vars')
          = np.kept_axes (length (variables f')) (g <$> vars)) as ->.
  { unfold np.kept_axes. apply list_filter_iff. intros i. by rewrite Hidx. }
  apply bind_congr; [done|]. intros vs σ5 _.
  apply bind_congr; [done|]. intros [] σ6 _.
  apply bind_congr; [done|]. intros cs σ7 _.
  apply bind_congr; [done|]. intros [] σ8 _.
  apply bind_congr; [done|]. intros a σ9 _.
  apply bind_congr; [|done]. unfold lift. by rewrite (sum_Permutation a _ _ Hidx).
Qed.

(** ** np.sum of an np.sum *)

Lemma omap_lookup_lt {A} (l : list A) (d : A) (ks : list nat) :
  Forall (λ k, k < length l) ks →
  omap (λ i, l !! i) ks = (λ q, default d (l !! q)) <$> ks.
Proof.
  induction 1 as [|k ks Hk _ IH]; [done|].
  destruct (lookup_lt_is_Some_2 l k Hk) as [x Hx].
  rewrite fmap_cons, <-IH. simpl. by rewrite Hx.
Qed.

Section sum_sum.
Context (s : list nat) (ax1 ax2 : list nat).
Hypothesis Hnd1 : NoDup ax1.
Hypothesis Hlt1 : Forall (λ p, p < length s) ax1.

Let n := length s.
Let kept1 := np.kept_axes n ax1.
Let through (q : nat) : nat := default 0 (kept1 !! q).

Hypothesis Hnd2 : NoDup ax2.
Hypothesis Hlt2 : Forall (λ q, q < length kept1) ax2.

Let kept2 := np.kept_axes (length kept1) ax2.

Lemma through_lookup q : q < length kept1 → kept1 !! q = Some (through q).
Proof.
  intros Hq. unfold through.
  destruct (lookup_lt_is_Some_2 kept1 q Hq) as [p Hp]. by rewrite Hp.
Qed.

Lemma through_inj q1 q2 :
  q1 < length kept1 → q2 < length kept1 → through q1 = through q2 → q1 = q2.
Proof.
  intros H1 H2 Heq. apply through_lookup in H1, H2. rewrite Heq in H1.
  eapply NoDup_lookup; [|exact H1|exact H2]. apply NoDup_filter, NoDup_seq.
Qed.

Lemma elem_of_through (ax : list nat) i p :
  Forall (λ q, q < length kept1) ax → kept1 !! i = Some p →
  p ∈ through <$> ax ↔ i ∈ ax.
Proof.
  intros Hax Hi. rewrite list_elem_of_fmap. split.
  - intros (q & Hq & Hin). rewrite Forall_forall in Hax.
    pose proof (through_lookup q (Hax q Hin)) as Hq'. rewrite <-Hq in Hq'.
    assert (i = q) as ->; [|done].
    eapply NoDup_lookup; [|exact Hi|exact Hq']. apply NoDup_filter, NoDup_seq.
  - intros Hin. exists i. split; [|done]. unfold through. by rewrite Hi.
Qed.

Lemma joined_axes_lt : Forall (λ p, p < n) (ax1 ++ (through <$> ax2)).
Proof using Hlt1 Hlt2.
  apply Forall_app. split; [done|]. apply Forall_fmap.
  eapply Forall_impl; [exact Hlt2|]. intros q Hq. simpl.
  pose proof (through_lookup q Hq) as Hp. apply list_elem_of_lookup_2 in Hp.
  apply list_elem_of_filter in Hp as [_ Hp%elem_of_seq]. lia.
Qed.

Lemma joined_axes_NoDup : NoDup (ax1 ++ (through <$> ax2)).
Proof using Hnd1 Hnd2 Hlt2.
  rewrite Forall_forall in Hlt2. apply NoDup_app. split_and!; [done| |].
  - intros p Hp (q & -> & Hq)%list_elem_of_fmap.
    pose proof (through_lookup q (Hlt2 q Hq)) as Hin. apply list_elem_of_lookup_2 in Hin.
    by apply list_elem_of_filter in Hin as [? _].
  - apply NoDup_fmap_2_strong; [|done]. intros q1 q2 H1 H2. apply through_inj; auto.
Qed.

Lemma joined_kept :
  np.kept_axes n (ax1 ++ (through <$> ax2)) = through <$> kept2.
Proof using Hlt2.
  assert (np.kept_axes n (ax1 ++ (through <$> ax2))
          = filter (λ p, p ∉ through <$> ax2) kept1) as ->.
  { unfold kept1, np.kept_axes. rewrite list_filter_filter. apply list_filter_iff.
    intros p. rewrite elem_of_app. tauto. }
  rewrite <-(filter_by_position (λ p, p ∉ through <$> ax2) (λ i, i ∉ ax2)).
  - apply omap_lookup_lt. apply Forall_forall.
    intros q [_ Hq%elem_of_seq]%list_elem_of_filter. lia.
  - intros i p Hi. by rewrite (elem_of_through ax2 i p Hlt2 Hi).
Qed.

Lemma through_extents (ax : list nat) :
  Forall (λ q, q < length kept1) ax →
  (λ q, default 0 (((λ p, default 0 (s !! p)) <$> kept1) !! q)) <$> ax
  = (λ p, default 0 (s !! p)) <$> (through <$> ax).
Proof.
  intros Hax. rewrite <-list_fmap_compose. apply list_fmap_ext.
  intros i q Hq. simpl. rewrite Forall_forall in Hax.
  rewrite list_lookup_fmap, (through_lookup q); [done|].
  apply Hax. by eapply list_elem_of_lookup_2.
Qed.

Lemma through_proj (ax idx : list nat) :
  Forall (λ q, q < length kept1) ax →
  (λ q, default 0 (((λ p, default 0 (idx !! p)) <$> kept1) !! q)) <$> ax
  = (λ p, default 0 (idx !! p)) <$> (through <$> ax).
Proof.
  intros Hax. rewrite <-list_fmap_compose. apply list_fmap_ext.
  intros i q Hq. simpl. rewrite Forall_forall in Hax.
  rewrite list_lookup_fmap, (through_lookup q); [done|].
  apply Hax. by eapply list_elem_of_lookup_2.
Qed.

End sum_sum.

Lemma sum_sum a ax1 ax2 b c :
  np.sum a ax1 = Ok b → np.sum b ax2 = Ok c →
  np.sum a (ax1 ++ ((λ q, default 0 (np.kept_axes (np.ndim a) ax1 !! q)) <$> ax2)) = Ok c.
Proof.
  rewrite !sum_outcome. unfold np.ndim.
  case_decide as Hlt1; [|done]. case_decide as Hnd1; [|done]. intros [= <-]. simpl.
  case_decide as Hlt2; [|done]. case_decide as Hnd2; [|done]. intros [= <-].
  set (s := np.shape a) in *.
  set (kept1 := np.kept_axes (length s) ax1) in *.
  set (sb := (λ p, default 0 (s !! p)) <$> kept1) in *.
  assert (length sb = length kept1) as Hlen by (unfold sb; by rewrite length_fmap).
  set (through := λ q, default 0 (kept1 !! q)).
  set (kept2 := np.kept_axes (length sb) ax2).
  assert (Forall (λ q, q < length kept1) ax2) as Hlt2' by (by rewrite <-Hlen).
  pose proof (joined_axes_lt s ax1 ax2 Hlt1 Hlt2') as Hlt12.
  pose proof (joined_axes_NoDup s ax1 ax2 Hnd1 Hnd2 Hlt2') as Hnd12.
  pose proof (joined_kept s ax1 ax2 Hlt2') as Hkept12.
  fold kept1 through in Hlt12, Hnd12, Hkept12. rewrite <-Hlen in Hkept12. fold kept2 in Hkept12.
  rewrite decide_True by done. rewrite decide_True by done.
  f_equal. rewrite Hkept12.
  assert (Forall (λ q, q < length kept1) kept2) as Hk2lt.
  { apply Forall_forall. intros q [_ Hq%elem_of_seq]%list_elem_of_filter. lia. }
  pose proof (through_extents s ax1 kept2 Hk2lt) as Hsel. fold kept1 sb through in Hsel.
  rewrite <-Hsel. symmetry. apply tabulate_ext. intros k Hk.
  set (I1 := np.indices ((λ p, default 0 (s !! p)) <$> ax1)).
  set (I2 := np.indices ((λ p, default 0 (sb !! p)) <$> ax2)).
  set (I12 := np.indices ((λ p, default 0 (s !! p)) <$> ax1 ++ (through <$> ax2))).
  set (merge1 := np.sum_index (length s) ax1).
  set (merge2 := np.sum_index (length sb) ax2).
  assert (∀ r2, r2 ∈ I2 → np.in_range sb (merge2 k r2) ∧ length r2 = length ax2) as HI2.
  { intros r2 Hr2%elem_of_indices. split; [by apply in_range_sum_index|].
    apply in_range_length in Hr2. by rewrite length_fmap in Hr2. }
  assert (Forall (λ p, p < length s) kept1) as Hk1lt.
  { apply Forall_forall. intros p [_ Hp%elem_of_seq]%list_elem_of_filter. lia. }
  assert (length k = length kept2) as Hlenk.
  { apply in_range_length in Hk. by rewrite length_fmap in Hk. }
  transitivity (np.Zsum (np.get a <$> (I2 ≫= λ r2, merge1 (merge2 k r2) <$> I1))).
  { rewrite fmap_bind_list, Zsum_bind. f_equal. apply Forall_fmap_ext_1, Forall_forall.
    intros r2 Hr2. rewrite get_tabulate by (by apply HI2).
    by rewrite <-list_fmap_compose. }
  transitivity (np.Zsum (np.get a <$>
     (np.sum_index (length s) (ax1 ++ (through <$> ax2)) k <$> I12))).
  2:{ by rewrite <-list_fmap_compose. }
  assert (np.in_range ((λ p, default 0 (s !! p)) <$>
            np.kept_axes (length s) (ax1 ++ (through <$> ax2))) k) as Hk12.
  { by rewrite Hkept12, <-Hsel. }
  apply Zsum_Permutation, fmap_Permutation, NoDup_Permutation.
  - apply NoDup_bind; [| |apply NoDup_indices].
    + intros r2 r2' idx Hr2 Hr2' Hin Hin'.
      apply (elem_of_fibre s ax1 Hnd1 Hlt1) in Hin as [_ Hin]; [|by apply HI2].
      apply (elem_of_fibre s ax1 Hnd1 Hlt1) in Hin' as [_ Hin']; [|by apply HI2].
      rewrite <-(proj_axes_sum_index sb ax2 Hnd2 Hlt2 k r2) by (by apply HI2).
      rewrite <-(proj_axes_sum_index sb ax2 Hnd2 Hlt2 k r2') by (by apply HI2).
      fold merge2. by rewrite <-Hin, <-Hin'.
    + intros r2 Hr2. apply NoDup_fibre; [done..|]. by apply HI2.
  - by apply NoDup_fibre.
  - intros idx. rewrite list_elem_of_bind.
    pose proof (through_proj s ax1 kept2 idx Hk2lt) as Hproj.
    fold kept1 through in Hproj. split.
    + intros (r2 & Hin & Hr2).
      apply (elem_of_fibre s _ Hnd12 Hlt12 k idx Hk12). rewrite Hkept12, <-Hproj.
      apply (elem_of_fibre s ax1 Hnd1 Hlt1) in Hin as [Hidx Hin]; [|by apply HI2].
      split; [done|]. fold kept1 in Hin. rewrite Hin.
      by apply (proj_kept_sum_index sb ax2 Hnd2 Hlt2).
    + intros Hin12.
      apply (elem_of_fibre s _ Hnd12 Hlt12 k idx Hk12) in Hin12 as [Hidx Hkk].
      rewrite Hkept12, <-Hproj in Hkk.
      assert (((λ p, default 0 (idx !! p)) <$> kept1) ∈ (merge2 k <$> I2))
        as (r2 & Hr2eq & Hr2)%list_elem_of_fmap.
      { apply (elem_of_fibre sb ax2 Hnd2 Hlt2); [done|]. split; [|done].
        by apply in_range_proj. }
      exists r2. split; [|done].
      apply (elem_of_fibre s ax1 Hnd1 Hlt1); [by apply HI2|]. by split.
Qed.

(** ** marginalize in two steps *)

Lemma picked_twice {A} (l l1 l2 l12 : list A) (kept1 kept2 : list nat) :
  Forall2 (λ i x, l !! i = Some x) kept1 l1 →
  Forall2 (λ q x, l1 !! q = Some x) kept2 l2 →
  Forall2 (λ i x, l !! i = Some x) ((λ q, default 0 (kept1 !! q)) <$> kept2) l12 →
  l2 = l12.
Proof.
  intros H1 H2. revert l12.
  induction H2 as [|q x kept2 l2 Hq _ IH]; intros l12 H12.
  - by inversion H12.
  - rewrite fmap_cons in H12. inversion H12 as [|? y ? l12' Hy H12']; subst.
    f_equal; [|by apply IH].
    destruct (Forall2_lookup_r _ _ _ _ _ H1 Hq) as (i & Hi & Hx).
    rewrite Hi in Hy. simpl in Hy. congruence.
Qed.

Lemma positions_through (l l1 : list string) kept1 vars2 idxs2 i2 :
  NoDup l →
  Forall2 (λ i x, l !! i = Some x) kept1 l1 →
  Forall2 (λ v q, index_of v l1 = Some q) vars2 idxs2 →
  Forall2 (λ v i, index_of v l = Some i) vars2 i2 →
  i2 = (λ q, default 0 (kept1 !! q)) <$> idxs2.
Proof.
  intros Hnd H1 H2. revert i2.
  induction H2 as [|v q vars2 idxs2 Hq _ IH]; intros i2 H; inversion H; subst; [done|].
  rewrite fmap_cons. f_equal; [|by apply IH].
  apply index_of_Some in Hq as [Hq _].
  destruct (Forall2_lookup_r _ _ _ _ _ H1 Hq) as (i & Hi & Hv).
  rewrite Hi. simpl. rewrite (index_of_lookup _ _ _ Hnd Hv) in *. congruence.
Qed.

Lemma copied_state_names_closed σ σ' sn sn' d :
  copied_state_names σ σ' sn sn' → sn' = Some d →
  ∃ m, dicts σ' !! d = Some m ∧ dict_closed σ' m.
Proof.
  intros Hsn ->. unfold copied_state_names in Hsn. destruct sn as [d0|]; [|done].
  destruct Hsn as (m & Hm & _ & m' & Hm' & Hk). exists m'. split; [done|].
  intros k l Hl. specialize (Hk k). rewrite Hl in Hk.
  destruct Hk as (l0 & _ & _ & xs & _ & ->). eauto.
Qed.


(** ** Instances *)

Local Open Scope string_scope.

Lemma store_3_xy : factors store_3 !! 1%positive = Some instance_xy.
Proof. by vm_compute. Qed.

Lemma store_3_yzx : factors store_3 !! 2%positive = Some instance_yzx.
Proof. by vm_compute. Qed.

Lemma store_3_yx : factors store_3 !! 3%positive = Some instance_yx.
Proof. by vm_compute. Qed.

Lemma store_3_buffer_xy : buffer store_3 instance_xy = Some buffer_xy.
Proof. by vm_compute. Qed.

Lemma store_3_buffer_yx : buffer store_3 instance_yx = Some buffer_yx.
Proof. by vm_compute. Qed.

Lemma store_3_well_formed_xy : well_formed store_3 instance_xy.
Proof.
  split_and!.
  - split; [|done]. intros l [= <-]. eexists. by vm_compute.
  - compute_done.
  - done.
  - exists buffer_xy. split_and!; [apply store_3_buffer_xy|done..].
Qed.

Lemma store_3_well_formed_yx : well_formed store_3 instance_yx.
Proof.
  split_and!.
  - split; [|done]. intros l [= <-]. eexists. by vm_compute.
  - compute_done.
  - done.
  - exists buffer_yx. split_and!; [apply store_3_buffer_yx|done..].
Qed.

Lemma store_1_buffer_shaped : buffer_shaped store_1 instance_1.
Proof. intros a Ha. rewrite store_1_buffer in Ha. injection Ha as <-. done. Qed.

(** X1, witness: the cardinality of [B] in the factor of the first scenario. *)
Lemma get_cardinality_spec_witness :
  ∃ d, get_cardinality F_1 ["B"] store_1 = (Ok d, store_1) ∧ dom d = {["B"]}.
Proof.
  destruct (get_cardinality_spec store_1 F_1 instance_1 ["B"]) as [H _].
  - apply store_1_factor.
  - simpl. lia.
  - destruct H as (d & Hd & Hdom & _); [compute_done|].
    exists d. split; [exact Hd|]. rewrite Hdom. simpl. by rewrite union_empty_r_L.
Defined.

(** X2, witness: the factor over [x], [y] extended with the variables of the
    factor over [y], [z], [x]. *)
Lemma add_new_variables_spec_witness :
  ∃ σ' f', add_new_variables_from_other_factor insertion_order 1%positive 2%positive store_3
           = (Ok (), σ') ∧
           factors σ' !! 1%positive = Some f' ∧
           length (variables f') = length (cardinality f').
Proof.
  destruct (add_new_variables_spec insertion_order store_3 1%positive 2%positive
              instance_xy instance_yzx buffer_xy)
    as (extra & cards & σ' & f' & a' & Hrun & _ & _ & Hf' & Hv & Hc & Hrep & _).
  - apply store_3_xy.
  - apply store_3_yzx.
  - done.
  - apply store_3_buffer_xy.
  - done.
  - simpl. lia.
  - exists σ', f'. split; [exact Hrun|]. split; [exact Hf'|].
    rewrite Hv, Hc, !length_app. apply Forall2_length in Hrep. simpl. lia.
Defined.

(** X3, witness: the factor over [x], [y] and the factor over [y], [x]. *)
Lemma add_new_variables_edge_witness :
  add_new_variables_from_other_factor insertion_order 1%positive 3%positive store_3
  = (Ok (), store_3).
Proof.
  destruct (add_new_variables_edge insertion_order store_3 1%positive 3%positive
              instance_xy instance_yx) as [H _].
  - apply store_3_xy.
  - apply store_3_yx.
  - apply H. apply Forall_forall. compute_done.
Defined.


(** X5, witness: the factor of the first scenario. *)
Lemma product_other_operand_witness :
  ∃ σ', __mul__ insertion_order F_1 Other store_1 = (Raise MulAssertion, σ').
Proof.
  destruct (product_other_operand insertion_order store_1 F_1 instance_1
              store_1_factor store_1_closed store_1_buffer_shaped) as (σ' & Hrun & _).
  by exists σ'.
Defined.

(** X6, witness: the product of the factors over [x], [y] and over [y], [x]. *)
Lemma product_leaves_operands_witness :
  ∃ r σ', product insertion_order 1%positive (Instance 3%positive) store_3 = (r, σ') ∧
          factors σ' !! 1%positive = Some instance_xy.
Proof.
  destruct (product insertion_order 1%positive (Instance 3%positive) store_3)
    as [r σ'] eqn:Hrun.
  destruct (product_leaves_operands insertion_order store_3 1%positive 3%positive
              instance_xy instance_yx r σ') as (_ & H & _).
  - apply store_3_xy.
  - apply store_3_yx.
  - apply store_3_well_formed_xy.
  - apply store_3_well_formed_yx.
  - exact Hrun.
  - exists r, σ'. split; [reflexivity|exact H].
Defined.

(** X15, witness: the product of the factor of the first scenario with itself. *)
Lemma product_cardinalities_and_labels_witness :
  ∃ l σ' p, product insertion_order F_1 (Instance F_1) store_1 = (Ok (Product l), σ') ∧
            factors σ' !! l = Some p ∧
            labels σ' p "A" = Some ["a0"; "a1"].
Proof.
  destruct (product insertion_order F_1 (Instance F_1) store_1) as [r σ'] eqn:Hrun.
  assert (∃ l, r = Ok (Product l)) as [l ->].
  { vm_compute in Hrun. injection Hrun as <- _. by eexists. }
  destruct (product_cardinalities_and_labels insertion_order store_1 F_1 F_1
              instance_1 instance_1 l σ') as (p & Hp & _ & Hlab).
  - apply store_1_factor.
  - apply store_1_factor.
  - apply store_1_well_formed.
  - apply store_1_well_formed.
  - exact Hrun.
  - exists l, σ', p. split; [reflexivity|]. split; [exact Hp|].
    rewrite Hlab. by vm_compute.
Defined.

Lemma mirrored_xy_yx :
  mirrored (left_scope insertion_order ["x"; "y"] ["y"; "x"])
           (right_scope insertion_order ["x"; "y"] ["y"; "x"]).
Proof.
  intros i j v. vm_compute.
  destruct i as [|[|i]], j as [|[|j]]; intros Hi Hj; simplify_eq; done.
Qed.

Lemma agree_xy_yx : agree instance_xy instance_yx.
Proof.
  intros v cA cB (i & _ & Hi) (j & _ & Hj). simpl in *.
  destruct i as [|[|i]], j as [|[|j]]; simplify_eq/=; done.
Qed.


(** X7, witness: the factor of the first scenario. *)
Lemma copy_reshapes_witness :
  ∃ c σ', copy F_1 store_1 = (Ok c, σ').
Proof.
  pose proof (copy_reshapes store_1 F_1 instance_1 buffer_1
                store_1_factor store_1_closed store_1_buffer) as H.
  destruct (copy F_1 store_1) as [[c|e] σ'] eqn:Hrun.
  - by exists c, σ'.
  - destruct H as (_ & Hcount & _); [repeat constructor; lia|].
    by vm_compute in Hcount.
Defined.

(** X9, witness: new values for the factor of the first scenario; the array at
    the address of its previous buffer still holds [1, 2, 3, 4]. *)
Lemma update_values_rebinds_witness :
  ∃ r σ', update_values F_1 [5; 6; 7; 8]%Z store_1 = (r, σ') ∧
          arrays σ' !! 1%positive = Some buffer_1.
Proof.
  destruct (update_values F_1 [5; 6; 7; 8]%Z store_1) as [r σ'] eqn:Hrun.
  destruct (update_values_rebinds store_1 F_1 instance_1 [5; 6; 7; 8]%Z r σ')
    as (Ha & _).
  - apply store_1_factor.
  - exact Hrun.
  - exists r, σ'. split; [reflexivity|].
    eapply lookup_weaken; [|exact Ha]. by vm_compute.
Defined.

(** X10, witness: the factor over [x], [y], which has no state labels. *)
Lemma get_value_for_state_vector_no_labels_witness :
  get_value_for_state_vector 1%positive (<["x":="x0"]> (<["y":="y0"]> ∅)) store_3
  = (Raise NoneTypeError, store_3).
Proof.
  destruct (get_value_for_state_vector_no_labels store_3 1%positive instance_xy
              (<["x":="x0"]> (<["y":="y0"]> ∅)) [] "x" ["y"]) as [H _].
  - apply store_3_xy.
  - compute_done.
  - by vm_compute.
  - done.
  - constructor.
  - by apply H.
Defined.

(** X11, witness: the factor of the first scenario. *)
Lemma marginalize_leaves_self_witness :
  ∃ r σ', marginalize F_1 ["A"] store_1 = (r, σ') ∧
          factors σ' !! F_1 = Some instance_1.
Proof.
  destruct (marginalize F_1 ["A"] store_1) as [r σ'] eqn:Hrun.
  destruct (marginalize_leaves_self store_1 F_1 instance_1 ["A"] r σ') as (_ & H & _).
  - apply store_1_factor.
  - apply store_1_closed.
  - exact Hrun.
  - exists r, σ'. split; [reflexivity|exact H].
Defined.

(** X12, witness: [Z] and [Y] are not in scope, and [Z] comes first. *)
Lemma marginalize_errors_witness :
  ∃ σ', marginalize F_1 ["A"; "Z"; "Y"] store_1 = (Raise (NotInScope "Z"), σ').
Proof.
  destruct (marginalize_errors store_1 F_1 instance_1 buffer_1 ["A"; "Z"; "Y"]) as [H _].
  - apply store_1_factor.
  - apply store_1_closed.
  - apply (H ["A"] "Z" ["Y"]); [done|compute_done..].
Defined.


(** X16, witness: the factor of the first scenario. *)
Lemma marginalize_order_irrelevant_witness :
  marginalize F_1 ["A"; "B"] store_1 = marginalize F_1 ["B"; "A"] store_1.
Proof.
  destruct (marginalize F_1 ["B"; "A"] store_1) as [r σ'] eqn:Hrun.
  assert (∃ phi, r = Ok phi) as [phi ->].
  { vm_compute in Hrun. injection Hrun as <- _. by eexists. }
  apply (marginalize_order_irrelevant store_1 F_1 instance_1 ["B"; "A"] ["A"; "B"] phi σ').
  - apply store_1_factor.
  - apply store_1_closed.
  - apply Permutation_swap.
  - exact Hrun.
Defined.

